(** * mhlib.permutation_solution: permutation solutions, 2-exchange search
      and the three crossover operators

    A shallow embedding of [src/mhlib/permutation_solution.py].

    Conventions of the embedding.
    - The numpy vector [self.x] is a [list nat]: the class stores a
      permutation of 0,...,length-1, so entries are array indices.  Reading
      or writing outside the bounds raises [IndexError], as numpy does.
    - Python exceptions are values of [exn]; a computation that may raise
      returns a [result].
    - The two random generators ([numpy.random] and [random]) are streams of
      raw draws; [randrange k] and [choice] reduce a raw draw modulo the size
      of the range, so every outcome of the real generator is the image of
      some stream.
    - Solution objects live in a store ([heap]) and are named by references,
      so that a parent handed to an operator twice is one object. *)

From Stdlib Require Import Lia.
From stdpp Require Import base tactics option numbers list.

Set Default Proof Using "Type".

(** ** Exceptions and results *)

Inductive exn : Type :=
  | IndexError
  | ValueError
  | KeyError
  | AssertionError
  | NoSuchObject   (* a reference outside the store: no Python program has one *)
  | OutOfFuel.     (* a bounded loop of the model ran dry: shown unreachable *)

Inductive result (A : Type) : Type :=
  | Ok (a : A)
  | Raise (e : exn).
Arguments Ok {A} a.
Arguments Raise {A} e.

#[export] Instance result_ret : MRet result := fun A a => Ok a.
#[export] Instance result_bind : MBind result := fun A B f m =>
  match m with
  | Ok a => f a
  | Raise e => Raise e
  end.

Definition of_option {A} (e : exn) (o : option A) : result A :=
  match o with
  | Some a => Ok a
  | None => Raise e
  end.

(** ** Random generators *)

(** A generator is the stream of its future raw draws. *)
Definition rng : Type := nat -> nat.

Definition next_draw (r : rng) : nat * rng := (r 0, fun k => r (S k)).

(** [random.randrange(k)]: [ValueError] on an empty range. *)
Definition randrange (k : nat) (r : rng) : result nat * rng :=
  match k with
  | 0 => (Raise ValueError, r)
  | S _ => let '(d, r') := next_draw r in (Ok (d mod k), r')
  end.

(** [random.choice(seq)]: [IndexError] on an empty sequence. *)
Definition choice (l : list nat) (r : rng) : result nat * rng :=
  match l with
  | [] => (Raise IndexError, r)
  | _ :: _ =>
      let '(d, r') := next_draw r in
      (of_option IndexError (l !! (d mod length l)), r')
  end.

(** [a[i], a[j] = a[j], a[i]] on a sequence known to hold both positions;
    the right-hand side is read before the two stores. *)
Definition exchange {A} (l : list A) (i j : nat) : list A :=
  match l !! j, l !! i with
  | Some vj, Some vi => <[j := vi]> (<[i := vj]> l)
  | _, _ => l
  end.

(** [numpy.random.shuffle]: the Fisher-Yates pass from the last position
    down to position 1, position [i] exchanged with a draw from [0..i]. *)
Fixpoint shuffle_from {A} (i : nat) (l : list A) (r : rng) : list A * rng :=
  match i with
  | 0 => (l, r)
  | S i' =>
      let '(d, r') := next_draw r in
      shuffle_from i' (exchange l i (d mod S i)) r'
  end.

Definition shuffle {A} (l : list A) (r : rng) : list A * rng :=
  shuffle_from (length l - 1) l r.

(** ** Solutions *)

(** The attributes of a solution object: the vector [x], the cached
    objective [obj_val] with its flag, the size [inst.n] of the problem
    instance, and whatever a subclass keeps beside them ([aux]). *)
Record Solution (Obj Aux : Type) : Type := mkSolution {
  x : list nat;
  obj_val : Obj;
  obj_val_valid : bool;
  inst_n : nat;
  aux : Aux
}.
Arguments mkSolution {Obj Aux}.
Arguments x {Obj Aux}.
Arguments obj_val {Obj Aux}.
Arguments obj_val_valid {Obj Aux}.
Arguments inst_n {Obj Aux}.
Arguments aux {Obj Aux}.

Section SolutionBase.
Context {Obj Aux : Type}.
Local Abbreviation Sol := (Solution Obj Aux).

Definition set_x (v : list nat) (s : Sol) : Sol :=
  mkSolution v (obj_val s) (obj_val_valid s) (inst_n s) (aux s).

Definition set_obj_val (o : Obj) (s : Sol) : Sol :=
  mkSolution (x s) o (obj_val_valid s) (inst_n s) (aux s).

(** Modelled from the spec: [invalidate] of the vector-solution base,
    which marks the cached objective invalid. *)
Definition invalidate (s : Sol) : Sol :=
  mkSolution (x s) (obj_val s) false (inst_n s) (aux s).

(** Modelled from the spec: [obj] of the vector-solution base, which
    returns the cached objective and recomputes it first when the cache is
    invalid. *)
Definition obj (calc_objective : Sol -> Obj) (s : Sol) : Obj * Sol :=
  if obj_val_valid s then (obj_val s, s)
  else
    let v := calc_objective s in
    (v, mkSolution (x s) v true (inst_n s) (aux s)).

(** [self.x[p1], self.x[p2] = self.x[p2], self.x[p1]]: both reads come
    first and raise on a position outside the vector. *)
Definition swap_items (l : list nat) (p1 p2 : nat) : option (list nat) :=
  v2 ← l !! p2; v1 ← l !! p1; Some (<[p2 := v1]> (<[p1 := v2]> l)).

(** [two_exchange_delta_eval] as the class defines it. *)
Definition default_delta_eval
    (p1 p2 : nat) (update_obj_val allow_infeasible : bool) (s : Sol)
    : bool * Sol :=
  (true, if update_obj_val then invalidate s else s).

(** [check].  Line 33 runs the check of the base class first; its code is
    not part of this module, so it is the parameter [base_check], giving
    the answer of that check and the object as it leaves it.  What it
    raises is passed on.  Lines 34-35: [ValueError] unless the set of the
    values of the vector is the set of 0,...,length-1. *)
Definition check (base_check : Sol -> result unit * Sol) (s : Sol)
    : result unit * Sol :=
  let '(r, s') := base_check s in
  match r with
  | Ok _ =>
      if decide (x s' ⊆ seq 0 (length (x s')) /\ seq 0 (length (x s')) ⊆ x s')
      then (Ok tt, s') else (Raise ValueError, s')
  | Raise e => (Raise e, s')
  end.

(** [initialize]: shuffle the vector in place and invalidate. *)
Definition initialize (r : rng) (s : Sol) : Sol * rng :=
  let '(v, r') := shuffle (x s) r in (invalidate (set_x v s), r').
End SolutionBase.

(** ** Two-exchange neighbourhood search *)

Section TwoExchange.
Context {Obj Aux : Type}.
Local Abbreviation Sol := (Solution Obj Aux).

(** The collaborators of the search: the objective function of the
    subclass, the comparator of the base class and the delta-evaluation
    hook, called as [hook p1 p2 update_obj_val allow_infeasible]. *)
Variable calc_objective : Sol -> Obj.
Variable is_better_obj : Obj -> Obj -> bool.
Variable two_exchange_delta_eval : nat -> nat -> bool -> bool -> Sol -> bool * Sol.

(** The object under search together with the record of the hook
    invocations made so far, latest first: the two positions, the value of
    [update_obj_val] and the answer of the hook. *)
Record search_state : Type := mkSearch {
  sol : Sol;
  hook_calls : list (nat * nat * bool * bool)
}.

Definition call_hook (p1 p2 : nat) (update_obj_val : bool) (st : search_state)
    : bool * search_state :=
  let '(b, s') := two_exchange_delta_eval p1 p2 update_obj_val false (sol st) in
  (b, mkSearch s' ((p1, p2, update_obj_val, b) :: hook_calls st)).

Definition call_obj (st : search_state) : Obj * search_state :=
  let '(o, s') := obj calc_objective (sol st) in (o, mkSearch s' (hook_calls st)).

(** The local variables of the search that survive an iteration. *)
Record loop_state : Type := mkLoop {
  ls_state : search_state;
  best_obj : Obj;
  best_p1 : option nat;
  best_p2 : option nat
}.

Inductive step : Type :=
  | Continue (ls : loop_state)
  | Return (b : bool) (st : search_state)
  | Raised (e : exn) (st : search_state).

(** Lines 66-68: swap back, restore the cached objective, assert the hook. *)
Definition revert_swap (orig_obj : Obj) (p1 p2 : nat) (ls : loop_state) : step :=
  let st := ls_state ls in
  match swap_items (x (sol st)) p1 p2 with
  | None => Raised IndexError st
  | Some v =>
      let st1 := mkSearch (set_obj_val orig_obj (set_x v (sol st))) (hook_calls st) in
      let '(ok, st2) := call_hook p1 p2 false st1 in
      if ok then Continue (mkLoop st2 (best_obj ls) (best_p1 ls) (best_p2 ls))
      else Raised AssertionError st2
  end.

(** Lines 58-68: the body of the inner loop for the pair [(p1, p2)]. *)
Definition attempt (best_improvement : bool) (orig_obj : Obj)
    (p1 p2 : nat) (ls : loop_state) : step :=
  let st := ls_state ls in
  match swap_items (x (sol st)) p1 p2 with
  | None => Raised IndexError st
  | Some v =>
      let st1 := mkSearch (set_x v (sol st)) (hook_calls st) in
      let '(feasible, st2) := call_hook p1 p2 true st1 in
      if feasible then
        let '(o, st3) := call_obj st2 in
        if is_better_obj o (best_obj ls) then
          if negb best_improvement then Return true st3
          else
            let '(o', st4) := call_obj st3 in
            revert_swap orig_obj p1 p2 (mkLoop st4 o' (Some p1) (Some p2))
        else revert_swap orig_obj p1 p2 (mkLoop st3 (best_obj ls) (best_p1 ls) (best_p2 ls))
      else Continue (mkLoop st2 (best_obj ls) (best_p1 ls) (best_p2 ls))
  end.

(** [for p2 in order[idx + 1:]]. *)
Fixpoint inner_loop (best_improvement : bool) (orig_obj : Obj)
    (p1 : nat) (seconds : list nat) (ls : loop_state) : step :=
  match seconds with
  | [] => Continue ls
  | p2 :: rest =>
      match attempt best_improvement orig_obj p1 p2 ls with
      | Continue ls' => inner_loop best_improvement orig_obj p1 rest ls'
      | other => other
      end
  end.

(** [for idx, p1 in enumerate(order[:n - 1])]. *)
Fixpoint outer_loop (best_improvement : bool) (orig_obj : Obj)
    (order : list nat) (idx : nat) (firsts : list nat) (ls : loop_state) : step :=
  match firsts with
  | [] => Continue ls
  | p1 :: rest =>
      match inner_loop best_improvement orig_obj p1 (drop (idx + 1) order) ls with
      | Continue ls' => outer_loop best_improvement orig_obj order (S idx) rest ls'
      | other => other
      end
  end.

(** Truth value of [best_p1] in [if best_p1:]: [None] and the position 0 (a
    numpy integer) are both false. *)
Definition truthy (p : option nat) : bool :=
  match p with
  | Some (S _) => true
  | _ => false
  end.

(** Lines 69-74.  [best_p1] and [best_p2] are assigned together, so the
    branch with only one of them set is never taken. *)
Definition finish (orig_obj : Obj) (ls : loop_state) : result bool * search_state :=
  let st := ls_state ls in
  if truthy (best_p1 ls) then
    match best_p1 ls, best_p2 ls with
    | Some b1, Some b2 =>
        match swap_items (x (sol st)) b1 b2 with
        | None => (Raise IndexError, st)
        | Some v =>
            (Ok true, mkSearch (set_obj_val (best_obj ls) (set_x v (sol st))) (hook_calls st))
        end
    | _, _ => (Raise IndexError, st)
    end
  else (Ok false, mkSearch (set_obj_val orig_obj (sol st)) (hook_calls st)).

(** The search on the scan order [order]; [order[:n - 1]] is empty when
    [n] is 0, as the slice [[:-1]] of an empty array is. *)
Definition search_in_order (best_improvement : bool) (order : list nat)
    (st : search_state) : result bool * search_state :=
  let n := inst_n (sol st) in
  let '(orig_obj, st0) := call_obj st in
  match outer_loop best_improvement orig_obj order 0 (take (n - 1) order)
          (mkLoop st0 orig_obj None None) with
  | Continue ls => finish orig_obj ls
  | Return b st' => (Ok b, st')
  | Raised e st' => (Raise e, st')
  end.

Definition two_exchange_neighborhood_search (best_improvement : bool)
    (r : rng) (s : Sol) : result bool * search_state :=
  let '(order, _) := shuffle (seq 0 (inst_n s)) r in
  search_in_order best_improvement order (mkSearch s []).
End TwoExchange.

Arguments search_state : clear implicits.
Arguments loop_state : clear implicits.
Arguments step : clear implicits.

(** ** The store of solution objects *)

Section Store.
Context {Obj Aux : Type}.
Local Abbreviation Sol := (Solution Obj Aux).

(** A reference to a solution object. *)
Definition loc : Type := nat.

(** The objects allocated so far and the state of [random]. *)
Record world : Type := mkWorld {
  heap : list Sol;
  rand : rng
}.

(** Computations that read and write the store and may raise. *)
Definition M (A : Type) : Type := world -> result A * world.

#[export] Instance M_ret : MRet M := fun A a w => (Ok a, w).
#[export] Instance M_bind : MBind M := fun A B f m w =>
  match m w with
  | (Ok a, w') => f a w'
  | (Raise e, w') => (Raise e, w')
  end.

Definition lift {A} (r : result A) : M A := fun w => (r, w).

Definition with_rng {A} (f : rng -> result A * rng) : M A := fun w =>
  let '(a, r') := f (rand w) in (a, mkWorld (heap w) r').

Definition get_obj (l : loc) : M Sol := fun w =>
  (of_option NoSuchObject (heap w !! l), w).

Definition put_obj (l : loc) (s : Sol) : M unit := fun w =>
  (Ok tt, mkWorld (<[l := s]> (heap w)) (rand w)).

(** [obj.x] as a whole, [len(obj.x)], [obj.x[i]] and [obj.x[i] = v]. *)
Definition get_x (l : loc) : M (list nat) := s ← get_obj l; mret (x s).

Definition len_x (l : loc) : M nat := s ← get_obj l; mret (length (x s)).

Definition read_x (l : loc) (i : nat) : M nat :=
  s ← get_obj l; lift (of_option IndexError (x s !! i)).

Definition write_x (l : loc) (i v : nat) : M unit :=
  s ← get_obj l;
  if decide (i < length (x s)) then put_obj l (set_x (<[i := v]> (x s)) s)
  else lift (Raise IndexError).

(** [obj.x[-1] = v]. *)
Definition write_last (l : loc) (v : nat) : M unit :=
  s ← get_obj l;
  match length (x s) with
  | 0 => lift (Raise IndexError)
  | S m => put_obj l (set_x (<[m := v]> (x s)) s)
  end.

Definition invalidate_at (l : loc) : M unit :=
  s ← get_obj l; put_obj l (invalidate s).

(** Modelled from the spec: [copy] of the vector-solution base, which
    duplicates the sequence and the cached objective state into a new object
    that shares nothing with the original. *)
Definition copy (l : loc) : M loc := fun w =>
  match heap w !! l with
  | Some s => (Ok (length (heap w)), mkWorld (heap w ++ [s]) (rand w))
  | None => (Raise NoSuchObject, w)
  end.
End Store.

Arguments world : clear implicits.
Arguments M : clear implicits.

(** [for a in l: s = body a s], in any of the monads above. *)
Fixpoint for_each {T : Type -> Type} `{!MBind T, !MRet T} {A S : Type}
    (l : list A) (body : A -> S -> T S) (s : S) : T S :=
  match l with
  | [] => mret s
  | a :: l' => s' ← body a s; for_each l' body s'
  end.

Definition enumerate {A} (l : list A) : list (nat * A) := zip (seq 0 (length l)) l.

(** ** Local arrays and lists of the operators *)

(** [numpy.empty(size, int)]: the cells hold whatever [uninit] says. *)
Definition np_empty (uninit : nat -> nat) (size : nat) : list nat :=
  map uninit (seq 0 size).

Definition get_item {A} (l : list A) (i : nat) : result A :=
  of_option IndexError (l !! i).

Definition set_item {A} (l : list A) (i : nat) (v : A) : result (list A) :=
  if decide (i < length l) then Ok (<[i := v]> l) else Raise IndexError.

(** [for i, elem in enumerate(v): pos[elem] = i]. *)
Definition build_pos (v : list nat) (pos : list nat) : result (list nat) :=
  for_each (enumerate v) (fun '(i, elem) pos => set_item pos elem i) pos.

(** [list.remove(e)]: drops the first occurrence, [ValueError] without one. *)
Fixpoint remove_first (e : nat) (l : list nat) : list nat :=
  match l with
  | [] => []
  | a :: l' => if decide (a = e) then l' else a :: remove_first e l'
  end.

Definition list_remove (l : list nat) (e : nat) : result (list nat) :=
  if decide (e ∈ l) then Ok (remove_first e l) else Raise ValueError.

(** [set.remove(e)] on a set kept as a duplicate-free list. *)
Definition set_remove (u : list nat) (e : nat) : result (list nat) :=
  if decide (e ∈ u) then Ok (remove_first e u) else Raise KeyError.

(** ** Crossover operators *)

Section Crossover.
Context {Obj Aux : Type}.
Local Abbreviation Sol := (Solution Obj Aux).
Local Abbreviation St := (M Obj Aux).

(** The contents of freshly allocated numpy cells. *)
Variable uninit : nat -> nat.

(** *** Partially mapped crossover *)

(** Lines 106-111: the two cut points of the window, from the two draws. *)
Definition order_cuts (d1 d2 : nat) : nat * nat :=
  let begin_ := d1 in
  let end_ := d2 in
  let end_ := if decide (begin_ = end_) then end_ + 1 else end_ in
  if decide (end_ < begin_) then (end_, begin_) else (begin_, end_).

Definition draw_begin (size : nat) : St nat := with_rng (randrange size).

Definition draw_end (size : nat) : St nat := with_rng (randrange (size - 1)).

Definition pmx_cut_points (size : nat) : St (nat * nat) :=
  d1 ← draw_begin size;
  d2 ← draw_end size;
  mret (order_cuts d1 d2).

(** Lines 120-125: one round of the exchange loop. *)
Definition pmx_step (child other : loc) (i : nat) (pos : list nat) : St (list nat) :=
  elem ← read_x other i;
  j ← lift (get_item pos elem);
  if decide (i = j) then mret pos
  else
    elem_2 ← read_x child i;
    write_x child i elem;;
    write_x child j elem_2;;
    pos ← lift (set_item pos elem i);
    lift (set_item pos elem_2 j).

Definition partially_mapped_crossover (self other : loc) : St loc :=
  size ← len_x self;
  '(begin_, end_) ← pmx_cut_points size;
  child ← copy self;
  cx ← get_x child;
  pos ← lift (build_pos cx (np_empty uninit size));
  for_each (seq begin_ (end_ - begin_)) (pmx_step child other) pos;;
  invalidate_at child;;
  mret child.

(** *** Cycle crossover *)

(** Lines 149-152: [while not group[j]: ...], at most one round per cell of
    [group] since every round fills an empty cell. *)
Fixpoint walk_cycle (fuel : nat) (other : loc) (pos : list nat)
    (group_id : nat) (j : nat) (group : list nat) : St (list nat) :=
  g ← lift (get_item group j);
  if decide (g = 0) then
    match fuel with
    | 0 => lift (Raise OutOfFuel)
    | S fuel' =>
        group ← lift (set_item group j group_id);
        elem ← read_x other j;
        j' ← lift (get_item pos elem);
        walk_cycle fuel' other pos group_id j' group
    end
  else mret group.

(** Lines 143-153: the cycle id of every index. *)
Definition detect_cycles (other : loc) (pos : list nat) (size : nat) : St (list nat) :=
  '(group, _) ← for_each (seq 0 size) (fun i '(group, group_id) =>
      g ← lift (get_item group i);
      if decide (g = 0) then
        group ← walk_cycle size other pos group_id i group;
        mret (group, group_id + 1)
      else mret (group, group_id))
    (replicate size 0, 1);
  mret group.

(** [obj.x[idx]] with an index array: the selected cells, as a new array. *)
Definition fancy_read (l : loc) (idx : list nat) : St (list nat) :=
  s ← get_obj l;
  lift (for_each idx (fun k acc => v ← get_item (x s) k; Ok (acc ++ [v])) []).

(** [obj.x[idx] = vals] with an index array: cell [idx[k]] receives [vals[k]]. *)
Definition fancy_write (l : loc) (idx vals : list nat) : St unit :=
  for_each (zip idx vals) (fun '(k, v) _ => write_x l k v) tt.

(** Lines 157-159: one round of the exchange loop. *)
Definition cx_step (child other : loc) (pos : list nat) (i : nat) (_ : unit) : St unit :=
  v ← read_x child i;
  if decide (v mod 2 = 1) then
    vals ← fancy_read other pos;
    fancy_write child pos vals
  else mret tt.

Definition cycle_crossover (self other : loc) : St loc :=
  size ← len_x self;
  sx ← get_x self;
  pos ← lift (build_pos sx (np_empty uninit size));
  _ ← detect_cycles other pos size;
  child ← copy self;
  for_each (seq 0 size) (cx_step child other pos) tt;;
  invalidate_at child;;
  mret child.

(** *** Edge recombination *)

Definition append_if_not_contained (nbs : list nat) (nb : nat) : list nat :=
  if decide (nb ∈ nbs) then nbs else nbs ++ [nb].

(** [append_if_not_contained(adj_lists[elem], nb)]. *)
Definition adj_append (adj : list (list nat)) (elem nb : nat) : result (list (list nat)) :=
  nbs ← get_item adj elem;
  Ok (<[elem := append_if_not_contained nbs nb]> adj).

(** Lines 182-184 (and 185-187 for the other parent): every element receives
    its cyclic predecessor and successor in the parent [l]; [(i-1) % size] is
    [size - 1] at [i = 0]. *)
Definition add_neighbours (l : loc) (size : nat) (adj : list (list nat))
    : St (list (list nat)) :=
  v ← get_x l;
  for_each (enumerate v) (fun '(i, elem) adj =>
      _ ← lift (get_item adj elem);
      before ← read_x l ((i + size - 1) mod size);
      adj ← lift (adj_append adj elem before);
      after ← read_x l ((i + 1) mod size);
      lift (adj_append adj elem after))
    adj.

(** Lines 195-196: [for j in adj_lists[elem]: adj_lists[j].remove(elem)].  The
    iterator walks the live list by position [k]. *)
Fixpoint unlink (fuel k : nat) (elem : nat) (adj : list (list nat))
    : result (list (list nat)) :=
  nbs ← get_item adj elem;
  match nbs !! k with
  | None => Ok adj
  | Some j =>
      match fuel with
      | 0 => Raise OutOfFuel
      | S fuel' =>
          lj ← get_item adj j;
          lj' ← list_remove lj elem;
          unlink fuel' (S k) elem (<[j := lj']> adj)
      end
  end.

(** Lines 201-208: the neighbours of smallest degree; [degree] keeps the
    degree of the first neighbour throughout. *)
Definition select_candidates (adj : list (list nat)) (first : nat) (rest : list nat)
    : result (list nat) :=
  nbs_first ← get_item adj first;
  let degree := length nbs_first in
  for_each rest (fun e2 candidates =>
      nbs_e2 ← get_item adj e2;
      let degree_e2 := length nbs_e2 in
      if decide (degree_e2 < degree) then Ok [e2]
      else if decide (degree_e2 = degree) then Ok (candidates ++ [e2])
      else Ok candidates)
    [first].

(** The local variables of the main loop. *)
Record er_state : Type := mkEr {
  adj_lists : list (list nat);
  unvisited : list nat;
  elem : nat
}.

(** Lines 193-211: one round of the main loop. *)
Definition er_step (child : loc) (i : nat) (st : er_state) : St er_state :=
  write_x child i (elem st);;
  unv ← lift (set_remove (unvisited st) (elem st));
  nbs0 ← lift (get_item (adj_lists st) (elem st));
  adj ← lift (unlink (length nbs0) 0 (elem st) (adj_lists st));
  nbs ← lift (get_item adj (elem st));
  match nbs with
  | [] =>
      sel ← with_rng (choice unv);
      mret (mkEr adj unv sel)
  | first :: rest =>
      candidates ← lift (select_candidates adj first rest);
      sel ← with_rng (choice candidates);
      mret (mkEr (<[elem st := []]> adj) unv sel)
  end.

Definition edge_recombination (self other : loc) : St loc :=
  size ← len_x self;
  adj ← add_neighbours self size (replicate size []);
  adj ← add_neighbours other size adj;
  child ← copy self;
  start ← with_rng (randrange size);
  st ← for_each (seq 0 (size - 1)) (er_step child) (mkEr adj (seq 0 size) start);
  write_last child (elem st);;
  invalidate_at child;;
  mret child.
End Crossover.

(** ** Construction *)

(** [__init__]: the base class has allocated the vector of [base]; with
    [init] the slice assignment [self.x[:] = np.arange(length)] fills it
    with 0,...,length-1.  numpy broadcasts a one-element right-hand side
    over the whole slice and raises [ValueError] on any other mismatch of
    the two lengths. *)
Definition __init__ {Obj Aux} (length_ : nat) (init : bool)
    (base : Solution Obj Aux) : result (Solution Obj Aux) :=
  if init then
    if decide (length (x base) = length_) then Ok (set_x (seq 0 length_) base)
    else if decide (length_ = 1) then Ok (set_x (replicate (length (x base)) 0) base)
    else Raise ValueError
  else Ok base.

(** ** Predicates used in the statements *)

(** No revert call (update_obj_val = False) of the record was answered false. *)
Definition reverts_fine (c : list (nat * nat * bool * bool)) : Prop :=
  forall p1 p2, (p1, p2, false, false) ∉ c.

(** A failed revert call is the last thing a run did, and the run raised. *)
Definition asserted {Obj Aux} (r : step Obj Aux) : Prop :=
  match r with
  | Continue ls => reverts_fine (hook_calls (ls_state ls))
  | Return _ st => reverts_fine (hook_calls st)
  | Raised e st =>
      reverts_fine (hook_calls st)
      \/ (e = AssertionError
          /\ exists p1 p2 c, hook_calls st = (p1, p2, false, false) :: c /\ reverts_fine c)
  end.

(** [m] keeps the property [H] of the store, whether it returns or raises. *)
Definition preserves {Obj Aux A} (H : list (Solution Obj Aux) -> Prop)
    (m : M Obj Aux A) : Prop :=
  forall w, H (heap w) -> H (heap (m w).2).

(** The store [h0] with one more object allocated behind it. *)
Definition with_child {Obj Aux} (h0 h : list (Solution Obj Aux)) : Prop :=
  exists c, h = h0 ++ [c].

(** The sequence of the child an operator returned, if it returned one. *)
Definition child_x {Obj Aux} (r : result loc * world Obj Aux) : option (list nat) :=
  match r with
  | (Ok child, w) => x <$> heap w !! child
  | (Raise _, _) => None
  end.

(** Stated from the spec (section 4.5, step 3), for comparison with the code:
    the child carries the first parent's value at the indices whose cycle id
    has the kept parity and the other parent's value at the other indices. *)
Definition exchange_by_cycle_parity (keep_odd : bool)
    (group first other : list nat) : list nat :=
  map (fun '(g, (a, b)) => if Bool.eqb (Nat.odd g) keep_odd then a else b)
      (zip group (zip first other)).

(** The adjacency lists during the main loop of the edge recombination, as a
    function of the lists [orig] built from the parents and of the elements
    not yet visited: a visited element has an empty list, an unvisited one
    keeps its unvisited neighbours. *)
Definition adj_of (orig : list (list nat)) (unv : list nat) : list (list nat) :=
  imap (fun v nbs => if decide (v ∈ unv) then filter (.∈ unv) nbs else []) orig.

(** Adjacency lists over [n] elements: duplicate-free, symmetric, and no
    element is its own neighbour. *)
Definition wf_adj (n : nat) (orig : list (list nat)) : Prop :=
  length orig = n
  /\ forall v nbs, orig !! v = Some nbs ->
       NoDup nbs
       /\ forall u, u ∈ nbs -> u <> v /\ exists nbu, orig !! u = Some nbu /\ v ∈ nbu.

(** [c] is the tour [p] read from some position on, forwards or backwards. *)
Definition same_tour (p c : list nat) : Prop :=
  exists k, k < length p
    /\ (c = drop k p ++ take k p \/ c = drop k (reverse p) ++ take k (reverse p)).

(** [v] is a permutation of 0,...,n-1. *)
Definition is_perm (n : nat) (v : list nat) : Prop := v ≡ₚ seq 0 n.

(** The runs the main loop of the edge recombination can take over the lists
    [orig]: from the unvisited set [unv] and the current element [elem], the
    elements [vis] are placed in turn, each successor taken among the
    unvisited neighbours of its predecessor when there are any and among all
    unvisited elements otherwise. *)
Inductive er_path (orig : list (list nat))
    : list nat -> nat -> list nat -> list nat -> nat -> Prop :=
  | er_path_stop unv elem : er_path orig unv elem [] unv elem
  | er_path_move unv elem sel vis unv' elem' :
      sel ∈ remove_first elem unv ->
      (forall nbs, orig !! elem = Some nbs ->
         filter (.∈ unv) nbs <> [] -> sel ∈ filter (.∈ unv) nbs) ->
      er_path orig (remove_first elem unv) sel vis unv' elem' ->
      er_path orig unv elem (elem :: vis) unv' elem'.

(** [u] is next to [e] in the tour [p] read cyclically, on either side. *)
Definition cyc_nb (p : list nat) (e u : nat) : Prop :=
  exists i, p !! i = Some e
    /\ (p !! ((i + length p - 1) mod length p) = Some u
        \/ p !! ((i + 1) mod length p) = Some u).

(** [nbs] with [a] and then [b] appended unless contained. *)
Definition add_two (nbs : list nat) (a b : nat) : list nat :=
  append_if_not_contained (append_if_not_contained nbs a) b.

(** [orig] lists, without duplicates, the cyclic neighbours every element has
    in the tour [p] or in the tour [q]. *)
Definition adj_from (p q : list nat) (orig : list (list nat)) : Prop :=
  length orig = length p
  /\ forall e nbs, orig !! e = Some nbs ->
       NoDup nbs /\ forall u, u ∈ nbs <-> cyc_nb p e u \/ cyc_nb q e u.

(** The solution object as an iteration of the search leaves it. *)
Definition step_sol {Obj Aux} (r : step Obj Aux) : Solution Obj Aux :=
  match r with
  | Continue ls => sol (ls_state ls)
  | Return _ st => sol st
  | Raised _ st => sol st
  end.

(** [pos] maps every value of [v] to its position. *)
Definition inverse_of (pos v : list nat) : Prop :=
  forall k e, v !! k = Some e -> pos !! e = Some k.

(** What the exchange loop keeps true of the child's vector and of [pos]. *)
Definition pmx_inv (n : nat) (v pos : list nat) : Prop :=
  length v = n /\ length pos = n /\ (forall e, e ∈ v -> e < n) /\ inverse_of pos v.

(** The number of cells of [group] not yet assigned to a cycle. *)
Definition unassigned (group : list nat) : nat :=
  length (filter (fun g => g = 0) group).

(** A hook that finds every move feasible and leaves the vector alone, as
    the hook of the class does. *)
Definition steady {Obj Aux}
    (hook : nat -> nat -> bool -> bool -> Solution Obj Aux -> bool * Solution Obj Aux)
    : Prop :=
  forall p1 p2 u a s, (hook p1 p2 u a s).1 = true /\ x (hook p1 p2 u a s).2 = x s.

(** Records of hook calls (latest first) in which every revert call follows
    the accepted tentative call for the same pair, and every accepted
    tentative call is followed by its revert call. *)
Inductive paired : list (nat * nat * bool * bool) -> Prop :=
  | paired_nil : paired []
  | paired_rejected p1 p2 c :
      paired c -> paired ((p1, p2, true, false) :: c)
  | paired_reverted p1 p2 b c :
      paired c -> paired ((p1, p2, false, b) :: (p1, p2, true, true) :: c).

(** The pairs (earlier, later) of a scan order, in the order of the scan. *)
Fixpoint all_pairs (order : list nat) : list (nat * nat) :=
  match order with
  | [] => []
  | p1 :: rest => map (pair p1) rest ++ all_pairs rest
  end.

(** The two hook calls of an attempt that is accepted and reverted. *)
Definition both_calls (p : nat * nat) : list (nat * nat * bool * bool) :=
  [(p.1, p.2, true, true); (p.1, p.2, false, true)].

(** What an iteration of the search hands on, in terms of the objective
    [orig] measured at the start: outside best-improvement mode nothing is
    ever recorded, and the only early exit is the one that adopts a better
    neighbour. *)
Definition exits_better {Obj Aux} (is_better_obj : Obj -> Obj -> bool)
    (bi : bool) (orig : Obj) (r : step Obj Aux) : Prop :=
  match r with
  | Continue ls => bi = false -> best_obj ls = orig /\ best_p1 ls = None
  | Return b st =>
      b = true /\ (bi = false -> is_better_obj (obj_val (sol st)) orig = true)
  | Raised _ _ => True
  end.

(** The record either is paired, or is paired up to an accepted tentative
    call at its head that has not been reverted. *)
Definition open_or_paired (c : list (nat * nat * bool * bool)) : Prop :=
  paired c \/ exists p1 p2 c', c = (p1, p2, true, true) :: c' /\ paired c'.

Definition calls_paired {Obj Aux} (r : step Obj Aux) : Prop :=
  match r with
  | Continue ls => paired (hook_calls (ls_state ls))
  | Return _ st => open_or_paired (hook_calls st)
  | Raised _ st => open_or_paired (hook_calls st)
  end.

(** The recorded best pair, if any, is a pair of two different positions
    inside a vector of [n] cells. *)
Definition recorded_in_range {Obj Aux} (n : nat) (ls : loop_state Obj Aux) : Prop :=
  match best_p1 ls, best_p2 ls with
  | None, None => True
  | Some b1, Some b2 => b1 < n /\ b2 < n /\ b1 <> b2
  | _, _ => False
  end.

(** With a steady hook, what an iteration hands on for the vector [x0] the
    search started from: the scan goes on from [x0] itself, an early exit
    leaves the exchange of two different positions applied, and nothing is
    raised. *)
Definition one_exchange_away {Obj Aux} (x0 : list nat) (r : step Obj Aux) : Prop :=
  match r with
  | Continue ls => x (sol (ls_state ls)) = x0 /\ recorded_in_range (length x0) ls
  | Return b st =>
      b = true
      /\ exists p1 p2, p1 <> p2 /\ swap_items x0 p1 p2 = Some (x (sol st))
  | Raised _ _ => False
  end.

(** The first pair of [pairs] whose exchange in [x0] has an objective better
    than [orig], with the exchanged vector; [f] is the objective as a
    function of the vector. *)
Fixpoint first_improving {Obj} (f : list nat -> Obj) (is_better_obj : Obj -> Obj -> bool)
    (x0 : list nat) (orig : Obj) (pairs : list (nat * nat))
    : option (nat * nat * list nat) :=
  match pairs with
  | [] => None
  | (p1, p2) :: rest =>
      match swap_items x0 p1 p2 with
      | Some v =>
          if is_better_obj (f v) orig then Some (p1, p2, v)
          else first_improving f is_better_obj x0 orig rest
      | None => first_improving f is_better_obj x0 orig rest
      end
  end.

(** The search is at the vector [x0] with a valid cache, and what it has
    recorded as best is the objective of an exchange in [x0], or [orig]
    with no pair recorded. *)
Definition best_recorded {Obj Aux} (f : list nat -> Obj) (x0 : list nat) (orig : Obj)
    (ls : loop_state Obj Aux) : Prop :=
  x (sol (ls_state ls)) = x0
  /\ obj_val_valid (sol (ls_state ls)) = true
  /\ match best_p1 ls, best_p2 ls with
     | None, None => best_obj ls = orig
     | Some b1, Some b2 =>
         exists v, swap_items x0 b1 b2 = Some v /\ best_obj ls = f v
     | _, _ => False
     end.

(** The cached objective is valid and is the objective of the vector. *)
Definition cache_right {Obj Aux} (f : list nat -> Obj) (s : Solution Obj Aux) : Prop :=
  obj_val_valid s = true /\ obj_val s = f (x s).

(** An iteration hands on a loop state with [P], or leaves the search in a
    way [Q] allows. *)
Definition hands_on {Obj Aux} (P : loop_state Obj Aux -> Prop)
    (Q : step Obj Aux -> Prop) (r : step Obj Aux) : Prop :=
  match r with
  | Continue ls => P ls
  | other => Q other
  end.

(** The only way out of the loops is an early return with a right cache. *)
Definition exits_cache_right {Obj Aux} (f : list nat -> Obj) (r : step Obj Aux) : Prop :=
  match r with
  | Return _ st => cache_right f (sol st)
  | _ => False
  end.

(** The first-improvement scan is at [x0] and has recorded nothing. *)
Definition scanning {Obj Aux} (x0 : list nat) (orig : Obj)
    (ls : loop_state Obj Aux) : Prop :=
  x (sol (ls_state ls)) = x0 /\ best_obj ls = orig /\ best_p1 ls = None.

(** The scan of [pairs] returned at the first improving pair with its
    exchange applied, or went through without one. *)
Definition first_found {Obj Aux} (f : list nat -> Obj) (is_better_obj : Obj -> Obj -> bool)
    (x0 : list nat) (orig : Obj) (pairs : list (nat * nat)) (r : step Obj Aux) : Prop :=
  match first_improving f is_better_obj x0 orig pairs with
  | Some (_, _, v) =>
      exists st, r = Return true st /\ x (sol st) = v /\ cache_right f (sol st)
  | None => exists ls', r = Continue ls' /\ scanning x0 orig ls'
  end.

(** ** Concrete inputs *)

Module Examples.
(** A solution over [nat] objectives with nothing beside the base attributes,
    as a test subclass would have it. *)
Definition solution_of (v : list nat) : Solution nat unit :=
  mkSolution v 0 false (length v) tt.

(** The objective "entry at position 0", to be minimised. *)
Definition first_entry (s : Solution nat unit) : nat := hd 0 (x s).


(** A hook override that accepts every move and fails on every revert. *)
Definition one_way_hook (p1 p2 : nat) (update_obj_val allow_infeasible : bool)
    (s : Solution nat unit) : bool * Solution nat unit := (update_obj_val, s).

(** A check of the base class that recomputes a cached objective and
    raises [ValueError] when the cache held another value. *)
Definition cache_check (s : Solution nat unit) : result unit * Solution nat unit :=
  if obj_val_valid s then
    (if decide (obj_val s = first_entry s) then Ok tt else Raise ValueError,
     mkSolution (x s) (first_entry s) true (inst_n s) tt)
  else (Ok tt, s).

(** Two parents in a store, with a generator that always draws [d]. *)
Definition store_of (a b : list nat) (d : nat) : world nat unit :=
  mkWorld [solution_of a; solution_of b] (fun _ => d).
End Examples.

(** * Properties *)

(** ** The two-exchange search *)

Lemma swap_items_back (l v : list nat) (p1 p2 : nat) :
  swap_items l p1 p2 = Some v -> swap_items v p1 p2 = Some l.
Proof.
  unfold swap_items. intros Hswap.
  destruct (l !! p2) as [v2|] eqn:H2; [|discriminate].
  destruct (l !! p1) as [v1|] eqn:H1; [|discriminate].
  simpl in Hswap. injection Hswap as <-.
  pose proof (lookup_lt_Some _ _ _ H1) as L1.
  pose proof (lookup_lt_Some _ _ _ H2) as L2.
  destruct (decide (p1 = p2)) as [->|Hne].
  - assert (v1 = v2) by congruence. subst v2.
    rewrite list_lookup_insert_eq by (rewrite length_insert; lia). simpl.
    rewrite !list_insert_insert_eq.
    by rewrite list_insert_id.
  - rewrite list_lookup_insert_eq by (rewrite length_insert; lia). simpl.
    rewrite list_lookup_insert_ne by done.
    rewrite list_lookup_insert_eq by lia. simpl.
    rewrite (list_insert_insert_ne _ p1 p2 v1 v1) by done.
    rewrite !list_insert_insert_eq.
    rewrite (list_insert_id _ p1 v1) by done.
    by rewrite list_insert_id.
Qed.


Section TwoExchangeFacts.
Context {Obj Aux : Type}.
Local Abbreviation Sol := (Solution Obj Aux).
Variable calc_objective : Sol -> Obj.
Variable is_better_obj : Obj -> Obj -> bool.
Variable hook : nat -> nat -> bool -> bool -> Sol -> bool * Sol.

Local Abbreviation attempt' := (attempt calc_objective is_better_obj hook).
Local Abbreviation revert' := (revert_swap hook).
Local Abbreviation inner' := (inner_loop calc_objective is_better_obj hook).
Local Abbreviation outer' := (outer_loop calc_objective is_better_obj hook).
Local Abbreviation search' := (two_exchange_neighborhood_search calc_objective is_better_obj hook).

Lemma call_obj_x (st : search_state Obj Aux) :
  x (sol (call_obj calc_objective st).2) = x (sol st)
  /\ hook_calls (call_obj calc_objective st).2 = hook_calls st
  /\ inst_n (sol (call_obj calc_objective st).2) = inst_n (sol st).
Proof.
  unfold call_obj, obj. destruct st as [s c]; simpl.
  destruct (obj_val_valid s); simpl; auto.
Qed.

Lemma shuffle_short {A} (l : list A) (r : rng) :
  length l < 2 -> shuffle l r = (l, r).
Proof.
  intros H. unfold shuffle.
  replace (length l - 1) with 0 by lia. reflexivity.
Qed.

(** C6: with fewer than two positions the search answers false in either
    mode, calls the hook not once and leaves the sequence as it was. *)
Theorem search_without_pairs (best_improvement : bool) (r : rng) (s : Sol) :
  inst_n s < 2 ->
  exists st,
    search' best_improvement r s = (Ok false, st)
    /\ hook_calls st = []
    /\ x (sol st) = x s.
Proof.
  intros Hn. unfold two_exchange_neighborhood_search.
  rewrite shuffle_short by (rewrite length_seq; exact Hn).
  unfold search_in_order.
  destruct (call_obj calc_objective (mkSearch s [])) as [o st0] eqn:Hobj.
  pose proof (call_obj_x (mkSearch s [])) as (Hx & Hc & Hi).
  rewrite Hobj in Hx, Hc, Hi. simpl in Hx, Hc, Hi.
  simpl. replace (inst_n s - 1) with 0 by lia.
  rewrite take_0. simpl.
  eexists. split; [reflexivity|]. simpl. auto.
Qed.

(** *** Asserted revert calls *)

Lemma reverts_fine_cons p1 p2 u b c :
  reverts_fine c -> (u = true \/ b = true) -> reverts_fine ((p1, p2, u, b) :: c).
Proof.
  intros Hc Hub q1 q2 Hin. apply elem_of_cons in Hin as [Heq|Hin].
  - inversion Heq; subst. destruct Hub; discriminate.
  - exact (Hc _ _ Hin).
Qed.

Lemma revert_asserted orig p1 p2 ls :
  reverts_fine (hook_calls (ls_state ls)) -> asserted (revert' orig p1 p2 ls).
Proof.
  intros Hc. unfold revert_swap.
  destruct (swap_items _ p1 p2) as [v|]; simpl; [|by left].
  unfold call_hook; simpl.
  destruct (hook p1 p2 false false _) as [[] s']; simpl.
  - apply reverts_fine_cons; auto.
  - right. split; [done|]. by exists p1, p2, (hook_calls (ls_state ls)).
Qed.

Lemma attempt_asserted bi orig p1 p2 ls :
  reverts_fine (hook_calls (ls_state ls)) -> asserted (attempt' bi orig p1 p2 ls).
Proof.
  intros Hc. unfold attempt.
  destruct (swap_items _ p1 p2) as [v|]; simpl; [|by left].
  unfold call_hook; simpl.
  destruct (hook p1 p2 true false _) as [feasible s2]; simpl.
  assert (Hc2 : reverts_fine ((p1, p2, true, feasible) :: hook_calls (ls_state ls)))
    by (apply reverts_fine_cons; auto).
  destruct feasible; [|exact Hc2].
  destruct (call_obj _ _) as [o st3] eqn:H3.
  pose proof (call_obj_x (mkSearch s2 ((p1, p2, true, true) :: hook_calls (ls_state ls))))
    as (_ & Hl3 & _).
  rewrite H3 in Hl3; simpl in Hl3.
  destruct (is_better_obj o _).
  - destruct bi; simpl.
    + destruct (call_obj _ st3) as [o' st4] eqn:H4.
      pose proof (call_obj_x st3) as (_ & Hl4 & _). rewrite H4 in Hl4; simpl in Hl4.
      apply revert_asserted; simpl. by rewrite Hl4, Hl3.
    + by rewrite Hl3.
  - apply revert_asserted; simpl. by rewrite Hl3.
Qed.

Lemma inner_asserted bi orig p1 seconds ls :
  reverts_fine (hook_calls (ls_state ls)) -> asserted (inner' bi orig p1 seconds ls).
Proof.
  revert ls. induction seconds as [|p2 rest IH]; intros ls Hc; simpl; [done|].
  pose proof (attempt_asserted bi orig p1 p2 ls Hc) as Ha.
  destruct (attempt' bi orig p1 p2 ls); auto.
Qed.

Lemma outer_asserted bi orig order idx firsts ls :
  reverts_fine (hook_calls (ls_state ls)) ->
  asserted (outer' bi orig order idx firsts ls).
Proof.
  revert idx ls. induction firsts as [|p1 rest IH]; intros idx ls Hc; simpl; [done|].
  pose proof (inner_asserted bi orig p1 (drop (idx + 1) order) ls Hc) as Ha.
  destruct (inner' bi orig p1 _ ls); auto.
Qed.

(** C10: a revert call of the hook that answers false makes the search raise
    [AssertionError] on the spot: the failed call is the last the run made. *)
Theorem failed_revert_raises (best_improvement : bool) (r : rng) (s : Sol)
    (res : result bool) (st : search_state Obj Aux) (p1 p2 : nat) :
  search' best_improvement r s = (res, st) ->
  (p1, p2, false, false) ∈ hook_calls st ->
  res = Raise AssertionError
  /\ exists c, hook_calls st = (p1, p2, false, false) :: c.
Proof.
  unfold two_exchange_neighborhood_search, search_in_order.
  destruct (shuffle _ r) as [order r']. simpl.
  destruct (call_obj _ _) as [orig st0] eqn:H0.
  pose proof (call_obj_x (mkSearch s [])) as (_ & Hl0 & _).
  rewrite H0 in Hl0; simpl in Hl0.
  assert (Hc0 : reverts_fine (hook_calls st0)).
  { rewrite Hl0. intros q1 q2 Hin. by apply elem_of_nil in Hin. }
  pose proof (outer_asserted best_improvement orig order 0
                (take (inst_n s - 1) order) (mkLoop st0 orig None None) Hc0) as Ha.
  destruct (outer' _ _ _ _ _ _) as [ls|b st'|e st']; simpl in Ha.
  - unfold finish. intros Hres Hin. exfalso.
    destruct (truthy (best_p1 ls)).
    + destruct (best_p1 ls), (best_p2 ls);
        try (inversion Hres; subst; exact (Ha _ _ Hin)).
      destruct (swap_items _ _ _); inversion Hres; subst; exact (Ha _ _ Hin).
    + inversion Hres; subst. exact (Ha _ _ Hin).
  - intros Hres Hin. inversion Hres; subst. destruct (Ha _ _ Hin).
  - intros Hres Hin. inversion Hres; subst.
    destruct Ha as [Ha|(-> & q1 & q2 & c & Hl & Hc)]; [destruct (Ha _ _ Hin)|].
    split; [done|]. rewrite Hl in Hin |- *.
    apply elem_of_cons in Hin as [Heq|Hin]; [|destruct (Hc _ _ Hin)].
    inversion Heq; subst. by exists c.
Qed.

(** *** The end of the scan *)

Lemma finish_without_best orig (ls : loop_state Obj Aux) :
  best_p1 ls = None ->
  finish orig ls
  = (Ok false, mkSearch (set_obj_val orig (sol (ls_state ls))) (hook_calls (ls_state ls))).
Proof. intros Hb. unfold finish. by rewrite Hb. Qed.

Lemma finish_with_best orig (ls : loop_state Obj Aux) b1 b2 v :
  best_p1 ls = Some (S b1) -> best_p2 ls = Some b2 ->
  swap_items (x (sol (ls_state ls))) (S b1) b2 = Some v ->
  finish orig ls
  = (Ok true,
     mkSearch (set_obj_val (best_obj ls) (set_x v (sol (ls_state ls))))
       (hook_calls (ls_state ls))).
Proof. intros H1 H2 Hswap. unfold finish. rewrite H1, H2. simpl. by rewrite Hswap. Qed.

Lemma finish_drops_position_zero orig (ls : loop_state Obj Aux) b2 :
  best_p1 ls = Some 0 -> best_p2 ls = Some b2 ->
  finish orig ls
  = (Ok false, mkSearch (set_obj_val orig (sol (ls_state ls))) (hook_calls (ls_state ls))).
Proof. intros H1 H2. unfold finish. by rewrite H1. Qed.

(** *** What a rejected attempt leaves behind *)

End TwoExchangeFacts.

(** ** The search on concrete inputs *)

(** C4: on [[1; 0]] scanned in the order [[0; 1]], exchanging positions 0 and 1
    improves the objective and the pair (0, 1) is recorded as best; the final
    test [if best_p1:] reads the position 0 as false, so the search returns
    false with the sequence and objective it started from. *)
Theorem best_pair_at_position_zero_lost :
  shuffle (seq 0 2) (fun _ => 1) = ([0; 1], fun _ => 1)
  /\ (exists ls,
        outer_loop Examples.first_entry Nat.ltb default_delta_eval true 1 [0; 1] 0 [0]
          (mkLoop (mkSearch (mkSolution [1; 0] 1 true 2 tt) []) 1 None None)
        = Continue ls
        /\ best_p1 ls = Some 0 /\ best_p2 ls = Some 1 /\ best_obj ls = 0)
  /\ (exists st,
        two_exchange_neighborhood_search Examples.first_entry Nat.ltb
          default_delta_eval true (fun _ => 1) (Examples.solution_of [1; 0])
        = (Ok false, st)
        /\ x (sol st) = [1; 0] /\ obj_val (sol st) = 1).
Proof.
  split; [reflexivity|]. split; eexists; (split; [reflexivity|]); simpl; auto.
Qed.

Lemma search_without_pairs_witness :
  exists st,
    two_exchange_neighborhood_search Examples.first_entry Nat.ltb
      default_delta_eval true (fun _ => 0) (Examples.solution_of [0])
    = (Ok false, st)
    /\ hook_calls st = []
    /\ x (sol st) = [0].
Proof.
  apply (search_without_pairs Examples.first_entry Nat.ltb default_delta_eval
           true (fun _ => 0) (Examples.solution_of [0])).
  simpl. lia.
Defined.

Lemma failed_revert_raises_witness :
  Raise AssertionError = Raise (A := bool) AssertionError
  /\ exists c, [(0, 1, false, false); (0, 1, true, true)] = (0, 1, false, false) :: c.
Proof.
  apply (failed_revert_raises Examples.first_entry Nat.ltb Examples.one_way_hook
           true (fun _ => 1) (Examples.solution_of [1; 0])
           (Raise AssertionError)
           (mkSearch (mkSolution [1; 0] 1 true 2 tt)
              [(0, 1, false, false); (0, 1, true, true)])
           0 1).
  - reflexivity.
  - simpl. apply list_elem_of_here.
Defined.



(** ** Crossovers and the store *)

Section Frame.
Context {Obj Aux : Type}.
Local Abbreviation Sol := (Solution Obj Aux).
Local Abbreviation St := (M Obj Aux).
Implicit Types (H : list Sol -> Prop) (l child : loc).

Lemma preserves_bind {A B} H (m : St A) (f : A -> St B) :
  preserves H m -> (forall a, preserves H (f a)) -> preserves H (m ≫= f).
Proof.
  intros Hm Hf w Hw. specialize (Hm w Hw).
  unfold mbind, M_bind. destruct (m w) as [[a|e] w1]; simpl in *; [|done].
  by apply Hf.
Qed.

Lemma preserves_ret {A} H (a : A) : preserves H (mret a : St A).
Proof. by intros w Hw. Qed.

Lemma preserves_lift {A} H (r : result A) : preserves H (lift r : St A).
Proof. by intros w Hw. Qed.

Lemma preserves_with_rng {A} H (f : rng -> result A * rng) :
  preserves H (with_rng f : St A).
Proof. intros w Hw. unfold with_rng. by destruct (f (rand w)). Qed.

Lemma preserves_get_obj H l : preserves H (get_obj l : St Sol).
Proof. by intros w Hw. Qed.

Lemma preserves_for_each {A S} H (xs : list A) (body : A -> S -> St S) (s : S) :
  (forall a s', preserves H (body a s')) -> preserves H (for_each xs body s).
Proof.
  intros Hb. revert s. induction xs as [|a xs IH]; intros s; simpl.
  - apply preserves_ret.
  - apply preserves_bind; auto.
Qed.

Lemma with_child_put h0 h (s : Sol) :
  with_child h0 h -> with_child h0 (<[length h0 := s]> h).
Proof.
  intros [c ->]. exists s.
  rewrite insert_app_r_alt by lia. by rewrite Nat.sub_diag.
Qed.

Lemma preserves_put_obj h0 (s : Sol) :
  preserves (with_child h0) (put_obj (length h0) s).
Proof. intros w Hw. simpl. by apply with_child_put. Qed.
End Frame.

Create HintDb frame.

#[local] Hint Resolve preserves_ret preserves_lift preserves_with_rng
  preserves_get_obj preserves_put_obj : frame.

(** Splits a computation along its binds and branches until the store
    primitives are reached. *)
Ltac frame_steps :=
  repeat first
    [ progress auto with frame
    | apply preserves_bind; [|intros]
    | apply preserves_for_each; intros
    | progress cbv beta
    | match goal with
      | |- preserves _ (match ?t with _ => _ end) => destruct t
      | |- preserves _ (let '(_, _) := ?t in _) => destruct t
      | |- preserves _ ((let '(_, _) := ?t in _) _) => destruct t
      end ].

Section FrameOperators.
Context {Obj Aux : Type}.
Local Abbreviation Sol := (Solution Obj Aux).
Local Abbreviation St := (M Obj Aux).
Variable uninit : nat -> nat.
Implicit Types (H : list Sol -> Prop) (l : loc).

Lemma preserves_get_x H l : preserves H (get_x l : St _).
Proof. unfold get_x. frame_steps. Qed.

Lemma preserves_len_x H l : preserves H (len_x l : St _).
Proof. unfold len_x. frame_steps. Qed.

Lemma preserves_read_x H l i : preserves H (read_x l i : St _).
Proof. unfold read_x. frame_steps. Qed.

Lemma preserves_write_x h0 i v :
  preserves (with_child h0) (write_x (length h0) i v : St _).
Proof. unfold write_x. frame_steps. Qed.

Lemma preserves_write_last h0 v :
  preserves (with_child h0) (write_last (length h0) v : St _).
Proof. unfold write_last. frame_steps. Qed.

Lemma preserves_invalidate_at h0 :
  preserves (with_child h0) (invalidate_at (length h0) : St _).
Proof. unfold invalidate_at. frame_steps. Qed.

Hint Resolve preserves_get_x preserves_len_x preserves_read_x preserves_write_x
  preserves_write_last preserves_invalidate_at : frame.

Lemma preserves_walk_cycle H fuel other pos group_id j group :
  preserves H (walk_cycle fuel other pos group_id j group : St _).
Proof.
  revert j group. induction fuel as [|fuel IH]; intros j group; simpl; frame_steps.
Qed.

Hint Resolve preserves_walk_cycle : frame.

Lemma preserves_detect_cycles H other pos size :
  preserves H (detect_cycles other pos size : St _).
Proof. unfold detect_cycles. frame_steps. Qed.

Lemma preserves_add_neighbours H l size adj :
  preserves H (add_neighbours l size adj : St _).
Proof. unfold add_neighbours. frame_steps. Qed.

Lemma preserves_pmx_cut_points H size : preserves H (pmx_cut_points size : St _).
Proof. unfold pmx_cut_points, draw_begin, draw_end. frame_steps. Qed.

Lemma preserves_fancy_read H l idx : preserves H (fancy_read l idx : St _).
Proof. unfold fancy_read. frame_steps. Qed.

Hint Resolve preserves_detect_cycles preserves_add_neighbours
  preserves_pmx_cut_points preserves_fancy_read : frame.

(** Once the child is allocated, the rest of each operator writes to it only. *)
Lemma pmx_after_copy h0 other size begin_ end_ :
  preserves (with_child h0)
    (let child := length h0 in
     cx ← get_x child;
     pos ← lift (build_pos cx (np_empty uninit size));
     for_each (seq begin_ (end_ - begin_)) (pmx_step child other) pos;;
     invalidate_at child;;
     mret child : St loc).
Proof. simpl. unfold pmx_step. frame_steps. Qed.

Lemma cx_after_copy h0 other size pos :
  preserves (with_child h0)
    (let child := length h0 in
     for_each (seq 0 size) (cx_step child other pos) tt;;
     invalidate_at child;;
     mret child : St loc).
Proof. simpl. unfold cx_step, fancy_write. frame_steps. Qed.

Lemma er_after_copy h0 size adj :
  preserves (with_child h0)
    (let child := length h0 in
     start ← with_rng (randrange size);
     st ← for_each (seq 0 (size - 1)) (er_step child) (mkEr adj (seq 0 size) start);
     write_last child (elem st);;
     invalidate_at child;;
     mret child : St loc).
Proof. simpl. unfold er_step. frame_steps. Qed.

(** The step from the untouched store to the store with a child. *)
Lemma copy_then {A} h0 (self : loc) (k : loc -> St A) (w : world Obj Aux) :
  heap w = h0 ->
  preserves (with_child h0) (k (length h0)) ->
  heap ((copy self ≫= k) w).2 = h0 \/ with_child h0 (heap ((copy self ≫= k) w).2).
Proof.
  intros Hw Hk. unfold mbind, M_bind, copy.
  destruct (heap w !! self) as [s|] eqn:Hs; simpl; [|by left].
  right. rewrite Hw. apply Hk. simpl. by exists s.
Qed.

Lemma before_copy {A B} h0 (m : St A) (k : A -> St B) (w : world Obj Aux) :
  heap w = h0 ->
  preserves (fun h => h = h0) m ->
  (forall a w', heap w' = h0 ->
     heap (k a w').2 = h0 \/ with_child h0 (heap (k a w').2)) ->
  heap ((m ≫= k) w).2 = h0 \/ with_child h0 (heap ((m ≫= k) w).2).
Proof.
  intros Hw Hm Hk. specialize (Hm w Hw). unfold mbind, M_bind.
  destruct (m w) as [[a|e] w1]; simpl in *; [by apply Hk|by left].
Qed.

(** C7: each crossover leaves every object that was in the store before the
    call, both parents among them, exactly as it was; at most one object, the
    child, is added behind them, and all writes go to it.  This holds whether
    the operator returns or raises. *)
Theorem crossovers_keep_parents (self other : loc) (w : world Obj Aux) :
  let after (m : St loc) :=
    heap (m w).2 = heap w \/ with_child (heap w) (heap (m w).2) in
  after (partially_mapped_crossover uninit self other)
  /\ after (cycle_crossover uninit self other)
  /\ after (edge_recombination self other).
Proof.
  simpl. repeat split.
  - unfold partially_mapped_crossover.
    apply before_copy; [done|frame_steps|]. intros size w1 H1.
    apply before_copy; [done|frame_steps|]. intros [begin_ end_] w2 H2.
    apply copy_then; [done|]. apply pmx_after_copy.
  - unfold cycle_crossover.
    apply before_copy; [done|frame_steps|]. intros size w1 H1.
    apply before_copy; [done|frame_steps|]. intros sx w2 H2.
    apply before_copy; [done|frame_steps|]. intros pos w3 H3.
    apply before_copy; [done|frame_steps|]. intros g w4 H4.
    apply copy_then; [done|]. apply cx_after_copy.
  - unfold edge_recombination.
    apply before_copy; [done|frame_steps|]. intros size w1 H1.
    apply before_copy; [done|frame_steps|]. intros adj1 w2 H2.
    apply before_copy; [done|frame_steps|]. intros adj w3 H3.
    apply copy_then; [done|]. apply er_after_copy.
Qed.
End FrameOperators.

(** ** The cut points of the partially mapped crossover *)

Section CutPoints.
Context {Obj Aux : Type}.
Local Abbreviation St := (M Obj Aux).

Lemma order_cuts_same (d : nat) : order_cuts d d = (d, d + 1).
Proof.
  unfold order_cuts. cbv zeta. repeat case_decide; done || lia.
Qed.

Lemma order_cuts_window (size d1 d2 : nat) :
  d1 < size -> d2 < size - 1 ->
  (order_cuts d1 d2).1 < (order_cuts d1 d2).2 <= size - 1.
Proof.
  intros H1 H2. unfold order_cuts. cbv zeta.
  repeat case_decide; simpl; lia.
Qed.

Lemma randrange_run (k : nat) (r : rng) :
  0 < k -> randrange k r = (Ok (r 0 mod k), fun i => r (S i)).
Proof. intros Hk. destruct k; [lia|reflexivity]. Qed.

Lemma pmx_cut_points_run (size : nat) (w : world Obj Aux) :
  2 <= size ->
  pmx_cut_points size w
  = (Ok (order_cuts (rand w 0 mod size) (rand w 1 mod (size - 1))),
     mkWorld (heap w) (fun k => rand w (S (S k)))).
Proof.
  intros Hs. unfold pmx_cut_points, draw_begin, draw_end, mbind, M_bind, with_rng.
  rewrite randrange_run by lia. cbn [heap rand].
  rewrite randrange_run by lia. reflexivity.
Qed.

(** C8, as the code has it: the first cut point is drawn from [0, n) and the
    second from [0, n-1), every such pair of draws being attainable; on equal
    draws the second is incremented by one; after ordering the window
    satisfies begin < end <= n - 1. *)
Theorem pmx_cut_points_range (size : nat) :
  2 <= size ->
  (forall w : world Obj Aux,
     (pmx_cut_points size w).1
     = Ok (order_cuts (rand w 0 mod size) (rand w 1 mod (size - 1))))
  /\ (forall w : world Obj Aux, forall d1 d2,
        (draw_begin size w).1 = Ok d1 -> (draw_end size w).1 = Ok d2 ->
        d1 < size /\ d2 < size - 1)
  /\ (forall (h : list (Solution Obj Aux)) v1 v2,
        v1 < size -> v2 < size - 1 ->
        exists r,
          (draw_begin size (mkWorld h r)).1 = Ok v1
          /\ (draw_end size (draw_begin size (mkWorld h r)).2).1 = Ok v2
          /\ (pmx_cut_points size (mkWorld h r)).1 = Ok (order_cuts v1 v2))
  /\ (forall d, order_cuts d d = (d, d + 1))
  /\ (forall d1 d2, d1 < size -> d2 < size - 1 ->
        (order_cuts d1 d2).1 < (order_cuts d1 d2).2 <= size - 1).
Proof.
  intros Hs. split; [|split; [|split; [|split]]].
  - intros w. by rewrite pmx_cut_points_run.
  - intros w d1 d2. unfold draw_begin, draw_end, with_rng.
    rewrite !randrange_run by lia. cbn [fst].
    intros [= <-] [= <-]. split; apply Nat.mod_upper_bound; lia.
  - intros h v1 v2 H1 H2.
    exists (fun k => match k with 0 => v1 | _ => v2 end).
    rewrite pmx_cut_points_run by done.
    unfold draw_begin, draw_end, with_rng. cbn [heap rand].
    rewrite randrange_run by lia. cbn [fst snd heap rand].
    rewrite randrange_run by lia. cbn [fst snd heap rand].
    rewrite (Nat.mod_small v1) by lia. rewrite (Nat.mod_small v2) by lia. done.
  - apply order_cuts_same.
  - intros d1 d2. apply order_cuts_window.
Qed.
End CutPoints.

Lemma pmx_cut_points_range_witness :
  (order_cuts 1 0).1 < (order_cuts 1 0).2 <= 2 - 1.
Proof.
  destruct (pmx_cut_points_range (Obj := nat) (Aux := unit) 2 (le_n 2))
    as (_ & _ & _ & _ & Hwindow).
  apply Hwindow; simpl; lia.
Defined.

(** C8 as stated fails: with two positions the second draw is never 1, and
    the window is (0, 1) whatever the generator does. *)
Lemma second_cut_misses_last_position :
  (~ exists w : world nat unit, (draw_end 2 w).1 = Ok 1)
  /\ (forall w : world nat unit, (pmx_cut_points 2 w).1 = Ok (0, 1)).
Proof.
  split.
  - intros [w Hw]. unfold draw_end, with_rng in Hw. simpl in Hw. discriminate.
  - intros w. rewrite pmx_cut_points_run by lia. cbn [fst].
    change (2 - 1) with 1. rewrite Nat.mod_1_r.
    pose proof (Nat.mod_upper_bound (rand w 0) 2) as Hlt.
    destruct (rand w 0 `mod` 2) as [|[|m]]; [reflexivity|reflexivity|lia].
Qed.

(** ** Cycle crossover on the parents of the test file *)

(** C2: on the three parent pairs of the test the code returns a copy of the
    second parent, which is none of the three children the test expects. *)
Theorem cycle_crossover_on_test_parents (uninit : nat -> nat) :
  let p1 := [1; 4; 6; 2; 0; 3; 5] in
  let p2 := [6; 1; 4; 2; 5; 0; 3] in
  let p3 := [6; 1; 4; 0; 2; 5; 3] in
  child_x (cycle_crossover uninit 0 1 (Examples.store_of p1 p2 0)) = Some p2
  /\ p2 <> p1
  /\ child_x (cycle_crossover uninit 0 1 (Examples.store_of p1 p3 0)) = Some p3
  /\ p3 <> [1; 4; 6; 0; 2; 3; 5]
  /\ child_x (cycle_crossover uninit 0 1 (Examples.store_of p3 p1 0)) = Some p1
  /\ p1 <> [6; 1; 4; 2; 0; 5; 3].
Proof.
  cbv zeta.
  split; [vm_compute; reflexivity|]. split; [discriminate|].
  split; [vm_compute; reflexivity|]. split; [discriminate|].
  split; [vm_compute; reflexivity|]. discriminate.
Qed.

(** C3: the cycles of the two parents are found ([1; 1; 1; 2; 2; 3; 3]), but
    the child is the second parent at every index, which is what the spec asks
    for under neither assignment of parities to the parents. *)
Theorem cycle_child_ignores_cycles (uninit : nat -> nat) :
  let p1 := [1; 4; 6; 2; 0; 3; 5] in
  let p3 := [6; 1; 4; 0; 2; 5; 3] in
  let groups := [1; 1; 1; 2; 2; 3; 3] in
  (detect_cycles 1 [4; 0; 3; 5; 1; 6; 2] 7 (Examples.store_of p1 p3 0)).1 = Ok groups
  /\ child_x (cycle_crossover uninit 0 1 (Examples.store_of p1 p3 0)) = Some p3
  /\ exchange_by_cycle_parity true groups p1 p3 = [1; 4; 6; 0; 2; 3; 5]
  /\ exchange_by_cycle_parity false groups p1 p3 = [6; 1; 4; 2; 0; 5; 3]
  /\ forall keep_odd, p3 <> exchange_by_cycle_parity keep_odd groups p1 p3.
Proof.
  cbv zeta. repeat (split; [vm_compute; reflexivity|]).
  intros []; vm_compute; discriminate.
Qed.

(** ** Running the store primitives *)

Section StoreRuns.
Context {Obj Aux : Type}.
Local Abbreviation Sol := (Solution Obj Aux).
Local Abbreviation St := (M Obj Aux).
Implicit Types (w : world Obj Aux) (l : loc) (s : Sol).

Lemma bind_run {A B} (m : St A) (f : A -> St B) w a w' :
  m w = (Ok a, w') -> (m ≫= f) w = f a w'.
Proof. intros Hm. unfold mbind, M_bind. by rewrite Hm. Qed.

Lemma bind_raise {A B} (m : St A) (f : A -> St B) w e w' :
  m w = (Raise e, w') -> (m ≫= f) w = (Raise e, w').
Proof. intros Hm. unfold mbind, M_bind. by rewrite Hm. Qed.

Lemma get_obj_run l s w : heap w !! l = Some s -> get_obj l w = (Ok s, w).
Proof. intros Hl. unfold get_obj. by rewrite Hl. Qed.

Lemma get_x_run l s w : heap w !! l = Some s -> get_x l w = (Ok (x s), w).
Proof. intros Hl. unfold get_x. by rewrite (bind_run _ _ _ _ _ (get_obj_run _ _ _ Hl)). Qed.

Lemma len_x_run l s w : heap w !! l = Some s -> len_x l w = (Ok (length (x s)), w).
Proof. intros Hl. unfold len_x. by rewrite (bind_run _ _ _ _ _ (get_obj_run _ _ _ Hl)). Qed.

Lemma read_x_run l s i v w :
  heap w !! l = Some s -> x s !! i = Some v -> read_x l i w = (Ok v, w).
Proof.
  intros Hl Hi. unfold read_x.
  rewrite (bind_run _ _ _ _ _ (get_obj_run _ _ _ Hl)). unfold lift. by rewrite Hi.
Qed.

Lemma write_x_run l s i v w :
  heap w !! l = Some s -> i < length (x s) ->
  write_x l i v w = (Ok tt, mkWorld (<[l := set_x (<[i := v]> (x s)) s]> (heap w)) (rand w)).
Proof.
  intros Hl Hi. unfold write_x.
  rewrite (bind_run _ _ _ _ _ (get_obj_run _ _ _ Hl)). by rewrite decide_True.
Qed.

Lemma write_last_run l s v w :
  heap w !! l = Some s -> 0 < length (x s) ->
  write_last l v w
  = (Ok tt, mkWorld (<[l := set_x (<[length (x s) - 1 := v]> (x s)) s]> (heap w)) (rand w)).
Proof.
  intros Hl Hi. unfold write_last.
  rewrite (bind_run _ _ _ _ _ (get_obj_run _ _ _ Hl)).
  destruct (length (x s)) as [|m] eqn:Hm; [lia|].
  by replace (S m - 1) with m by lia.
Qed.

Lemma invalidate_at_run l s w :
  heap w !! l = Some s ->
  invalidate_at l w = (Ok tt, mkWorld (<[l := invalidate s]> (heap w)) (rand w)).
Proof.
  intros Hl. unfold invalidate_at.
  by rewrite (bind_run _ _ _ _ _ (get_obj_run _ _ _ Hl)).
Qed.

Lemma copy_run l s w :
  heap w !! l = Some s ->
  copy l w = (Ok (length (heap w)), mkWorld (heap w ++ [s]) (rand w)).
Proof. intros Hl. unfold copy. by rewrite Hl. Qed.

Lemma with_rng_run {A} (f : rng -> result A * rng) w a r' :
  f (rand w) = (a, r') -> with_rng f w = (a, mkWorld (heap w) r').
Proof. intros Hf. unfold with_rng. by rewrite Hf. Qed.
End StoreRuns.

(** ** Lists, and the adjacency lists of the edge recombination *)

Section ListFacts.
Implicit Types (l : list nat) (e : nat).

Lemma filter_all (P : nat -> Prop) `{!forall v, Decision (P v)} l :
  (forall v, v ∈ l -> P v) -> filter P l = l.
Proof.
  induction l as [|a l IH]; intros Hall; [done|].
  rewrite filter_cons_True by (apply Hall; left).
  f_equal. apply IH. intros v Hv. apply Hall. by right.
Qed.

Lemma filter_ext_in (P Q : nat -> Prop) `{!forall v, Decision (P v), !forall v, Decision (Q v)} l :
  (forall v, v ∈ l -> P v <-> Q v) -> filter P l = filter Q l.
Proof.
  induction l as [|a l IH]; intros Hall; [done|].
  rewrite !filter_cons.
  rewrite IH by (intros v Hv; apply Hall; by right).
  destruct (decide (P a)) as [Hp|Hp], (decide (Q a)) as [Hq|Hq]; try done.
  - destruct Hq. apply Hall; [left|done].
  - destruct Hp. apply Hall; [left|done].
Qed.

Lemma remove_first_filter e l :
  NoDup l -> remove_first e l = filter (fun v => v <> e) l.
Proof.
  induction 1 as [|a l Ha Hl IH]; simpl; [done|].
  destruct (decide (a = e)) as [->|Hne].
  - rewrite filter_cons_False by (intros ?; done).
    symmetry. apply filter_all. intros v Hv ->. done.
  - rewrite filter_cons_True by done. by rewrite IH.
Qed.

Lemma remove_first_notin e l : e ∉ l -> remove_first e l = l.
Proof.
  induction l as [|a l IH]; intros H; simpl; [done|].
  rewrite decide_False by (intros ->; apply H; left).
  f_equal. apply IH. intros Hin. apply H. by right.
Qed.

Lemma elem_of_remove_first e l v :
  NoDup l -> v ∈ remove_first e l <-> v ∈ l /\ v <> e.
Proof.
  intros Hl. rewrite remove_first_filter by done.
  rewrite list_elem_of_filter. tauto.
Qed.

Lemma NoDup_remove_first e l : NoDup l -> NoDup (remove_first e l).
Proof. intros Hl. rewrite remove_first_filter by done. by apply NoDup_filter. Qed.

Lemma remove_first_perm e l : e ∈ l -> l ≡ₚ e :: remove_first e l.
Proof.
  induction l as [|a l IH]; intros H; [by apply elem_of_nil in H|].
  simpl. destruct (decide (a = e)) as [->|Hne]; [done|].
  apply elem_of_cons in H as [->|H]; [done|].
  rewrite (IH H) at 1. apply Permutation_swap.
Qed.
End ListFacts.

Section Unlink.
Implicit Types (adj : list (list nat)) (elem : nat).

Lemma unlink_run (rest : list nat) : forall done adj elem fuel,
  adj !! elem = Some (done ++ rest) ->
  elem ∉ rest -> NoDup rest ->
  (forall j, j ∈ rest -> exists lj, adj !! j = Some lj /\ elem ∈ lj) ->
  length rest <= fuel ->
  exists adj',
    unlink fuel (length done) elem adj = Ok adj'
    /\ length adj' = length adj
    /\ forall v, adj' !! v
         = if decide (v ∈ rest) then remove_first elem <$> adj !! v else adj !! v.
Proof.
  induction rest as [|j rest IH]; intros done adj elem fuel Hadj Hne Hnd Hsym Hfuel.
  - exists adj. split; [|split; [done|]].
    + destruct fuel; simpl; unfold get_item; rewrite Hadj; simpl;
        rewrite app_nil_r, lookup_ge_None_2 by lia; done.
    + intros v. rewrite decide_False; [done|]. apply not_elem_of_nil.
  - destruct fuel as [|fuel]; [simpl in Hfuel; lia|].
    destruct (Hsym j) as (lj & Hlj & Hin); [left|].
    assert (Hje : j <> elem) by (intros ->; apply Hne; left).
    apply NoDup_cons in Hnd as [Hj Hnd].
    destruct (IH (done ++ [j]) (<[j := remove_first elem lj]> adj) elem fuel) as (adj' & Hrun & Hlen & Hlook).
    + rewrite list_lookup_insert_ne by done. by rewrite <- app_assoc.
    + intros H. apply Hne. by right.
    + done.
    + intros j' Hj'. destruct (Hsym j') as (lj' & Hlj' & Hin'); [by right|].
      exists lj'. split; [|done]. rewrite list_lookup_insert_ne; [done|].
      intros ->. done.
    + simpl in Hfuel. lia.
    + exists adj'. split; [|split].
      * simpl. unfold get_item. rewrite Hadj. simpl.
        rewrite lookup_app_r by lia. rewrite Nat.sub_diag. simpl.
        rewrite Hlj. simpl.
        unfold list_remove. rewrite decide_True by done. simpl.
        rewrite length_app in Hrun. simpl in Hrun.
        by replace (S (length done)) with (length done + 1) by lia.
      * by rewrite Hlen, length_insert.
      * intros v. rewrite Hlook.
        destruct (decide (v = j)) as [->|Hvj].
        -- rewrite decide_False by done. rewrite decide_True by left.
           rewrite list_lookup_insert_eq by (by eapply lookup_lt_Some).
           by rewrite Hlj.
        -- rewrite list_lookup_insert_ne by done.
           destruct (decide (v ∈ rest)) as [Hv|Hv].
           ++ rewrite decide_True by (by right). done.
           ++ rewrite decide_False; [done|]. intros [->|?]%elem_of_cons; done.
Qed.
End Unlink.

Section AdjOf.
Implicit Types (orig adj : list (list nat)) (unv : list nat) (elem : nat).

Lemma adj_of_lookup orig unv v :
  adj_of orig unv !! v
  = (fun nbs => if decide (v ∈ unv) then filter (.∈ unv) nbs else []) <$> orig !! v.
Proof. unfold adj_of. apply list_lookup_imap. Qed.

Lemma adj_of_length orig unv : length (adj_of orig unv) = length orig.
Proof. unfold adj_of. apply length_imap. Qed.

Lemma wf_adj_lt n orig v nbs u :
  wf_adj n orig -> orig !! v = Some nbs -> u ∈ nbs -> u < n /\ v < n.
Proof.
  intros [Hlen Hwf] Hv Hu. destruct (Hwf v nbs Hv) as [_ Hsym].
  destruct (Hsym u Hu) as (_ & nbu & Hnbu & _).
  apply lookup_lt_Some in Hnbu, Hv. lia.
Qed.

Lemma adj_of_full n orig : wf_adj n orig -> adj_of orig (seq 0 n) = orig.
Proof.
  intros Hwf. apply list_eq. intros v. rewrite adj_of_lookup.
  destruct (orig !! v) as [nbs|] eqn:Hv; simpl; [|done].
  f_equal. pose proof Hwf as [Hlen _].
  rewrite decide_True by (apply elem_of_seq; apply lookup_lt_Some in Hv; lia).
  apply filter_all. intros u Hu.
  destruct (wf_adj_lt n orig v nbs u Hwf Hv Hu). apply elem_of_seq. lia.
Qed.

Lemma er_pure_step n orig unv elem :
  wf_adj n orig -> NoDup unv -> elem ∈ unv -> (forall u, u ∈ unv -> u < n) ->
  exists nbs adj1,
    orig !! elem = Some nbs
    /\ get_item (adj_of orig unv) elem = Ok (filter (.∈ unv) nbs)
    /\ unlink (length (filter (.∈ unv) nbs)) 0 elem (adj_of orig unv) = Ok adj1
    /\ get_item adj1 elem = Ok (filter (.∈ unv) nbs)
    /\ (filter (.∈ unv) nbs = [] -> adj1 = adj_of orig (remove_first elem unv))
    /\ <[elem := []]> adj1 = adj_of orig (remove_first elem unv)
    /\ length adj1 = n.
Proof.
  intros Hwf Hnd Hin Hlt. pose proof Hwf as [Hlen Hw].
  destruct (lookup_lt_is_Some_2 orig elem) as [nbs Hnbs]; [rewrite Hlen; by apply Hlt|].
  destruct (Hw elem nbs Hnbs) as [Hndn Hsym].
  set (L := filter (.∈ unv) nbs).
  assert (Hget : adj_of orig unv !! elem = Some L).
  { rewrite adj_of_lookup, Hnbs. simpl. by rewrite decide_True. }
  destruct (unlink_run L [] (adj_of orig unv) elem (length L)) as (adj1 & Hrun & Hlen1 & Hlook).
  - done.
  - intros [_ Hn]%list_elem_of_filter. by destruct (Hsym elem Hn).
  - by apply NoDup_filter.
  - intros j [Hju Hjn]%list_elem_of_filter.
    destruct (Hsym j Hjn) as (_ & nbj & Hnbj & Hej).
    exists (filter (.∈ unv) nbj). split.
    + rewrite adj_of_lookup, Hnbj. simpl. by rewrite decide_True.
    + by apply list_elem_of_filter.
  - done.
  - assert (Hmain : forall v, v <> elem ->
        adj1 !! v = adj_of orig (remove_first elem unv) !! v).
    { intros v Hv. rewrite Hlook, !adj_of_lookup.
      destruct (orig !! v) as [nbv|] eqn:Hnbv; simpl; [|by case_decide].
      destruct (Hw v nbv Hnbv) as [Hndv Hsymv].
      destruct (decide (v ∈ unv)) as [Hvu|Hvu].
      - rewrite (decide_True (P := v ∈ remove_first elem unv))
          by (by apply elem_of_remove_first).
        assert (Hfilt : filter (.∈ remove_first elem unv) nbv
                        = filter (fun u => u <> elem) (filter (.∈ unv) nbv)).
        { rewrite list_filter_filter. apply filter_ext_in. intros u _.
          rewrite elem_of_remove_first by done. tauto. }
        destruct (decide (v ∈ L)) as [HvL|HvL]; simpl; f_equal.
        + rewrite Hfilt. apply remove_first_filter. by apply NoDup_filter.
        + rewrite Hfilt. symmetry. apply filter_all.
          intros u [_ Hu]%list_elem_of_filter ->.
          apply HvL. apply list_elem_of_filter. split; [done|].
          destruct (Hsymv elem Hu) as (_ & nbe & Hnbe & Hve). congruence.
      - rewrite (decide_False (P := v ∈ remove_first elem unv))
          by (rewrite elem_of_remove_first by done; tauto).
        rewrite decide_False; [done|].
        intros [? _]%list_elem_of_filter. done. }
    assert (Hnew : adj_of orig (remove_first elem unv) !! elem = Some []).
    { rewrite adj_of_lookup, Hnbs. simpl. rewrite decide_False; [done|].
      rewrite elem_of_remove_first by done. tauto. }
    assert (Hself : adj1 !! elem = Some L).
    { rewrite Hlook. rewrite decide_False; [done|].
      intros [_ Hn]%list_elem_of_filter. by destruct (Hsym elem Hn). }
    exists nbs, adj1. repeat split.
    + done.
    + unfold get_item. by rewrite Hget.
    + done.
    + unfold get_item. by rewrite Hself.
    + intros HL. apply list_eq. intros v.
      destruct (decide (v = elem)) as [->|Hv]; [|by apply Hmain].
      rewrite Hself, Hnew. by f_equal.
    + apply list_eq. intros v.
      destruct (decide (v = elem)) as [->|Hv].
      * rewrite list_lookup_insert_eq; [by rewrite Hnew|].
        rewrite Hlen1, adj_of_length, Hlen. by apply Hlt.
      * rewrite list_lookup_insert_ne by done. by apply Hmain.
    + by rewrite Hlen1, adj_of_length.
Qed.
End AdjOf.

Section Select.
Implicit Types (adj : list (list nat)).

Lemma select_candidates_run adj first rest :
  (forall e, e ∈ first :: rest -> e < length adj) ->
  exists cands,
    select_candidates adj first rest = Ok cands
    /\ cands <> [] /\ cands ⊆ first :: rest.
Proof.
  intros Hlt. unfold select_candidates.
  destruct (lookup_lt_is_Some_2 adj first) as [nf Hnf]; [apply Hlt; left|].
  unfold get_item. rewrite Hnf. simpl.
  match goal with |- context [for_each rest ?f _] => set (body := f) end.
  assert (Hgen : forall rest' acc,
    acc <> [] -> acc ⊆ first :: rest -> rest' ⊆ first :: rest ->
    exists cands,
      for_each rest' body acc = Ok cands
      /\ cands <> [] /\ cands ⊆ first :: rest).
  { induction rest' as [|e2 rest' IH]; intros acc Hacc Hsub Hrest.
    - exists acc. by split.
    - assert (He2 : e2 ∈ first :: rest) by (apply Hrest; left).
      destruct (lookup_lt_is_Some_2 adj e2) as [n2 Hn2]; [by apply Hlt|].
      simpl. unfold body. rewrite Hn2. simpl. fold body.
      assert (Hrest' : rest' ⊆ first :: rest).
      { intros v Hv. apply Hrest. by right. }
      repeat case_decide; apply IH; try done.
      + intros v Hv%list_elem_of_singleton. by subst.
      + by destruct acc.
      + intros v [Hv|Hv%list_elem_of_singleton]%elem_of_app; [by apply Hsub|by subst]. }
  apply Hgen; [done| |].
  - intros v Hv%list_elem_of_singleton. subst. left.
  - intros v Hv. by right.
Qed.

Lemma choice_run (l : list nat) (r : rng) :
  l <> [] ->
  exists v, choice l r = (Ok v, fun k => r (S k)) /\ v ∈ l.
Proof.
  intros Hl. destruct l as [|a l]; [done|].
  unfold choice, next_draw.
  destruct (lookup_lt_is_Some_2 (a :: l) (r 0 `mod` length (a :: l))) as [v Hv].
  { apply Nat.mod_upper_bound. simpl. lia. }
  exists v. rewrite Hv. split; [done|]. eapply list_elem_of_lookup_2, Hv.
Qed.
End Select.

(** ** The main loop of the edge recombination *)

Section ErLoop.
Context {Obj Aux : Type}.
Local Abbreviation Sol := (Solution Obj Aux).
Local Abbreviation St := (M Obj Aux).
Implicit Types (w : world Obj Aux) (child : loc) (c : Sol).

Lemma lift_bind_run {A B} (r : result A) (f : A -> St B) w a :
  r = Ok a -> (lift r ≫= f) w = f a w.
Proof. intros ->. reflexivity. Qed.

Lemma rng_bind_run {A B} (g : rng -> result A * rng) (f : A -> St B) w a r' :
  g (rand w) = (Ok a, r') -> (with_rng g ≫= f) w = f a (mkWorld (heap w) r').
Proof. intros Hg. unfold mbind, M_bind, with_rng. by rewrite Hg. Qed.

Lemma er_step_run n orig child i unv cur w c :
  heap w !! child = Some c -> i < length (x c) ->
  wf_adj n orig -> NoDup unv -> cur ∈ unv -> (forall u, u ∈ unv -> u < n) ->
  2 <= length unv ->
  exists sel r',
    er_step child i (mkEr (adj_of orig unv) unv cur) w
    = (Ok (mkEr (adj_of orig (remove_first cur unv)) (remove_first cur unv) sel),
       mkWorld (<[child := set_x (<[i := cur]> (x c)) c]> (heap w)) r')
    /\ sel ∈ remove_first cur unv
    /\ (forall nbs, orig !! cur = Some nbs ->
          filter (.∈ unv) nbs <> [] -> sel ∈ filter (.∈ unv) nbs).
Proof.
  intros Hc Hi Hwf Hnd Hin Hlt Hlen.
  destruct (er_pure_step n orig unv cur Hwf Hnd Hin Hlt)
    as (nbs & adj1 & Hnbs & Hget & Hunlink & Hget1 & Hempty & Hclear & Hlen1).
  assert (Hunv' : remove_first cur unv <> []).
  { intros Hnil. pose proof (remove_first_perm cur unv Hin) as Hp.
    apply Permutation_length in Hp. rewrite Hnil in Hp. simpl in Hp. lia. }
  unfold er_step. cbn [adj_lists unvisited elem].
  rewrite (bind_run _ _ _ _ _ (write_x_run _ _ i cur _ Hc Hi)).
  erewrite lift_bind_run by (unfold set_remove; by rewrite decide_True).
  erewrite lift_bind_run by exact Hget.
  erewrite lift_bind_run by exact Hunlink.
  erewrite lift_bind_run by exact Hget1.
  destruct (filter (.∈ unv) nbs) as [|first rest] eqn:HL.
  - destruct (choice_run (remove_first cur unv) (rand w) Hunv') as (sel & Hsel & Hsel_in).
    exists sel, (fun k => rand w (S k)).
    erewrite rng_bind_run by exact Hsel.
    rewrite Hempty by done. split; [done|]. split; [done|].
    intros nbs' Hnbs'. rewrite Hnbs in Hnbs'. injection Hnbs' as <-. by rewrite HL.
  - destruct (select_candidates_run adj1 first rest) as (cands & Hcands & Hne & Hsub).
    { intros e He. rewrite Hlen1. rewrite <- HL in He.
      apply list_elem_of_filter in He as [_ He].
      by destruct (wf_adj_lt n orig cur nbs e Hwf Hnbs He). }
    destruct (choice_run cands (rand w) Hne) as (sel & Hsel & Hsel_in).
    exists sel, (fun k => rand w (S k)).
    erewrite lift_bind_run by exact Hcands.
    erewrite rng_bind_run by exact Hsel.
    rewrite Hclear. split; [done|].
    assert (HselL : sel ∈ filter (.∈ unv) nbs) by (rewrite HL; by apply Hsub).
    split.
    + apply list_elem_of_filter in HselL as [Hsu Hsn].
      apply elem_of_remove_first; [done|]. split; [done|].
      destruct Hwf as [_ Hw]. destruct (Hw cur nbs Hnbs) as [_ Hsym].
      by destruct (Hsym sel Hsn).
    + intros nbs' Hnbs' _. rewrite Hnbs in Hnbs'. by injection Hnbs' as <-.
Qed.

Lemma set_x_id c : set_x (x c) c = c.
Proof. by destruct c. Qed.

Lemma set_x_set_x (v v' : list nat) c : set_x v (set_x v' c) = set_x v c.
Proof. done. Qed.

Lemma world_eta w : mkWorld (heap w) (rand w) = w.
Proof. by destruct w. Qed.

Lemma length_remove_first e (l : list nat) :
  e ∈ l -> length l = S (length (remove_first e l)).
Proof. intros He. by rewrite (remove_first_perm e l He) at 1. Qed.

Lemma er_loop_run n orig child k : forall i unv elem w c,
  heap w !! child = Some c -> length (x c) = n -> i + k < n ->
  wf_adj n orig -> NoDup unv -> elem ∈ unv -> (forall u, u ∈ unv -> u < n) ->
  length unv = n - i ->
  exists vis unv' elem' r',
    for_each (seq i k) (er_step child) (mkEr (adj_of orig unv) unv elem) w
    = (Ok (mkEr (adj_of orig unv') unv' elem'),
       mkWorld (<[child := set_x (take i (x c) ++ vis ++ drop (i + k) (x c)) c]> (heap w)) r')
    /\ length vis = k
    /\ er_path orig unv elem vis unv' elem'.
Proof.
  induction k as [|k IH]; intros i unv elem w c Hc Hn Hik Hwf Hnd Hin Hlt Hlen.
  - exists [], unv, elem, (rand w). split; [|split; [done|constructor]].
    simpl. rewrite Nat.add_0_r, take_drop, set_x_id.
    rewrite list_insert_id by done. by rewrite world_eta.
  - destruct (er_step_run n orig child i unv elem w c) as (sel & r1 & Hstep & Hsel & Hnb);
      try done; [lia..|].
    set (c1 := set_x (<[i := elem]> (x c)) c) in *.
    set (w1 := mkWorld (<[child := c1]> (heap w)) r1) in *.
    destruct (IH (S i) (remove_first elem unv) sel w1 c1)
      as (vis & unv' & elem' & r' & Hloop & Hvis & Hpath).
    + simpl. apply list_lookup_insert_eq. by eapply lookup_lt_Some.
    + simpl. by rewrite length_insert.
    + lia.
    + done.
    + by apply NoDup_remove_first.
    + done.
    + intros u Hu. apply Hlt. by apply elem_of_remove_first in Hu as [? _].
    + pose proof (length_remove_first elem unv Hin). lia.
    + exists (elem :: vis), unv', elem', r'. split; [|split].
      * simpl. rewrite (bind_run _ _ _ _ _ Hstep). fold w1. rewrite Hloop.
        f_equal. unfold w1. simpl. rewrite list_insert_insert_eq.
        f_equal. f_equal. unfold c1. rewrite set_x_set_x. simpl. f_equal.
        rewrite (take_S_r _ _ elem) by (apply list_lookup_insert_eq; lia).
        rewrite take_insert_ge by lia. rewrite <- app_assoc. simpl.
        f_equal. f_equal. f_equal.
        rewrite drop_insert_lt by lia. f_equal. lia.
      * simpl. by rewrite Hvis.
      * by econstructor.
Qed.

Lemma er_path_perm orig unv elem vis unv' elem' :
  er_path orig unv elem vis unv' elem' ->
  NoDup unv -> elem ∈ unv ->
  unv ≡ₚ vis ++ unv' /\ elem' ∈ unv' /\ NoDup unv'.
Proof.
  induction 1 as [|unv elem sel vis unv' elem' Hsel Hnb Hpath IH]; intros Hnd Hin.
  - done.
  - destruct IH as (Hp & He' & Hnd'); [by apply NoDup_remove_first|done|].
    split; [|done]. simpl. rewrite <- Hp. by apply remove_first_perm.
Qed.
End ErLoop.

(** ** Cyclic tours *)

Section Tours.
Implicit Types (p t : list nat) (e u : nat).

Lemma mod_cases (a n : nat) :
  a < 2 * n -> (a < n /\ a mod n = a) \/ (n <= a /\ a mod n = a - n).
Proof.
  intros Ha. destruct (decide (a < n)) as [Hlt|Hge].
  - left. split; [done|]. by apply Nat.mod_small.
  - right. split; [lia|].
    replace a with ((a - n) + 1 * n) at 1 by lia.
    rewrite Nat.Div0.mod_add. apply Nat.mod_small. lia.
Qed.

Lemma lookup_rotation p s j :
  s < length p -> j < length p ->
  (drop s p ++ take s p) !! j = p !! ((s + j) mod length p).
Proof.
  intros Hs Hj.
  destruct (mod_cases (s + j) (length p)) as [[Hlt ->]|[Hge ->]]; [lia| |].
  - rewrite lookup_app_l by (rewrite length_drop; lia). by rewrite lookup_drop.
  - rewrite lookup_app_r by (rewrite length_drop; lia).
    rewrite length_drop. rewrite lookup_take_lt by lia. f_equal. lia.
Qed.

Lemma cyc_nb_rotation p s e u :
  s < length p ->
  cyc_nb (drop s p ++ take s p) e u <-> cyc_nb p e u.
Proof.
  intros Hs. set (n := length p).
  assert (Hlen : length (drop s p ++ take s p) = n).
  { rewrite length_app, length_drop, length_take. lia. }
  assert (Hidx : forall a, (s + a mod n) mod n = (s + a) mod n).
  { intros a. by rewrite Nat.Div0.add_mod_idemp_r. }
  unfold cyc_nb. rewrite Hlen. fold n. split.
  - intros (j & Hj & Hnb).
    assert (Hjn : j < n) by (apply lookup_lt_Some in Hj; lia).
    exists ((s + j) mod n). rewrite lookup_rotation in Hj by done.
    split; [done|].
    rewrite !lookup_rotation in Hnb by (try apply Nat.mod_upper_bound; lia).
    fold n in Hnb. rewrite !Hidx in Hnb.
    replace ((s + j) mod n + n - 1) with ((s + j) mod n + (n - 1)) by lia.
    rewrite !Nat.Div0.add_mod_idemp_l.
    replace (s + (j + n - 1)) with (s + j + (n - 1)) in Hnb by lia.
    by replace (s + (j + 1)) with (s + j + 1) in Hnb by lia.
  - intros (i & Hi & Hnb).
    assert (Hin : i < n) by (by apply lookup_lt_Some in Hi).
    assert (Hback : (s + (i + n - s) mod n) mod n = i).
    { rewrite Hidx. replace (s + (i + n - s)) with (i + 1 * n) by lia.
      rewrite Nat.Div0.mod_add. by apply Nat.mod_small. }
    exists ((i + n - s) mod n).
    rewrite !lookup_rotation by (try apply Nat.mod_upper_bound; lia).
    fold n. rewrite Hback. split; [done|].
    rewrite !Hidx.
    replace (s + ((i + n - s) mod n + n - 1)) with (s + (i + n - s) mod n + (n - 1)) by lia.
    replace (s + ((i + n - s) mod n + 1)) with (s + (i + n - s) mod n + 1) by lia.
    rewrite <- (Nat.Div0.add_mod_idemp_l (s + _) (n - 1)).
    rewrite <- (Nat.Div0.add_mod_idemp_l (s + _) 1).
    rewrite Hback.
    by replace (i + (n - 1)) with (i + n - 1) by lia.
Qed.

Lemma cyc_nb_reverse_1 p e u : cyc_nb p e u -> cyc_nb (reverse p) e u.
Proof.
  set (n := length p). unfold cyc_nb. rewrite length_reverse. fold n.
  intros (i & Hi & Hnb).
  assert (Hin : i < n) by (by apply lookup_lt_Some in Hi).
  assert (Hrev : forall m, m < n -> reverse p !! m = p !! (n - S m)).
  { intros m Hm. by apply reverse_lookup. }
  exists (n - S i). rewrite Hrev by lia.
  replace (n - S (n - S i)) with i by lia. split; [done|].
  rewrite !Hrev by (apply Nat.mod_upper_bound; lia).
  destruct (mod_cases (n - S i + n - 1) n) as [[? ->]|[? ->]]; [lia|..];
  destruct (mod_cases (n - S i + 1) n) as [[? ->]|[? ->]]; try lia;
  destruct (mod_cases (i + n - 1) n) as [[? Hm1]|[? Hm1]]; try lia;
  destruct (mod_cases (i + 1) n) as [[? Hm2]|[? Hm2]]; try lia;
  rewrite Hm1, Hm2 in Hnb;
  (destruct Hnb as [Hnb|Hnb]; [right|left]; rewrite <- Hnb; f_equal; lia).
Qed.

Lemma cyc_nb_reverse p e u : cyc_nb (reverse p) e u <-> cyc_nb p e u.
Proof.
  split; [|apply cyc_nb_reverse_1].
  intros H. apply cyc_nb_reverse_1 in H. by rewrite reverse_involutive in H.
Qed.

Lemma cyc_nb_sym p e u : cyc_nb p e u -> cyc_nb p u e.
Proof.
  set (n := length p). unfold cyc_nb. fold n. intros (i & Hi & Hnb).
  assert (Hin : i < n) by (by apply lookup_lt_Some in Hi).
  destruct Hnb as [Hnb|Hnb].
  - exists ((i + n - 1) mod n). split; [done|]. right.
    rewrite <- Hi. f_equal.
    destruct (mod_cases (i + n - 1) n) as [[? ->]|[? ->]]; [lia|..];
    (destruct (mod_cases (i + n - 1 + 1) n) as [[? ->]|[? ->]] ||
     destruct (mod_cases (i + n - 1 - n + 1) n) as [[? ->]|[? ->]]); lia.
  - exists ((i + 1) mod n). split; [done|]. left.
    rewrite <- Hi. f_equal.
    destruct (mod_cases (i + 1) n) as [[? ->]|[? ->]]; [lia|..];
    (destruct (mod_cases (i + 1 + n - 1) n) as [[? ->]|[? ->]] ||
     destruct (mod_cases (i + 1 - n + n - 1) n) as [[? ->]|[? ->]]); lia.
Qed.

Lemma cyc_nb_irrefl p e : NoDup p -> 2 <= length p -> ~ cyc_nb p e e.
Proof.
  set (n := length p). unfold cyc_nb. fold n. intros Hnd Hn (i & Hi & Hnb).
  assert (Hin : i < n) by (by apply lookup_lt_Some in Hi).
  destruct Hnb as [Hnb|Hnb];
    pose proof (NoDup_lookup _ _ _ _ Hnd Hi Hnb) as Heq.
  - destruct (mod_cases (i + n - 1) n) as [[? Hm]|[? Hm]]; lia.
  - destruct (mod_cases (i + 1) n) as [[? Hm]|[? Hm]]; lia.
Qed.

(** Inside a tour the neighbours of an element are the elements before and
    after it. *)
Lemma cyc_nb_inside t j e u :
  NoDup t -> 1 <= j -> j + 1 < length t -> t !! j = Some e ->
  cyc_nb t e u <-> (t !! (j - 1) = Some u \/ t !! (j + 1) = Some u).
Proof.
  set (n := length t). intros Hnd H1 Hj He. unfold cyc_nb. fold n.
  assert (Hm1 : (j + n - 1) mod n = j - 1).
  { destruct (mod_cases (j + n - 1) n) as [[? ->]|[? ->]]; lia. }
  assert (Hm2 : (j + 1) mod n = j + 1) by (apply Nat.mod_small; lia).
  split.
  - intros (i & Hi & Hnb).
    rewrite (NoDup_lookup _ _ _ _ Hnd Hi He) in Hnb. by rewrite Hm1, Hm2 in Hnb.
  - intros Hnb. exists j. by rewrite Hm1, Hm2.
Qed.

(** At the head of a tour the neighbours are the second and the last element. *)
Lemma cyc_nb_head t e u :
  NoDup t -> 2 <= length t -> t !! 0 = Some e ->
  cyc_nb t e u <-> (t !! (length t - 1) = Some u \/ t !! 1 = Some u).
Proof.
  set (n := length t). intros Hnd Hn He. unfold cyc_nb. fold n.
  assert (Hm1 : (0 + n - 1) mod n = n - 1) by (apply Nat.mod_small; lia).
  assert (Hm2 : (0 + 1) mod n = 1) by (apply Nat.mod_small; lia).
  split.
  - intros (i & Hi & Hnb).
    rewrite (NoDup_lookup _ _ _ _ Hnd Hi He) in Hnb. by rewrite Hm1, Hm2 in Hnb.
  - intros Hnb. exists 0. by rewrite Hm1, Hm2.
Qed.
End Tours.

(** ** Building the adjacency lists *)

Section Perm.
Implicit Types (v : list nat) (n : nat).

Lemma is_perm_NoDup n v : is_perm n v -> NoDup v.
Proof. intros Hp. unfold is_perm in Hp. rewrite Hp. apply NoDup_seq. Qed.

Lemma is_perm_length n v : is_perm n v -> length v = n.
Proof. intros Hp. unfold is_perm in Hp. by rewrite Hp, length_seq. Qed.

Lemma is_perm_elem n v e : is_perm n v -> e ∈ v <-> e < n.
Proof.
  intros Hp. unfold is_perm in Hp. rewrite Hp, elem_of_seq. lia.
Qed.

Lemma is_perm_lookup_lt n v i e : is_perm n v -> v !! i = Some e -> e < n.
Proof.
  intros Hp Hi. apply (is_perm_elem n v e Hp). by eapply list_elem_of_lookup_2.
Qed.

Lemma is_perm_position n v e : is_perm n v -> e < n -> exists i, v !! i = Some e.
Proof. intros Hp He. by apply list_elem_of_lookup, (is_perm_elem n v e Hp). Qed.
End Perm.

Section AddTwo.
Implicit Types (nbs : list nat).

Lemma elem_of_append_if_not_contained nbs a u :
  u ∈ append_if_not_contained nbs a <-> u ∈ nbs \/ u = a.
Proof.
  unfold append_if_not_contained. case_decide.
  - split; [by left|]. by intros [?| ->].
  - rewrite elem_of_app, list_elem_of_singleton. done.
Qed.

Lemma NoDup_append_if_not_contained nbs a :
  NoDup nbs -> NoDup (append_if_not_contained nbs a).
Proof.
  intros Hnd. unfold append_if_not_contained. case_decide; [done|].
  apply NoDup_app. split; [done|]. split; [|apply NoDup_singleton].
  intros u Hu Hu'%list_elem_of_singleton. by subst.
Qed.

Lemma elem_of_add_two nbs a b u :
  u ∈ add_two nbs a b <-> u ∈ nbs \/ u = a \/ u = b.
Proof. unfold add_two. rewrite !elem_of_append_if_not_contained. tauto. Qed.

Lemma NoDup_add_two nbs a b : NoDup nbs -> NoDup (add_two nbs a b).
Proof. intros H. by do 2 apply NoDup_append_if_not_contained. Qed.
End AddTwo.

Section Build.
Context {Obj Aux : Type}.
Local Abbreviation Sol := (Solution Obj Aux).
Local Abbreviation St := (M Obj Aux).
Implicit Types (w : world Obj Aux) (l : loc) (s : Sol) (adj : list (list nat)).

Lemma add_neighbours_run l s n adj w :
  heap w !! l = Some s -> length (x s) = n -> NoDup (x s) ->
  (forall e, e ∈ x s -> e < length adj) ->
  exists adj',
    add_neighbours l n adj w = (Ok adj', w)
    /\ length adj' = length adj
    /\ (forall e, e ∉ x s -> adj' !! e = adj !! e)
    /\ (forall i e, x s !! i = Some e ->
          exists nbs a b,
            adj !! e = Some nbs
            /\ x s !! ((i + n - 1) mod n) = Some a
            /\ x s !! ((i + 1) mod n) = Some b
            /\ adj' !! e = Some (add_two nbs a b)).
Proof.
  intros Hl Hn Hnd Hlt. unfold add_neighbours.
  rewrite (bind_run _ _ _ _ _ (get_x_run _ _ _ Hl)).
  unfold enumerate.
  match goal with |- context [for_each _ ?f _] => set (body := f) end.
  assert (Hgen : forall rest k adj0,
    (forall j e, rest !! j = Some e -> x s !! (k + j) = Some e) ->
    NoDup rest -> (forall e, e ∈ rest -> e < length adj0) ->
    exists adj',
      for_each (zip (seq k (length rest)) rest) body adj0 w = (Ok adj', w)
      /\ length adj' = length adj0
      /\ (forall e, e ∉ rest -> adj' !! e = adj0 !! e)
      /\ (forall j e, rest !! j = Some e ->
            exists nbs a b,
              adj0 !! e = Some nbs
              /\ x s !! ((k + j + n - 1) mod n) = Some a
              /\ x s !! ((k + j + 1) mod n) = Some b
              /\ adj' !! e = Some (add_two nbs a b))).
  { induction rest as [|e rest IH]; intros k adj0 Hsuf Hndr Hltr.
    - exists adj0. split; [done|]. split; [done|]. split; [done|].
      intros j e Hj. by rewrite lookup_nil in Hj.
    - apply NoDup_cons in Hndr as [He Hndr].
      assert (Hk : x s !! k = Some e).
      { specialize (Hsuf 0 e eq_refl). by rewrite Nat.add_0_r in Hsuf. }
      assert (Hkn : k < n) by (apply lookup_lt_Some in Hk; lia).
      destruct (lookup_lt_is_Some_2 adj0 e) as [nbs Hnbs]; [apply Hltr; left|].
      destruct (lookup_lt_is_Some_2 (x s) ((k + n - 1) mod n)) as [a Ha].
      { rewrite Hn. apply Nat.mod_upper_bound. lia. }
      destruct (lookup_lt_is_Some_2 (x s) ((k + 1) mod n)) as [b Hb].
      { rewrite Hn. apply Nat.mod_upper_bound. lia. }
      set (adj1 := <[e := add_two nbs a b]> adj0).
      destruct (IH (S k) adj1) as (adj' & Hrun & Hlen & Hout & Hin).
      + intros j e' Hj. replace (S k + j) with (k + S j) by lia. by apply Hsuf.
      + done.
      + intros e' He'. unfold adj1. rewrite length_insert. apply Hltr. by right.
      + exists adj'. split; [|split; [|split]].
        * assert (Hbody : body (k, e) adj0 w = (Ok adj1, w)).
          { unfold body.
            erewrite lift_bind_run by (unfold get_item; by rewrite Hnbs).
            rewrite (bind_run _ _ _ _ _ (read_x_run _ _ _ _ _ Hl Ha)).
            erewrite lift_bind_run
              by (unfold adj_append, get_item; rewrite Hnbs; reflexivity).
            rewrite (bind_run _ _ _ _ _ (read_x_run _ _ _ _ _ Hl Hb)).
            unfold lift, adj_append, get_item.
            rewrite list_lookup_insert_eq by (by eapply lookup_lt_Some).
            simpl. by rewrite list_insert_insert_eq. }
          simpl. fold body. by rewrite (bind_run _ _ _ _ _ Hbody).
        * rewrite Hlen. unfold adj1. by rewrite length_insert.
        * intros e' He'. rewrite Hout by (intros ?; apply He'; by right).
          unfold adj1. rewrite list_lookup_insert_ne; [done|].
          intros ->. apply He'. left.
        * intros [|j] e' Hj; simpl in Hj.
          -- injection Hj as <-. exists nbs, a, b. rewrite Nat.add_0_r.
             repeat split; try done.
             rewrite Hout by done. unfold adj1.
             apply list_lookup_insert_eq. by eapply lookup_lt_Some.
          -- destruct (Hin j e' Hj) as (nbs' & a' & b' & H1 & H2 & H3 & H4).
             exists nbs', a', b'.
             replace (k + S j) with (S k + j) by lia. repeat split; try done.
             unfold adj1 in H1. rewrite list_lookup_insert_ne in H1; [done|].
             intros ->. apply He. by eapply list_elem_of_lookup_2. }
  destruct (Hgen (x s) 0 adj) as (adj' & Hrun & Hlen & Hout & Hin); try done.
  exists adj'. rewrite Hn in Hrun |- *.
  split; [done|]. split; [done|]. split; [done|].
  intros i e Hi. apply (Hin i e Hi).
Qed.
End Build.

Section BuildBoth.
Context {Obj Aux : Type}.
Local Abbreviation Sol := (Solution Obj Aux).
Local Abbreviation St := (M Obj Aux).
Implicit Types (w : world Obj Aux) (s o : Sol).

Lemma build_adj_run self other s o n w :
  heap w !! self = Some s -> heap w !! other = Some o ->
  is_perm n (x s) -> is_perm n (x o) ->
  exists adj1 orig,
    add_neighbours self n (replicate n []) w = (Ok adj1, w)
    /\ add_neighbours other n adj1 w = (Ok orig, w)
    /\ adj_from (x s) (x o) orig.
Proof.
  intros Hs Ho Hps Hpo.
  pose proof (is_perm_length _ _ Hps) as Hls.
  pose proof (is_perm_length _ _ Hpo) as Hlo.
  pose proof (is_perm_NoDup _ _ Hps) as Hns.
  pose proof (is_perm_NoDup _ _ Hpo) as Hno.
  destruct (add_neighbours_run self s n (replicate n []) w Hs Hls Hns)
    as (adj1 & Hrun1 & Hlen1 & Hout1 & Hin1).
  { intros e He. rewrite length_replicate. by apply (is_perm_elem n (x s)). }
  rewrite length_replicate in Hlen1.
  destruct (add_neighbours_run other o n adj1 w Ho Hlo Hno)
    as (orig & Hrun2 & Hlen2 & Hout2 & Hin2).
  { intros e He. rewrite Hlen1. by apply (is_perm_elem n (x o)). }
  exists adj1, orig. split; [done|]. split; [done|].
  split; [lia|]. intros e nbs He.
  assert (Hen : e < n) by (apply lookup_lt_Some in He; lia).
  destruct (is_perm_position n (x s) e Hps Hen) as [i Hi].
  destruct (is_perm_position n (x o) e Hpo Hen) as [i' Hi'].
  destruct (Hin1 i e Hi) as (nbs1 & a & b & Hn1 & Ha & Hb & Hadj1).
  destruct (Hin2 i' e Hi') as (nbs2 & a' & b' & Hn2 & Ha' & Hb' & Horig).
  rewrite lookup_replicate_2 in Hn1 by done. injection Hn1 as <-.
  rewrite Hadj1 in Hn2. injection Hn2 as <-.
  rewrite He in Horig. injection Horig as ->.
  split; [by do 2 apply NoDup_add_two; apply NoDup_nil|].
  intros u. rewrite !elem_of_add_two, elem_of_nil.
  unfold cyc_nb. rewrite Hls, Hlo. split.
  - intros [[[]|[->| ->]]|[->| ->]].
    + left. exists i. auto.
    + left. exists i. auto.
    + right. exists i'. auto.
    + right. exists i'. auto.
  - intros [(j & Hj & Hnb)|(j & Hj & Hnb)].
    + rewrite (NoDup_lookup _ _ _ _ Hns Hj Hi) in Hnb.
      rewrite Ha, Hb in Hnb. destruct Hnb as [[= ->]|[= ->]]; auto.
    + rewrite (NoDup_lookup _ _ _ _ Hno Hj Hi') in Hnb.
      rewrite Ha', Hb' in Hnb. destruct Hnb as [[= ->]|[= ->]]; auto.
Qed.
End BuildBoth.

Lemma wf_adj_from n p q orig :
  2 <= n -> is_perm n p -> is_perm n q -> adj_from p q orig -> wf_adj n orig.
Proof.
  intros Hn Hp Hq [Hlen Hspec].
  pose proof (is_perm_length _ _ Hp) as Hlp.
  pose proof (is_perm_length _ _ Hq) as Hlq.
  split; [lia|]. intros v nbs Hv. destruct (Hspec v nbs Hv) as [Hnd Hmem].
  split; [done|]. intros u Hu. apply Hmem in Hu. split.
  - intros ->. destruct Hu as [Hu|Hu]; revert Hu; apply cyc_nb_irrefl;
      eauto using is_perm_NoDup; lia.
  - assert (Hun : u < n).
    { destruct Hu as [(i & _ & [Hi|Hi])|(i & _ & [Hi|Hi])];
        eauto using is_perm_lookup_lt. }
    destruct (lookup_lt_is_Some_2 orig u) as [nbu Hnbu]; [lia|].
    exists nbu. split; [done|]. apply (Hspec u nbu Hnbu).
    destruct Hu as [Hu|Hu]; [left|right]; by apply cyc_nb_sym.
Qed.

(** ** Paths along a tour *)

Section TourPath.
Implicit Types (p t orig_row : list nat).

Lemma tour_path t orig :
  NoDup t ->
  (forall e, e ∈ t ->
     exists nbs, orig !! e = Some nbs /\ forall u, u ∈ nbs <-> cyc_nb t e u) ->
  forall unv elem vis unv' elem',
    er_path orig unv elem vis unv' elem' ->
    forall j, 1 <= j -> j + length vis < length t -> t !! j = Some elem ->
      (forall u, u ∈ unv <-> u ∈ drop j t) -> NoDup unv ->
      vis ++ [elem'] = take (S (length vis)) (drop j t).
Proof.
  intros Hnd Horig unv elem vis unv' elem' Hpath.
  induction Hpath as [unv elem|unv elem sel vis unv' elem' Hsel Hnb Hpath IH];
    intros j Hj1 Hjn Hj Hunv Hndu.
  - simpl. by rewrite (drop_S _ _ _ Hj).
  - simpl in Hjn.
    destruct (lookup_lt_is_Some_2 t (j + 1)) as [u1 Hu1]; [lia|].
    destruct (Horig elem) as (nbs & Hnbs & Hmem); [by eapply list_elem_of_lookup_2|].
    assert (Hinside : forall u, cyc_nb t elem u
              <-> t !! (j - 1) = Some u \/ t !! (j + 1) = Some u).
    { intros u. apply cyc_nb_inside; [done|done|lia|done]. }
    assert (Hu1_unv : u1 ∈ unv).
    { apply Hunv. apply list_elem_of_lookup. exists 1. by rewrite lookup_drop. }
    assert (Hu1_nbs : u1 ∈ nbs) by (apply Hmem, Hinside; by right).
    assert (Hsel' : sel ∈ filter (.∈ unv) nbs).
    { apply Hnb; [done|]. intros Hnil.
      assert (Hin : u1 ∈ filter (.∈ unv) nbs) by (by apply list_elem_of_filter).
      rewrite Hnil in Hin. by apply elem_of_nil in Hin. }
    apply list_elem_of_filter in Hsel' as [Hsel_unv Hsel_nbs].
    assert (Hnext : t !! (j + 1) = Some sel).
    { apply Hmem, Hinside in Hsel_nbs as [Hprev|Hnext]; [|done].
      apply Hunv, list_elem_of_lookup in Hsel_unv as [m Hm].
      rewrite lookup_drop in Hm.
      pose proof (NoDup_lookup _ _ _ _ Hnd Hprev Hm). lia. }
    assert (Hdrop : drop j t = elem :: drop (S j) t) by (by apply drop_S).
    assert (Hnd_drop : NoDup (elem :: drop (S j) t)).
    { rewrite <- Hdrop. apply (sublist_NoDup _ t); [exact Hnd|apply sublist_drop]. }
    apply NoDup_cons in Hnd_drop as [Helem_notin _].
    change ((elem :: vis) ++ [elem']) with (elem :: (vis ++ [elem'])).
    rewrite Hdrop.
    change (take (S (length (elem :: vis))) (elem :: drop (S j) t))
      with (elem :: take (S (length vis)) (drop (S j) t)).
    f_equal. replace (S j) with (j + 1) by lia. apply IH.
    + lia.
    + lia.
    + done.
    + intros u. rewrite elem_of_remove_first by done. rewrite Hunv, Hdrop.
      rewrite Nat.add_1_r, elem_of_cons. split.
      * intros [[->|Hu] Hne]; done.
      * intros Hu. split; [by right|]. intros ->. done.
    + by apply NoDup_remove_first.
Qed.

Lemma tour_from_start p s start sel :
  NoDup p -> 2 <= length p -> p !! s = Some start -> cyc_nb p start sel ->
  exists t,
    same_tour p t /\ t ≡ₚ p /\ t !! 0 = Some start /\ t !! 1 = Some sel
    /\ forall e u, cyc_nb t e u <-> cyc_nb p e u.
Proof.
  intros Hnd Hn Hs (i & Hi & Hnb). set (n := length p) in *.
  assert (Hsn : s < n) by (by apply lookup_lt_Some in Hs).
  rewrite (NoDup_lookup _ _ _ _ Hnd Hi Hs) in Hnb. clear i Hi.
  destruct Hnb as [Hprev|Hnext].
  - set (k := n - 1 - s). set (r := reverse p).
    assert (Hlr : length r = n) by (unfold r; by rewrite length_reverse).
    exists (drop k r ++ take k r). split; [|split; [|split; [|split]]].
    + exists k. split; [lia|]. by right.
    + rewrite Permutation_app_comm, take_drop. unfold r. by rewrite reverse_Permutation.
    + rewrite lookup_rotation by lia. rewrite Hlr, Nat.add_0_r.
      rewrite Nat.mod_small by lia. unfold r.
      rewrite reverse_lookup by lia. rewrite <- Hs. f_equal. lia.
    + rewrite lookup_rotation by lia. rewrite Hlr. unfold r.
      rewrite reverse_lookup by (apply Nat.mod_upper_bound; lia).
      rewrite <- Hprev. f_equal. fold n.
      destruct (mod_cases (k + 1) n) as [[? ->]|[? ->]]; [lia|..];
      destruct (mod_cases (s + n - 1) n) as [[? ->]|[? ->]]; lia.
    + intros e u. rewrite cyc_nb_rotation by lia. apply cyc_nb_reverse.
  - exists (drop s p ++ take s p). split; [|split; [|split; [|split]]].
    + exists s. split; [done|]. by left.
    + by rewrite Permutation_app_comm, take_drop.
    + rewrite lookup_rotation by lia. fold n. rewrite Nat.add_0_r.
      by rewrite Nat.mod_small by lia.
    + by rewrite lookup_rotation by lia.
    + intros e u. by apply cyc_nb_rotation.
Qed.

Lemma er_path_tour p orig start vis unv' elem' :
  is_perm (length p) p -> 2 <= length p ->
  adj_from p p orig -> start < length p ->
  er_path orig (seq 0 (length p)) start vis unv' elem' ->
  length vis = length p - 1 ->
  same_tour p (vis ++ [elem']).
Proof.
  set (n := length p). intros Hp Hn [Hlen Hspec] Hstart Hpath Hvis.
  pose proof (is_perm_NoDup _ _ Hp) as Hnd.
  destruct (is_perm_position n p start Hp Hstart) as [s Hs].
  assert (Hsn : s < n) by (by apply lookup_lt_Some in Hs).
  inversion Hpath as [|unv0 elem0 sel vis1 unv1 elem1 Hsel Hnb Hpath1]; subst;
    [simpl in Hvis; lia|]. simpl in Hvis.
  destruct (lookup_lt_is_Some_2 orig start) as [nbs Hnbs]; [lia|].
  destruct (Hspec start nbs Hnbs) as [Hndn Hmem].
  destruct (lookup_lt_is_Some_2 p ((s + 1) mod n)) as [u1 Hu1].
  { apply Nat.mod_upper_bound. lia. }
  assert (Hu1_nb : cyc_nb p start u1) by (exists s; split; [done|by right]).
  assert (Hsel' : sel ∈ filter (.∈ seq 0 n) nbs).
  { apply Hnb; [done|]. intros Hnil.
    assert (Hin : u1 ∈ filter (.∈ seq 0 n) nbs).
    { apply list_elem_of_filter. split; [|apply Hmem; by left].
      apply elem_of_seq. apply (is_perm_lookup_lt n p) in Hu1; [lia|done]. }
    rewrite Hnil in Hin. by apply elem_of_nil in Hin. }
  apply list_elem_of_filter in Hsel' as [_ Hsel_nbs].
  assert (Hsel_nb : cyc_nb p start sel) by (apply Hmem in Hsel_nbs; tauto).
  destruct (tour_from_start p s start sel Hnd Hn Hs Hsel_nb)
    as (t & Htour & Hperm & Ht0 & Ht1 & Hcyc).
  assert (Hndt : NoDup t) by (by rewrite Hperm).
  assert (Hlt : length t = n) by (by rewrite Hperm).
  assert (Hdrop0 : t = start :: drop 1 t).
  { rewrite <- (drop_0 t) at 1. by apply drop_S. }
  assert (Hnd0 : NoDup (start :: drop 1 t)) by (by rewrite <- Hdrop0).
  apply NoDup_cons in Hnd0 as [Hstart_notin _].
  assert (Htail : vis1 ++ [elem'] = take (S (length vis1)) (drop 1 t)).
  { apply (tour_path t orig Hndt) with (unv := remove_first start (seq 0 n))
                                       (elem := sel) (unv' := unv').
    - intros e He. rewrite Hperm in He.
      apply (is_perm_elem n p e Hp) in He.
      destruct (lookup_lt_is_Some_2 orig e) as [nbe Hnbe]; [lia|].
      exists nbe. split; [done|]. intros u.
      destruct (Hspec e nbe Hnbe) as [_ Hm]. rewrite Hm, Hcyc. tauto.
    - done.
    - lia.
    - lia.
    - done.
    - intros u. rewrite elem_of_remove_first by apply NoDup_seq.
      rewrite elem_of_seq. split.
      + intros [Hu Hne].
        assert (Hut : u ∈ t).
        { rewrite Hperm. apply (is_perm_elem n p u Hp). lia. }
        rewrite Hdrop0 in Hut. apply elem_of_cons in Hut as [->|Hut]; done.
      + intros Hu. split.
        * assert (Hut : u ∈ t) by (rewrite Hdrop0; by right).
          rewrite Hperm in Hut. apply (is_perm_elem n p u Hp) in Hut. lia.
        * intros ->. done.
    - apply NoDup_remove_first, NoDup_seq. }
  replace ((start :: vis1) ++ [elem']) with t; [done|].
  simpl. rewrite Htail. rewrite take_ge by (rewrite length_drop; lia). done.
Qed.
End TourPath.

(** ** Edge recombination as a whole *)

Section EdgeRun.
Context {Obj Aux : Type}.
Local Abbreviation Sol := (Solution Obj Aux).
Local Abbreviation St := (M Obj Aux).
Implicit Types (w : world Obj Aux) (s o c : Sol).

Lemma adj_of_full_from n p q orig :
  is_perm n p -> is_perm n q -> adj_from p q orig ->
  adj_of orig (seq 0 n) = orig.
Proof.
  intros Hp Hq [Hlen Hspec]. pose proof (is_perm_length _ _ Hp) as Hlp.
  apply list_eq. intros v. rewrite adj_of_lookup.
  destruct (orig !! v) as [nbs|] eqn:Hv; simpl; [|done]. f_equal.
  rewrite decide_True by (apply elem_of_seq; apply lookup_lt_Some in Hv; lia).
  apply filter_all. intros u Hu. apply elem_of_seq.
  destruct (Hspec v nbs Hv) as [_ Hmem]. apply Hmem in Hu.
  assert (u < n); [|lia].
  destruct Hu as [(i & _ & [Hi|Hi])|(i & _ & [Hi|Hi])];
    eauto using is_perm_lookup_lt.
Qed.

Lemma edge_recombination_run self other s o n w :
  heap w !! self = Some s -> heap w !! other = Some o ->
  is_perm n (x s) -> is_perm n (x o) -> 1 <= n ->
  exists orig start vis unv' elem' r',
    edge_recombination self other w
    = (Ok (length (heap w)),
       mkWorld (heap w ++ [invalidate (set_x (vis ++ [elem']) s)]) r')
    /\ adj_from (x s) (x o) orig
    /\ start < n
    /\ length vis = n - 1
    /\ er_path orig (seq 0 n) start vis unv' elem'.
Proof.
  intros Hs Ho Hps Hpo Hn.
  pose proof (is_perm_length _ _ Hps) as Hls.
  destruct (build_adj_run self other s o n w Hs Ho Hps Hpo)
    as (adj1 & orig & Hrun1 & Hrun2 & Hfrom).
  unfold edge_recombination.
  rewrite (bind_run _ _ _ _ _ (len_x_run _ _ _ Hs)). rewrite Hls.
  rewrite (bind_run _ _ _ _ _ Hrun1).
  rewrite (bind_run _ _ _ _ _ Hrun2).
  rewrite (bind_run _ _ _ _ _ (copy_run _ _ _ Hs)).
  set (child := length (heap w)).
  erewrite rng_bind_run by (apply randrange_run; lia). cbn [heap rand].
  set (start := rand w 0 `mod` n).
  assert (Hstart : start < n) by (apply Nat.mod_upper_bound; lia).
  set (w1 := mkWorld (heap w ++ [s]) (fun i => rand w (S i))).
  assert (Hchild : heap w1 !! child = Some s).
  { unfold w1, child. simpl. rewrite lookup_app_r by lia.
    by rewrite Nat.sub_diag. }
  assert (Hloop : exists vis unv' elem' r',
    for_each (seq 0 (n - 1)) (er_step child) (mkEr orig (seq 0 n) start) w1
    = (Ok (mkEr (adj_of orig unv') unv' elem'),
       mkWorld (<[child := set_x (vis ++ drop (n - 1) (x s)) s]> (heap w1)) r')
    /\ length vis = n - 1
    /\ er_path orig (seq 0 n) start vis unv' elem').
  { destruct (decide (n = 1)) as [->|Hn1].
    - exists [], (seq 0 1), start, (rand w1). split; [|split; [done|constructor]].
      simpl. change [0] with (seq 0 1).
      rewrite (adj_of_full_from 1 (x s) (x o)) by done.
      change (drop 0 (x s)) with (x s). rewrite set_x_id.
      change (heap w ++ [s]) with (heap w1).
      by rewrite list_insert_id by done.
    - destruct (er_loop_run n orig child (n - 1) 0 (seq 0 n) start w1 s)
        as (vis & unv' & elem' & r' & Hrun & Hvis & Hpath); try done.
      + lia.
      + apply (wf_adj_from n (x s) (x o)); [lia|done..].
      + apply NoDup_seq.
      + apply elem_of_seq. lia.
      + intros u Hu%elem_of_seq. lia.
      + rewrite length_seq. lia.
      + exists vis, unv', elem', r'.
        rewrite (adj_of_full_from n (x s) (x o) orig) in Hrun by done.
        by rewrite take_0 in Hrun. }
  destruct Hloop as (vis & unv' & elem' & r' & Hloop & Hvis & Hpath).
  exists orig, start, vis, unv', elem', r'.
  split; [|auto].
  fold w1. rewrite (bind_run _ _ _ _ _ Hloop). cbn [elem].
  set (c1 := set_x (vis ++ drop (n - 1) (x s)) s).
  set (w2 := mkWorld (<[child := c1]> (heap w1)) r').
  assert (Hc1 : heap w2 !! child = Some c1).
  { unfold w2. simpl. apply list_lookup_insert_eq. by eapply lookup_lt_Some. }
  assert (Hlen1 : length (x c1) = n).
  { unfold c1. simpl. rewrite length_app, length_drop. lia. }
  rewrite (bind_run _ _ _ _ _ (write_last_run _ _ elem' _ Hc1 ltac:(lia))).
  set (c2 := set_x (<[length (x c1) - 1 := elem']> (x c1)) c1).
  set (w3 := mkWorld (<[child := c2]> (heap w2)) (rand w2)).
  assert (Hc2 : heap w3 !! child = Some c2).
  { unfold w3. simpl. apply list_lookup_insert_eq. by eapply lookup_lt_Some. }
  rewrite (bind_run _ _ _ _ _ (invalidate_at_run _ _ _ Hc2)).
  unfold mret, M_ret. f_equal. unfold w3, w2, w1. simpl.
  rewrite !list_insert_insert_eq. f_equal.
  replace child with (length (heap w) + 0) by (unfold child; lia).
  rewrite insert_app_r. simpl. f_equal. f_equal.
  unfold c2. rewrite Hlen1. unfold c1. simpl. unfold invalidate, set_x. simpl.
  f_equal.
  replace (n - 1) with (length vis + 0) at 1 by lia.
  rewrite insert_app_r.
  destruct (drop (n - 1) (x s)) as [|a [|b rest]] eqn:Hd; simpl;
    [| done |];
    apply (f_equal length) in Hd; rewrite length_drop in Hd; simpl in Hd; lia.
Qed.

(** C9: with both parents holding the same permutation [p] of 0,...,n-1,
    n >= 1, the edge recombination returns, whatever the generator draws, a
    child that is [p] read cyclically from some position, forwards or
    backwards. *)
Theorem edge_recombination_same_parents self other s o p w :
  heap w !! self = Some s -> heap w !! other = Some o ->
  x s = p -> x o = p -> is_perm (length p) p -> 1 <= length p ->
  exists child w' c,
    edge_recombination self other w = (Ok child, w')
    /\ heap w' !! child = Some c
    /\ same_tour p (x c).
Proof.
  intros Hs Ho Hxs Hxo Hp Hn.
  destruct (edge_recombination_run self other s o (length p) w)
    as (orig & start & vis & unv' & elem' & r' & Hrun & Hfrom & Hstart & Hvis & Hpath);
    try done; try (by rewrite ?Hxs, ?Hxo).
  rewrite Hxs, Hxo in Hfrom.
  eexists _, _, _. split; [exact Hrun|]. split.
  { simpl. rewrite lookup_app_r by lia. by rewrite Nat.sub_diag. }
  simpl. destruct (decide (length p = 1)) as [H1|H1].
  - rewrite H1 in *.
    destruct vis; [|simpl in Hvis; lia].
    assert (elem' = start) as -> by (by inversion Hpath).
    assert (start = 0) as -> by lia.
    exists 0. split; [lia|]. left. simpl.
    destruct p as [|a [|b p']]; simpl in H1; try lia.
    unfold is_perm in Hp. simpl in Hp. apply Permutation_singleton_r in Hp.
    by rewrite Hp.
  - apply (er_path_tour p orig start vis unv' elem'); try done. lia.
Qed.
End EdgeRun.

Lemma edge_recombination_same_parents_witness :
  exists child w' c,
    edge_recombination 0 1
      (Examples.store_of [1; 4; 6; 2; 0; 3; 5] [1; 4; 6; 2; 0; 3; 5] 0)
    = (Ok child, w')
    /\ heap w' !! child = Some c
    /\ same_tour [1; 4; 6; 2; 0; 3; 5] (x c).
Proof.
  apply (edge_recombination_same_parents 0 1
           (Examples.solution_of [1; 4; 6; 2; 0; 3; 5])
           (Examples.solution_of [1; 4; 6; 2; 0; 3; 5])
           [1; 4; 6; 2; 0; 3; 5]
           (Examples.store_of [1; 4; 6; 2; 0; 3; 5] [1; 4; 6; 2; 0; 3; 5] 0)).
  - reflexivity.
  - reflexivity.
  - reflexivity.
  - reflexivity.
  - unfold is_perm. apply (bool_decide_unpack _). vm_compute. exact I.
  - simpl. lia.
Defined.

(** ** Exchanges and shuffles rearrange *)

Section SwapPerm.
Context {A : Type}.
Implicit Types (l : list A).

Lemma insert_head_perm l j a b :
  l !! j = Some b -> b :: <[j := a]> l ≡ₚ a :: l.
Proof.
  revert j. induction l as [|c l IH]; intros [|j] Hj; simpl in *; try done.
  - injection Hj as ->. apply Permutation_swap.
  - rewrite (Permutation_swap c b). rewrite (IH j Hj). apply Permutation_swap.
Qed.

Lemma swap_perm l i j a b :
  l !! i = Some a -> l !! j = Some b -> <[j := a]> (<[i := b]> l) ≡ₚ l.
Proof.
  revert i j. induction l as [|c l IH]; intros [|i] [|j] Hi Hj; simpl in *; try done.
  - injection Hi as ->. by injection Hj as ->.
  - injection Hi as ->. by apply insert_head_perm.
  - injection Hj as ->. by apply insert_head_perm.
  - by rewrite (IH i j).
Qed.

Lemma exchange_perm l i j : exchange l i j ≡ₚ l.
Proof.
  unfold exchange.
  destruct (l !! j) as [vj|] eqn:Hj; [|done].
  destruct (l !! i) as [vi|] eqn:Hi; [|done].
  by apply swap_perm.
Qed.

Lemma shuffle_from_perm i l r : (shuffle_from i l r).1 ≡ₚ l.
Proof.
  revert l r. induction i as [|i IH]; intros l r; simpl; [done|].
  rewrite IH. apply exchange_perm.
Qed.

Lemma shuffle_perm l r : (shuffle l r).1 ≡ₚ l.
Proof. apply shuffle_from_perm. Qed.
End SwapPerm.

Lemma swap_items_perm (l v : list nat) p1 p2 :
  swap_items l p1 p2 = Some v -> v ≡ₚ l.
Proof.
  unfold swap_items. intros Hswap.
  destruct (l !! p2) as [v2|] eqn:H2; [|discriminate].
  destruct (l !! p1) as [v1|] eqn:H1; [|discriminate].
  simpl in Hswap. injection Hswap as <-. by apply swap_perm.
Qed.

(** ** The search keeps the vector a rearrangement *)

Section SearchPerm.
Context {Obj Aux : Type}.
Local Abbreviation Sol := (Solution Obj Aux).
Variable calc_objective : Sol -> Obj.
Variable is_better_obj : Obj -> Obj -> bool.
Variable hook : nat -> nat -> bool -> bool -> Sol -> bool * Sol.
Hypothesis hook_perm : forall p1 p2 u a s, x (hook p1 p2 u a s).2 ≡ₚ x s.

Lemma call_hook_perm p1 p2 u (st : search_state Obj Aux) :
  x (sol (call_hook hook p1 p2 u st).2) ≡ₚ x (sol st).
Proof using hook_perm.
  unfold call_hook. pose proof (hook_perm p1 p2 u false (sol st)) as Hp.
  by destruct (hook p1 p2 u false (sol st)).
Qed.

Lemma call_obj_perm (st : search_state Obj Aux) :
  x (sol (call_obj calc_objective st).2) = x (sol st).
Proof. by destruct (call_obj_x calc_objective st) as (-> & _). Qed.

Lemma revert_swap_perm orig p1 p2 ls :
  x (step_sol (revert_swap hook orig p1 p2 ls)) ≡ₚ x (sol (ls_state ls)).
Proof using hook_perm.
  unfold revert_swap.
  destruct (swap_items _ p1 p2) as [v|] eqn:Hswap; simpl; [|done].
  match goal with |- context [call_hook hook p1 p2 false ?st] =>
    pose proof (call_hook_perm p1 p2 false st) as Hp;
    destruct (call_hook hook p1 p2 false st) as [[] st2] end;
  simpl in *; rewrite Hp; by apply swap_items_perm in Hswap.
Qed.

Lemma attempt_perm bi orig p1 p2 ls :
  x (step_sol (attempt calc_objective is_better_obj hook bi orig p1 p2 ls))
  ≡ₚ x (sol (ls_state ls)).
Proof using hook_perm.
  unfold attempt.
  destruct (swap_items _ p1 p2) as [v|] eqn:Hswap; simpl; [|done].
  apply swap_items_perm in Hswap.
  match goal with |- context [call_hook hook p1 p2 true ?st] =>
    pose proof (call_hook_perm p1 p2 true st) as Hp;
    destruct (call_hook hook p1 p2 true st) as [feasible st2] end.
  simpl in Hp. rewrite Hswap in Hp.
  destruct feasible; [|done].
  pose proof (call_obj_perm st2) as H3.
  destruct (call_obj calc_objective st2) as [o st3]. simpl in H3.
  destruct (is_better_obj o _).
  - destruct bi; simpl.
    + pose proof (call_obj_perm st3) as H4.
      destruct (call_obj calc_objective st3) as [o' st4]. simpl in H4.
      rewrite revert_swap_perm. simpl. by rewrite H4, H3.
    + by rewrite H3.
  - rewrite revert_swap_perm. simpl. by rewrite H3.
Qed.

Lemma inner_loop_perm bi orig p1 seconds ls :
  x (step_sol (inner_loop calc_objective is_better_obj hook bi orig p1 seconds ls))
  ≡ₚ x (sol (ls_state ls)).
Proof using hook_perm.
  revert ls. induction seconds as [|p2 rest IH]; intros ls; simpl; [done|].
  pose proof (attempt_perm bi orig p1 p2 ls) as Ha.
  destruct (attempt _ _ _ bi orig p1 p2 ls) as [ls'| |]; try done.
  rewrite IH. done.
Qed.

Lemma outer_loop_perm bi orig order idx firsts ls :
  x (step_sol (outer_loop calc_objective is_better_obj hook bi orig order idx firsts ls))
  ≡ₚ x (sol (ls_state ls)).
Proof using hook_perm.
  revert idx ls. induction firsts as [|p1 rest IH]; intros idx ls; simpl; [done|].
  pose proof (inner_loop_perm bi orig p1 (drop (idx + 1) order) ls) as Ha.
  destruct (inner_loop _ _ _ bi orig p1 _ ls) as [ls'| |]; try done.
  rewrite IH. done.
Qed.

Lemma search_perm bi r s :
  x (sol (two_exchange_neighborhood_search calc_objective is_better_obj hook bi r s).2)
  ≡ₚ x s.
Proof using hook_perm.
  unfold two_exchange_neighborhood_search, search_in_order.
  destruct (shuffle _ r) as [order r']. simpl.
  pose proof (call_obj_perm (mkSearch s [])) as H0.
  destruct (call_obj calc_objective _) as [orig st0]. simpl in H0.
  pose proof (outer_loop_perm bi orig order 0 (take (inst_n s - 1) order)
                (mkLoop st0 orig None None)) as Ho.
  simpl in Ho. rewrite H0 in Ho.
  destruct (outer_loop _ _ _ _ _ _ _ _ _) as [ls|b st'|e st']; simpl in *; try done.
  unfold finish. destruct (truthy (best_p1 ls)); simpl; [|done].
  destruct (best_p1 ls), (best_p2 ls); simpl; try done.
  destruct (swap_items _ _ _) as [v|] eqn:Hswap; simpl; [|done].
  apply swap_items_perm in Hswap. by rewrite Hswap.
Qed.
End SearchPerm.

(** ** The position index *)

Lemma perm_of_inverse n pos v :
  length v = n -> (forall e, e ∈ v -> e < n) -> inverse_of pos v -> is_perm n v.
Proof.
  intros Hlen Hlt Hinv.
  assert (Hnd : NoDup v).
  { apply NoDup_alt. intros i j e Hi Hj.
    apply Hinv in Hi, Hj. congruence. }
  apply submseteq_length_Permutation.
  - apply NoDup_submseteq; [done|]. intros e He. apply elem_of_seq.
    specialize (Hlt e He). lia.
  - by rewrite length_seq, Hlen.
Qed.

Lemma inverse_of_perm n pos v e :
  is_perm n v -> inverse_of pos v -> e < n ->
  exists k, pos !! e = Some k /\ v !! k = Some e.
Proof.
  intros Hp Hinv He. destruct (is_perm_position n v e Hp He) as [k Hk].
  exists k. split; [by apply Hinv|done].
Qed.

Lemma build_pos_run n v pos0 :
  NoDup v -> (forall e, e ∈ v -> e < n) -> length pos0 = n ->
  exists pos,
    build_pos v pos0 = Ok pos /\ length pos = n /\ inverse_of pos v.
Proof.
  intros Hnd Hlt Hlen. unfold build_pos, enumerate.
  match goal with |- context [for_each _ ?f _] => set (body := f) end.
  assert (Hgen : forall rest k acc,
    NoDup rest -> (forall e, e ∈ rest -> e < length acc) ->
    exists pos,
      for_each (zip (seq k (length rest)) rest) body acc = Ok pos
      /\ length pos = length acc
      /\ (forall j e, rest !! j = Some e -> pos !! e = Some (k + j))
      /\ (forall e, e ∉ rest -> pos !! e = acc !! e)).
  { induction rest as [|e rest IH]; intros k acc Hndr Hltr.
    - exists acc. split; [done|]. split; [done|]. split; [|done].
      intros j e Hj. by rewrite lookup_nil in Hj.
    - apply NoDup_cons in Hndr as [He Hndr].
      destruct (IH (S k) (<[e := k]> acc)) as (pos & Hrun & Hl & Hin & Hout).
      + done.
      + intros e' He'. rewrite length_insert. apply Hltr. by right.
      + exists pos. split; [|split; [|split]].
        * simpl. unfold body at 1. unfold set_item.
          rewrite decide_True by (apply Hltr; left). simpl. exact Hrun.
        * by rewrite Hl, length_insert.
        * intros [|j] e' Hj; simpl in Hj.
          -- injection Hj as <-. rewrite Hout by done.
             rewrite Nat.add_0_r. apply list_lookup_insert_eq. apply Hltr. left.
          -- rewrite (Hin j e' Hj). f_equal. lia.
        * intros e' He'. rewrite Hout by (intros ?; apply He'; by right).
          apply list_lookup_insert_ne. intros ->. apply He'. left. }
  destruct (Hgen v 0 pos0) as (pos & Hrun & Hl & Hin & _); try done.
  { intros e He. rewrite Hlen. by apply Hlt. }
  exists pos. split; [done|]. split; [lia|]. intros k e Hk. by apply Hin.
Qed.

(** ** Partially mapped crossover *)

Section PmxRun.
Context {Obj Aux : Type}.
Local Abbreviation Sol := (Solution Obj Aux).
Local Abbreviation St := (M Obj Aux).
Implicit Types (w : world Obj Aux) (s o c : Sol).

Lemma pmx_inv_perm n v pos : pmx_inv n v pos -> is_perm n v.
Proof. intros (Hl & _ & Hlt & Hinv). by apply (perm_of_inverse n pos). Qed.

Lemma pmx_step_run n child other c o i pos w :
  heap w !! child = Some c -> heap w !! other = Some o -> child <> other ->
  is_perm n (x o) -> pmx_inv n (x c) pos -> i < n ->
  exists v pos',
    pmx_step child other i pos w
    = (Ok pos', mkWorld (<[child := set_x v c]> (heap w)) (rand w))
    /\ pmx_inv n v pos'.
Proof.
  intros Hc Ho Hne Hpo Hinv Hi.
  pose proof (pmx_inv_perm _ _ _ Hinv) as Hpc.
  destruct Hinv as (Hlen & Hlpos & Hlt & Hinv).
  destruct (lookup_lt_is_Some_2 (x o) i) as [e He].
  { rewrite (is_perm_length n (x o) Hpo). exact Hi. }
  assert (Hen : e < n) by exact (is_perm_lookup_lt n (x o) i e Hpo He).
  destruct (inverse_of_perm n pos (x c) e Hpc Hinv Hen) as (j & Hj & Hxj).
  assert (Hjn : j < n) by (apply lookup_lt_Some in Hxj; lia).
  unfold pmx_step.
  rewrite (bind_run _ _ _ _ _ (read_x_run _ _ _ _ _ Ho He)).
  erewrite lift_bind_run by (unfold get_item; by rewrite Hj).
  destruct (decide (i = j)) as [->|Hij].
  - exists (x c), pos. rewrite set_x_id, list_insert_id by done.
    rewrite world_eta. by repeat split.
  - destruct (lookup_lt_is_Some_2 (x c) i) as [e2 He2]; [lia|].
    assert (He2n : e2 < n) by (apply Hlt; by eapply list_elem_of_lookup_2).
    assert (Hee : e <> e2).
    { intros ->. apply Hinv in He2. congruence. }
    rewrite (bind_run _ _ _ _ _ (read_x_run _ _ _ _ _ Hc He2)).
    rewrite (bind_run _ _ _ _ _ (write_x_run _ _ i e _ Hc ltac:(lia))).
    set (c1 := set_x (<[i := e]> (x c)) c).
    set (w1 := mkWorld (<[child := c1]> (heap w)) (rand w)).
    assert (Hc1 : heap w1 !! child = Some c1).
    { simpl. apply list_lookup_insert_eq. by eapply lookup_lt_Some. }
    rewrite (bind_run _ _ _ _ _ (write_x_run _ _ j e2 _ Hc1
               ltac:(simpl; rewrite length_insert; lia))).
    erewrite lift_bind_run
      by (unfold set_item; rewrite decide_True by lia; reflexivity).
    unfold lift, set_item. rewrite decide_True by (rewrite length_insert; lia).
    exists (<[j := e2]> (<[i := e]> (x c))), (<[e2 := j]> (<[e := i]> pos)).
    split.
    { unfold w1, c1. simpl. by rewrite list_insert_insert_eq. }
    split; [by rewrite !length_insert|]. split; [by rewrite !length_insert|].
    assert (Hlook : forall k e', <[j := e2]> (<[i := e]> (x c)) !! k = Some e' ->
              (k = j /\ e' = e2) \/ (k = i /\ e' = e)
              \/ (k <> i /\ k <> j /\ x c !! k = Some e')).
    { intros k e' Hk. destruct (decide (k = j)) as [->|Hkj].
      - rewrite list_lookup_insert_eq in Hk by (rewrite length_insert; lia).
        left. split; congruence.
      - rewrite list_lookup_insert_ne in Hk by done.
        destruct (decide (k = i)) as [->|Hki].
        + rewrite list_lookup_insert_eq in Hk by lia. right. left. split; congruence.
        + rewrite list_lookup_insert_ne in Hk by done. tauto. }
    split.
    + intros e' [k Hk]%list_elem_of_lookup.
      destruct (Hlook k e' Hk) as [[_ ->]|[[_ ->]|(_ & _ & Hk')]]; try done.
      apply Hlt. by eapply list_elem_of_lookup_2.
    + intros k e' Hk.
      destruct (Hlook k e' Hk) as [[-> ->]|[[-> ->]|(Hki & Hkj & Hk')]].
      * apply list_lookup_insert_eq. rewrite length_insert. lia.
      * rewrite list_lookup_insert_ne by done.
        apply list_lookup_insert_eq. lia.
      * rewrite !list_lookup_insert_ne; [by apply Hinv| |].
        -- intros ->. apply Hinv in Hxj, Hk'. congruence.
        -- intros ->. apply Hinv in He2, Hk'. congruence.
Qed.

Lemma pmx_loop_run n child other o k : forall i c pos w,
  heap w !! child = Some c -> heap w !! other = Some o -> child <> other ->
  is_perm n (x o) -> pmx_inv n (x c) pos -> i + k <= n ->
  exists v pos',
    for_each (seq i k) (pmx_step child other) pos w
    = (Ok pos', mkWorld (<[child := set_x v c]> (heap w)) (rand w))
    /\ pmx_inv n v pos'.
Proof.
  induction k as [|k IH]; intros i c pos w Hc Ho Hne Hpo Hinv Hik.
  - exists (x c), pos. simpl. rewrite set_x_id, list_insert_id by done.
    by rewrite world_eta.
  - destruct (pmx_step_run n child other c o i pos w) as (v1 & pos1 & Hstep & Hinv1);
      try done; [lia|].
    set (w1 := mkWorld (<[child := set_x v1 c]> (heap w)) (rand w)) in *.
    destruct (IH (S i) (set_x v1 c) pos1 w1) as (v & pos' & Hloop & Hinv');
      try done.
    + simpl. apply list_lookup_insert_eq. by eapply lookup_lt_Some.
    + simpl. by rewrite list_lookup_insert_ne.
    + lia.
    + exists v, pos'. split; [|done].
      simpl. rewrite (bind_run _ _ _ _ _ Hstep). fold w1. rewrite Hloop.
      unfold w1. simpl. by rewrite list_insert_insert_eq.
Qed.

Lemma pmx_run uninit self other s o n w :
  heap w !! self = Some s -> heap w !! other = Some o ->
  is_perm n (x s) -> is_perm n (x o) -> 2 <= n ->
  exists v r',
    partially_mapped_crossover uninit self other w
    = (Ok (length (heap w)), mkWorld (heap w ++ [invalidate (set_x v s)]) r')
    /\ is_perm n v.
Proof.
  intros Hs Ho Hps Hpo Hn.
  pose proof (is_perm_length _ _ Hps) as Hls.
  unfold partially_mapped_crossover.
  rewrite (bind_run _ _ _ _ _ (len_x_run _ _ _ Hs)). rewrite Hls.
  rewrite (bind_run _ _ _ _ _ (pmx_cut_points_run n w Hn)).
  set (d1 := rand w 0 `mod` n). set (d2 := rand w 1 `mod` (n - 1)).
  assert (Hd1 : d1 < n) by (apply Nat.mod_upper_bound; lia).
  assert (Hd2 : d2 < n - 1) by (apply Nat.mod_upper_bound; lia).
  pose proof (order_cuts_window n d1 d2 Hd1 Hd2) as Hwin.
  destruct (order_cuts d1 d2) as [begin_ end_]. simpl in Hwin.
  set (w0 := mkWorld (heap w) (fun k => rand w (S (S k)))).
  rewrite (bind_run _ _ _ _ _ (copy_run self s w0 Hs)).
  set (child := length (heap w0)).
  set (w1 := mkWorld (heap w0 ++ [s]) (rand w0)).
  assert (Hchild : heap w1 !! child = Some s).
  { unfold w1, child. simpl. rewrite lookup_app_r by lia. by rewrite Nat.sub_diag. }
  assert (Hother : heap w1 !! other = Some o).
  { unfold w1. simpl. by apply lookup_app_l_Some. }
  assert (Hne : child <> other).
  { unfold child. simpl. apply lookup_lt_Some in Ho. lia. }
  rewrite (bind_run _ _ _ _ _ (get_x_run _ _ _ Hchild)).
  destruct (build_pos_run n (x s) (np_empty uninit n)) as (pos & Hpos & Hlpos & Hinv).
  { by eapply is_perm_NoDup. }
  { intros e He. by apply (is_perm_elem n (x s)). }
  { unfold np_empty. by rewrite length_map, length_seq. }
  erewrite lift_bind_run by exact Hpos.
  destruct (pmx_loop_run n child other o (end_ - begin_) begin_ s pos w1)
    as (v & pos' & Hloop & Hinv'); try done.
  { repeat split; try done. intros e He. by apply (is_perm_elem n (x s)). }
  { lia. }
  rewrite (bind_run _ _ _ _ _ Hloop).
  set (w2 := mkWorld (<[child := set_x v s]> (heap w1)) (rand w1)).
  assert (Hc2 : heap w2 !! child = Some (set_x v s)).
  { simpl. apply list_lookup_insert_eq. by eapply lookup_lt_Some. }
  rewrite (bind_run _ _ _ _ _ (invalidate_at_run _ _ _ Hc2)).
  exists v, (fun k => rand w (S (S k))). split; [|by eapply pmx_inv_perm].
  unfold mret, M_ret. f_equal. unfold w2, w1, w0, child. simpl.
  rewrite list_insert_insert_eq. f_equal.
  replace (length (heap w)) with (length (heap w) + 0) at 1 by lia.
  by rewrite insert_app_r.
Qed.
End PmxRun.

(** ** Cycle crossover *)

Lemma unassigned_le group : unassigned group <= length group.
Proof. apply length_filter. Qed.

Lemma unassigned_insert group j gid :
  group !! j = Some 0 -> gid <> 0 ->
  S (unassigned (<[j := gid]> group)) = unassigned group.
Proof.
  unfold unassigned. revert j.
  induction group as [|g group IH]; intros [|j] Hj Hgid; simpl in *; try done.
  - injection Hj as ->. rewrite filter_cons_False by done.
    by rewrite filter_cons_True by done.
  - rewrite !filter_cons. destruct (decide (g = 0)); simpl; rewrite (IH j); done.
Qed.

Section CycleRun.
Context {Obj Aux : Type}.
Local Abbreviation Sol := (Solution Obj Aux).
Local Abbreviation St := (M Obj Aux).
Implicit Types (w : world Obj Aux) (s o c : Sol).

Lemma walk_cycle_run n other o pos gid w fuel : forall j group,
  heap w !! other = Some o -> is_perm n (x o) ->
  (forall e, e < n -> exists k, pos !! e = Some k /\ k < n) ->
  length group = n -> j < n -> gid <> 0 -> unassigned group <= fuel ->
  exists group',
    walk_cycle fuel other pos gid j group w = (Ok group', w)
    /\ length group' = n.
Proof.
  induction fuel as [|fuel IH]; intros j group Ho Hpo Hpos Hlen Hj Hgid Hfuel;
    (destruct (lookup_lt_is_Some_2 group j) as [g Hg]; [lia|]);
    simpl; (erewrite lift_bind_run by (unfold get_item; by rewrite Hg));
    (destruct (decide (g = 0)) as [->|Hg0]; [|by exists group]).
  - pose proof (unassigned_insert group j gid Hg Hgid). lia.
  - erewrite lift_bind_run
      by (unfold set_item; rewrite decide_True by lia; reflexivity).
    destruct (lookup_lt_is_Some_2 (x o) j) as [e He].
    { by rewrite (is_perm_length n (x o) Hpo). }
    pose proof (is_perm_lookup_lt n (x o) j e Hpo He) as Hen.
    destruct (Hpos e Hen) as (k & Hk & Hkn).
    rewrite (bind_run _ _ _ _ _ (read_x_run _ _ _ _ _ Ho He)).
    erewrite lift_bind_run by (unfold get_item; by rewrite Hk).
    apply IH; try done.
    + by rewrite length_insert.
    + pose proof (unassigned_insert group j gid Hg Hgid). lia.
Qed.

Lemma detect_cycles_run n other o pos w :
  heap w !! other = Some o -> is_perm n (x o) ->
  (forall e, e < n -> exists k, pos !! e = Some k /\ k < n) ->
  exists group, detect_cycles other pos n w = (Ok group, w).
Proof.
  intros Ho Hpo Hpos. unfold detect_cycles.
  match goal with |- context [for_each _ ?f _] => set (body := f) end.
  assert (Hgen : forall k i group gid,
    i + k <= n -> length group = n -> gid <> 0 ->
    exists group' gid',
      for_each (seq i k) body (group, gid) w = (Ok (group', gid'), w)).
  { induction k as [|k IH]; intros i group gid Hik Hlen Hgid.
    - by exists group, gid.
    - destruct (lookup_lt_is_Some_2 group i) as [g Hg]; [lia|].
      assert (Hbody : exists group1 gid1,
        body i (group, gid) w = (Ok (group1, gid1), w)
        /\ length group1 = n /\ gid1 <> 0).
      { unfold body.
        erewrite lift_bind_run by (unfold get_item; by rewrite Hg).
        destruct (decide (g = 0)) as [->|Hg0]; [|by exists group, gid].
        destruct (walk_cycle_run n other o pos gid w n i group)
          as (group1 & Hwalk & Hlen1); try done; try lia.
        { rewrite <- Hlen. apply unassigned_le. }
        exists group1, (gid + 1). rewrite (bind_run _ _ _ _ _ Hwalk).
        split; [done|]. split; [done|lia]. }
      destruct Hbody as (group1 & gid1 & Hbody & Hlen1 & Hgid1).
      destruct (IH (S i) group1 gid1) as (group' & gid' & Hrest); try done; [lia|].
      exists group', gid'. simpl. fold body.
      by rewrite (bind_run _ _ _ _ _ Hbody). }
  destruct (Hgen n 0 (replicate n 0) 1) as (group & gid & Hrun); try done.
  { by rewrite length_replicate. }
  exists group. by rewrite (bind_run _ _ _ _ _ Hrun).
Qed.

Lemma fancy_read_run l o idx w :
  heap w !! l = Some o -> (forall k, k ∈ idx -> k < length (x o)) ->
  exists vals,
    fancy_read l idx w = (Ok vals, w)
    /\ Forall2 (fun k v => x o !! k = Some v) idx vals.
Proof.
  intros Hl Hidx. unfold fancy_read.
  rewrite (bind_run _ _ _ _ _ (get_obj_run _ _ _ Hl)). unfold lift.
  match goal with |- context [for_each _ ?f _] => set (body := f) end.
  assert (Hgen : forall rest acc,
    (forall k, k ∈ rest -> k < length (x o)) ->
    exists vals, for_each rest body acc = Ok (acc ++ vals)
      /\ Forall2 (fun k v => x o !! k = Some v) rest vals).
  { induction rest as [|k rest IH]; intros acc Hrest.
    - exists []. by rewrite app_nil_r.
    - destruct (lookup_lt_is_Some_2 (x o) k) as [v Hv]; [apply Hrest; left|].
      destruct (IH (acc ++ [v])) as (vals & Hrun & Hall).
      { intros k' Hk'. apply Hrest. by right. }
      exists (v :: vals). split; [|by constructor].
      assert (Hb : body k acc = Ok (acc ++ [v])).
      { unfold body, get_item. by rewrite Hv. }
      cbn [for_each]. rewrite Hb. cbn [mbind result_bind].
      rewrite Hrun. by rewrite <- app_assoc. }
  destruct (Hgen idx [] Hidx) as (vals & Hrun & Hall).
  exists vals. by rewrite Hrun.
Qed.

Lemma fancy_write_run child ox idx vals :
  Forall2 (fun k v => ox !! k = Some v) idx vals ->
  forall c w,
    heap w !! child = Some c -> length (x c) = length ox ->
    exists v',
      fancy_write child idx vals w
      = (Ok tt, mkWorld (<[child := set_x v' c]> (heap w)) (rand w))
      /\ length v' = length ox
      /\ (forall m, m ∈ idx -> v' !! m = ox !! m)
      /\ (forall m, m ∉ idx -> v' !! m = x c !! m).
Proof.
  unfold fancy_write.
  induction 1 as [|k v idx vals Hkv Hall IH]; intros c w Hc Hlen.
  - exists (x c). simpl. rewrite set_x_id, list_insert_id by done.
    rewrite world_eta. repeat split; try done.
    intros m Hm. by apply elem_of_nil in Hm.
  - assert (Hk : k < length (x c)) by (apply lookup_lt_Some in Hkv; lia).
    set (c1 := set_x (<[k := v]> (x c)) c).
    set (w1 := mkWorld (<[child := c1]> (heap w)) (rand w)).
    destruct (IH c1 w1) as (v' & Hrun & Hlen' & Hin & Hout).
    { simpl. apply list_lookup_insert_eq. by eapply lookup_lt_Some. }
    { simpl. by rewrite length_insert. }
    exists v'. split; [|split; [done|split]].
    + simpl. rewrite (bind_run _ _ _ _ _ (write_x_run _ _ k v _ Hc Hk)).
      fold c1 w1. rewrite Hrun. unfold w1. simpl.
      by rewrite list_insert_insert_eq.
    + intros m Hm. destruct (decide (m ∈ idx)) as [Hmi|Hmi]; [by apply Hin|].
      apply elem_of_cons in Hm as [->|Hm]; [|done].
      rewrite Hout by done. simpl. rewrite list_lookup_insert_eq by done.
      by rewrite Hkv.
    + intros m Hm. rewrite Hout by (intros ?; apply Hm; by right).
      simpl. apply list_lookup_insert_ne. intros ->. apply Hm. left.
Qed.
End CycleRun.

Section CycleExchange.
Context {Obj Aux : Type}.
Local Abbreviation Sol := (Solution Obj Aux).
Local Abbreviation St := (M Obj Aux).
Implicit Types (w : world Obj Aux) (s o c : Sol).

(** The whole-array assignment [child.x[pos] = other.x[pos]] makes the child's
    vector equal to the other parent's. *)
Lemma overwrite_run n child other c o xs pos w :
  heap w !! child = Some c -> heap w !! other = Some o ->
  is_perm n xs -> is_perm n (x o) -> length (x c) = n ->
  inverse_of pos xs -> length pos = n ->
  (vals ← fancy_read other pos; fancy_write child pos vals) w
  = (Ok tt, mkWorld (<[child := set_x (x o) c]> (heap w)) (rand w)).
Proof.
  intros Hc Ho Hps Hpo Hlen Hinv Hlpos.
  pose proof (is_perm_length _ _ Hpo) as Hlo.
  assert (Hbound : forall k, k ∈ pos -> k < n).
  { intros k [e He]%list_elem_of_lookup.
    assert (Hen : e < n) by (apply lookup_lt_Some in He; lia).
    destruct (inverse_of_perm n pos xs e Hps Hinv Hen) as (k' & Hk' & Hx).
    apply lookup_lt_Some in Hx. rewrite (is_perm_length n xs Hps) in Hx.
    congruence. }
  assert (Hall : forall m, m < n -> m ∈ pos).
  { intros m Hm.
    destruct (lookup_lt_is_Some_2 xs m) as [e He];
      [by rewrite (is_perm_length n xs Hps)|].
    apply list_elem_of_lookup. exists e. by apply Hinv. }
  destruct (fancy_read_run other o pos w Ho) as (vals & Hread & Hvals).
  { intros k Hk. rewrite Hlo. by apply Hbound. }
  rewrite (bind_run _ _ _ _ _ Hread).
  destruct (fancy_write_run child (x o) pos vals Hvals c w Hc)
    as (v' & Hwrite & Hlen' & Hin & _); [lia|].
  rewrite Hwrite. assert (v' = x o) as ->; [|done].
  apply list_eq. intros m. destruct (decide (m < n)) as [Hm|Hm].
  - by apply Hin, Hall.
  - rewrite !lookup_ge_None_2; [done|lia..].
Qed.

Lemma cx_loop_run n child other o xs pos k : forall i c w,
  heap w !! child = Some c -> heap w !! other = Some o -> child <> other ->
  is_perm n xs -> is_perm n (x o) -> inverse_of pos xs -> length pos = n ->
  i + k <= n ->
  (x c = xs /\ forall m e, m < i -> xs !! m = Some e -> e mod 2 <> 1) \/ x c = x o ->
  exists v,
    for_each (seq i k) (cx_step child other pos) tt w
    = (Ok tt, mkWorld (<[child := set_x v c]> (heap w)) (rand w))
    /\ ((v = xs /\ forall m e, m < i + k -> xs !! m = Some e -> e mod 2 <> 1)
        \/ v = x o).
Proof.
  induction k as [|k IH]; intros i c w Hc Ho Hne Hps Hpo Hinv Hlpos Hik Hcase.
  - exists (x c). simpl. rewrite set_x_id, list_insert_id by done.
    rewrite world_eta. split; [done|]. by rewrite Nat.add_0_r.
  - assert (Hlen : length (x c) = n).
    { destruct Hcase as [[-> _]| ->]; by apply is_perm_length. }
    destruct (lookup_lt_is_Some_2 (x c) i) as [e He]; [lia|].
    assert (Hstep : exists v1,
      cx_step child other pos i tt w
      = (Ok tt, mkWorld (<[child := set_x v1 c]> (heap w)) (rand w))
      /\ ((v1 = xs /\ forall m e, m < S i -> xs !! m = Some e -> e mod 2 <> 1)
          \/ v1 = x o)).
    { unfold cx_step.
      rewrite (bind_run _ _ _ _ _ (read_x_run _ _ _ _ _ Hc He)).
      destruct (decide (e mod 2 = 1)) as [Hodd|Heven].
      - exists (x o). split; [|by right].
        by apply (overwrite_run n child other c o xs pos w).
      - exists (x c). rewrite set_x_id, list_insert_id by done.
        rewrite world_eta. split; [done|].
        destruct Hcase as [[Hx Hprev]|Hx]; [left|by right].
        split; [done|]. intros m e' Hm He'.
        destruct (decide (m = i)) as [->|Hmi]; [|apply (Hprev m); [lia|done]].
        rewrite Hx in He. congruence. }
    destruct Hstep as (v1 & Hstep & Hcase1).
    set (w1 := mkWorld (<[child := set_x v1 c]> (heap w)) (rand w)) in *.
    destruct (IH (S i) (set_x v1 c) w1) as (v & Hloop & Hcase'); try done.
    + simpl. apply list_lookup_insert_eq. by eapply lookup_lt_Some.
    + simpl. by rewrite list_lookup_insert_ne.
    + lia.
    + exists v. split.
      * simpl. rewrite (bind_run _ _ _ _ _ Hstep). fold w1. rewrite Hloop.
        unfold w1. simpl. by rewrite list_insert_insert_eq.
      * by replace (i + S k) with (S i + k) by lia.
Qed.

(** With permutations of 0,...,n-1 as parents the cycle crossover returns a
    copy of the second parent and draws nothing. *)
Theorem cycle_crossover_copies_other uninit self other s o n w :
  heap w !! self = Some s -> heap w !! other = Some o ->
  is_perm n (x s) -> is_perm n (x o) -> 1 <= n ->
  cycle_crossover uninit self other w
  = (Ok (length (heap w)),
     mkWorld (heap w ++ [invalidate (set_x (x o) s)]) (rand w)).
Proof.
  intros Hs Ho Hps Hpo Hn.
  pose proof (is_perm_length _ _ Hps) as Hls.
  unfold cycle_crossover.
  rewrite (bind_run _ _ _ _ _ (len_x_run _ _ _ Hs)). rewrite Hls.
  rewrite (bind_run _ _ _ _ _ (get_x_run _ _ _ Hs)).
  destruct (build_pos_run n (x s) (np_empty uninit n)) as (pos & Hpos & Hlpos & Hinv).
  { by eapply is_perm_NoDup. }
  { intros e He. by apply (is_perm_elem n (x s)). }
  { unfold np_empty. by rewrite length_map, length_seq. }
  erewrite lift_bind_run by exact Hpos.
  destruct (detect_cycles_run n other o pos w Ho Hpo) as (group & Hdetect).
  { intros e He. destruct (inverse_of_perm n pos (x s) e Hps Hinv He) as (k & Hk & Hx).
    exists k. split; [done|]. apply lookup_lt_Some in Hx. lia. }
  rewrite (bind_run _ _ _ _ _ Hdetect).
  rewrite (bind_run _ _ _ _ _ (copy_run self s w Hs)).
  set (child := length (heap w)).
  set (w1 := mkWorld (heap w ++ [s]) (rand w)).
  assert (Hchild : heap w1 !! child = Some s).
  { unfold w1, child. simpl. rewrite lookup_app_r by lia. by rewrite Nat.sub_diag. }
  assert (Hother : heap w1 !! other = Some o).
  { unfold w1. simpl. by apply lookup_app_l_Some. }
  assert (Hne : child <> other).
  { unfold child. apply lookup_lt_Some in Ho. lia. }
  destruct (cx_loop_run n child other o (x s) pos n 0 s w1)
    as (v & Hloop & Hcase); try done.
  { left. split; [done|]. intros m e Hm. lia. }
  rewrite (bind_run _ _ _ _ _ Hloop).
  assert (Hv : v = x o).
  { destruct Hcase as [[-> Heven]|Hv]; [|done].
    destruct (decide (n = 1)) as [->|Hn1].
    - unfold is_perm in Hps, Hpo. simpl in Hps, Hpo.
      apply Permutation_singleton_r in Hps, Hpo. congruence.
    - exfalso. destruct (is_perm_position n (x s) 1 Hps) as [m Hm]; [lia|].
      apply (Heven m 1); [|done|done].
      apply lookup_lt_Some in Hm. lia. }
  subst v.
  set (w2 := mkWorld (<[child := set_x (x o) s]> (heap w1)) (rand w1)).
  assert (Hc2 : heap w2 !! child = Some (set_x (x o) s)).
  { simpl. apply list_lookup_insert_eq. by eapply lookup_lt_Some. }
  rewrite (bind_run _ _ _ _ _ (invalidate_at_run _ _ _ Hc2)).
  unfold mret, M_ret. f_equal. unfold w2, w1, child. simpl.
  rewrite list_insert_insert_eq. f_equal.
  replace (length (heap w)) with (length (heap w) + 0) at 1 by lia.
  by rewrite insert_app_r.
Qed.
End CycleExchange.

(** ** The invariant of the class *)

Lemma er_child_perm n orig start vis unv' elem' :
  er_path orig (seq 0 n) start vis unv' elem' ->
  start < n -> length vis = n - 1 -> 1 <= n ->
  is_perm n (vis ++ [elem']).
Proof.
  intros Hpath Hstart Hvis Hn.
  destruct (er_path_perm orig (seq 0 n) start vis unv' elem' Hpath)
    as (Hperm & Hin & Hnd).
  { apply NoDup_seq. }
  { apply elem_of_seq. lia. }
  assert (Hlen : length unv' = 1).
  { apply Permutation_length in Hperm.
    rewrite length_seq, length_app in Hperm. lia. }
  destruct unv' as [|u [|u' rest]]; simpl in Hlen; try lia.
  apply list_elem_of_singleton in Hin as ->.
  unfold is_perm. by rewrite Hperm.
Qed.

Section Operators.
Context {Obj Aux : Type}.
Local Abbreviation Sol := (Solution Obj Aux).
Implicit Types (w : world Obj Aux) (s o : Sol).

(** The test of [check] on the two sets holds exactly of the permutations
    of 0,...,length-1. *)
Lemma same_sets_is_perm (v : list nat) :
  v ⊆ seq 0 (length v) /\ seq 0 (length v) ⊆ v <-> is_perm (length v) v.
Proof.
  unfold is_perm. split.
  - intros [_ Hsub]. symmetry.
    apply submseteq_length_Permutation; [|by rewrite length_seq].
    apply NoDup_submseteq; [apply NoDup_seq|done].
  - intros Hp. split; intros e He.
    + by rewrite <- Hp.
    + by rewrite Hp.
Qed.

(** After a base check that passes, [check] accepts exactly the
    permutations of 0,...,length-1. *)
Lemma check_is_perm base_check s s' :
  base_check s = (Ok tt, s') ->
  (check base_check s).1 = Ok tt <-> is_perm (length (x s')) (x s').
Proof.
  intros Hb. unfold check. rewrite Hb. rewrite <- same_sets_is_perm.
  by case_decide.
Qed.

Lemma initialize_perm (r : rng) s : x (initialize r s).1 ≡ₚ x s.
Proof.
  unfold initialize. pose proof (shuffle_perm (x s) r) as Hp.
  by destruct (shuffle (x s) r).
Qed.

(** Every operator but one keeps the invariant of the class: applied to
    permutations of 0,...,n-1 it leaves or returns a permutation of
    0,...,n-1, whatever the generators draw.  The search does so for any hook
    that keeps the vector a rearrangement of itself, also when it raises.
    The partially mapped crossover needs n >= 2. *)
Theorem operators_keep_permutations (n : nat) :
  1 <= n ->
  (forall (r : rng) s, is_perm n (x s) -> is_perm n (x (initialize r s).1))
  /\ (forall calc_objective is_better_obj hook best_improvement (r : rng) s,
        (forall p1 p2 u a s', x (hook p1 p2 u a s').2 ≡ₚ x s') ->
        is_perm n (x s) ->
        is_perm n (x (sol (two_exchange_neighborhood_search (Obj := Obj)
                             calc_objective is_better_obj hook best_improvement r s).2)))
  /\ (forall uninit self other s o w,
        heap w !! self = Some s -> heap w !! other = Some o ->
        is_perm n (x s) -> is_perm n (x o) ->
        (2 <= n ->
           exists v, child_x (partially_mapped_crossover uninit self other w) = Some v
                     /\ is_perm n v)
        /\ (exists v, child_x (cycle_crossover uninit self other w) = Some v
                      /\ is_perm n v)
        /\ (exists v, child_x (edge_recombination self other w) = Some v
                      /\ is_perm n v)).
Proof.
  intros Hn. split; [|split].
  - intros r s Hp. unfold is_perm in *. by rewrite initialize_perm.
  - intros calc is_better hook bi r s Hhook Hp. unfold is_perm in *.
    by rewrite (search_perm calc is_better hook Hhook).
  - intros uninit self other s o w Hs Ho Hps Hpo.
    assert (Hlast : forall (v : list nat) s' (h : list Sol),
      x <$> (h ++ [invalidate (set_x v s')]) !! length h = Some v).
    { intros v s' h. rewrite lookup_app_r by lia. by rewrite Nat.sub_diag. }
    split; [|split].
    + intros Hn2.
      destruct (pmx_run uninit self other s o n w Hs Ho Hps Hpo Hn2)
        as (v & r' & -> & Hv).
      exists v. split; [apply Hlast|done].
    + rewrite (cycle_crossover_copies_other uninit self other s o n w) by done.
      exists (x o). split; [apply Hlast|done].
    + destruct (edge_recombination_run self other s o n w Hs Ho Hps Hpo Hn)
        as (orig & start & vis & unv' & elem' & r' & -> & _ & Hstart & Hvis & Hpath).
      exists (vis ++ [elem']). split; [apply Hlast|].
      by apply (er_child_perm n orig start vis unv' elem').
Qed.

(** C1 fails at n = 1 for the partially mapped crossover: the second cut
    point is drawn with [random.randrange(0)], which raises [ValueError], so
    no child is returned, whatever the generator holds. *)
Theorem pmx_single_position_raises (uninit : nat -> nat) (r : rng) (obj : Obj) (a : Aux) :
  let parent := mkSolution [0] obj false 1 a in
  is_perm 1 (x parent)
  /\ (partially_mapped_crossover uninit 0 1 (mkWorld [parent; parent] r)).1
     = Raise ValueError
  /\ child_x (partially_mapped_crossover uninit 0 1 (mkWorld [parent; parent] r))
     = None.
Proof.
  cbv zeta. split; [unfold is_perm; reflexivity|]. split; reflexivity.
Qed.
End Operators.

(** ** What the search reports *)

Section SearchShape.
Context {Obj Aux : Type}.
Local Abbreviation Sol := (Solution Obj Aux).
Variable calc_objective : Sol -> Obj.
Variable is_better_obj : Obj -> Obj -> bool.
Variable hook : nat -> nat -> bool -> bool -> Sol -> bool * Sol.

Local Abbreviation attempt' := (attempt calc_objective is_better_obj hook).
Local Abbreviation inner' := (inner_loop calc_objective is_better_obj hook).
Local Abbreviation outer' := (outer_loop calc_objective is_better_obj hook).
Local Abbreviation search' := (two_exchange_neighborhood_search calc_objective is_better_obj hook).

Lemma call_obj_val (st : search_state Obj Aux) :
  obj_val (sol (call_obj calc_objective st).2) = (call_obj calc_objective st).1.
Proof.
  unfold call_obj, obj. destruct st as [s c]; simpl.
  by destruct (obj_val_valid s).
Qed.

Lemma default_delta_eval_steady : steady (default_delta_eval (Obj := Obj) (Aux := Aux)).
Proof. intros p1 p2 [] a s; by split. Qed.

(** *** Runs of the search for any hook *)

Lemma revert_exits bi orig p1 p2 ls :
  (bi = false -> best_obj ls = orig /\ best_p1 ls = None) ->
  exits_better is_better_obj bi orig (revert_swap hook orig p1 p2 ls).
Proof.
  intros Hls. unfold revert_swap.
  destruct (swap_items _ p1 p2); simpl; [|done].
  destruct (call_hook hook p1 p2 false _) as [[] st2]; simpl; done.
Qed.

Lemma attempt_exits bi orig p1 p2 ls :
  (bi = false -> best_obj ls = orig /\ best_p1 ls = None) ->
  exits_better is_better_obj bi orig (attempt' bi orig p1 p2 ls).
Proof.
  intros Hls. unfold attempt.
  destruct (swap_items _ p1 p2); simpl; [|done].
  destruct (call_hook hook p1 p2 true _) as [[] st2]; simpl; [|done].
  pose proof (call_obj_val st2) as Hval.
  destruct (call_obj calc_objective st2) as [o st3]. simpl in Hval.
  destruct (is_better_obj o (best_obj ls)) eqn:Hb.
  - destruct bi; simpl.
    + destruct (call_obj calc_objective st3) as [o' st4].
      apply revert_exits. done.
    + split; [done|]. intros _. destruct Hls as [<- _]; [done|]. by rewrite Hval.
  - by apply revert_exits.
Qed.

Lemma inner_exits bi orig p1 seconds ls :
  (bi = false -> best_obj ls = orig /\ best_p1 ls = None) ->
  exits_better is_better_obj bi orig (inner' bi orig p1 seconds ls).
Proof.
  revert ls. induction seconds as [|p2 rest IH]; intros ls Hls; simpl; [done|].
  pose proof (attempt_exits bi orig p1 p2 ls Hls) as Ha.
  destruct (attempt' bi orig p1 p2 ls); auto.
Qed.

Lemma outer_exits bi orig order idx firsts ls :
  (bi = false -> best_obj ls = orig /\ best_p1 ls = None) ->
  exits_better is_better_obj bi orig (outer' bi orig order idx firsts ls).
Proof.
  revert idx ls. induction firsts as [|p1 rest IH]; intros idx ls Hls; simpl; [done|].
  pose proof (inner_exits bi orig p1 (drop (idx + 1) order) ls Hls) as Ha.
  destruct (inner' bi orig p1 _ ls); auto.
Qed.

(** X4: what the answer of the search means, for any hook.  When the search
    returns [False] the cached objective is the one the search started
    from; when it returns [True] in first-improvement mode the cached
    objective is better than the one it started from. *)
Theorem search_answers (best_improvement : bool) (r : rng) (s : Sol)
    (b : bool) (st : search_state Obj Aux) :
  search' best_improvement r s = (Ok b, st) ->
  if b then
    best_improvement = false ->
    is_better_obj (obj_val (sol st)) (obj calc_objective s).1 = true
  else obj_val (sol st) = (obj calc_objective s).1.
Proof.
  unfold two_exchange_neighborhood_search, search_in_order.
  destruct (shuffle _ r) as [order r']. simpl.
  assert (Horig : (call_obj calc_objective (mkSearch s [])).1 = (obj calc_objective s).1).
  { unfold call_obj. simpl. by destruct (obj calc_objective s). }
  destruct (call_obj calc_objective (mkSearch s [])) as [orig st0]. simpl in Horig.
  subst orig.
  pose proof (outer_exits best_improvement (obj calc_objective s).1 order 0
                (take (inst_n s - 1) order)
                (mkLoop st0 (obj calc_objective s).1 None None)) as Ho.
  destruct (outer' _ _ _ _ _ _) as [ls|b' st'|e st']; simpl in Ho.
  - unfold finish. destruct (truthy (best_p1 ls)) eqn:Ht.
    + destruct (best_p1 ls) as [b1|] eqn:H1; [|done].
      destruct (best_p2 ls); [|done].
      destruct (swap_items _ _ _); [|done].
      intros [= <- <-]. intros Hbi. destruct Ho as [_ Hnone]; done.
    + by intros [= <- <-].
  - intros [= <- <-]. destruct Ho as [-> Hbetter]; [done..|]. exact Hbetter.
  - done.
Qed.
End SearchShape.

Lemma search_answers_witness :
  Nat.ltb
    (obj_val (sol (two_exchange_neighborhood_search Examples.first_entry Nat.ltb
                     default_delta_eval false (fun _ => 0)
                     (Examples.solution_of [1; 0])).2))
    (obj Examples.first_entry (Examples.solution_of [1; 0])).1 = true.
Proof.
  refine (search_answers Examples.first_entry Nat.ltb default_delta_eval
            false (fun _ => 0) (Examples.solution_of [1; 0]) true _ _ eq_refl).
  vm_compute. reflexivity.
Defined.

(** ** The calls of the hook *)

Section Paired.
Context {Obj Aux : Type}.
Local Abbreviation Sol := (Solution Obj Aux).
Variable calc_objective : Sol -> Obj.
Variable is_better_obj : Obj -> Obj -> bool.
Variable hook : nat -> nat -> bool -> bool -> Sol -> bool * Sol.

Local Abbreviation attempt' := (attempt calc_objective is_better_obj hook).
Local Abbreviation inner' := (inner_loop calc_objective is_better_obj hook).
Local Abbreviation outer' := (outer_loop calc_objective is_better_obj hook).
Local Abbreviation search' := (two_exchange_neighborhood_search calc_objective is_better_obj hook).

Lemma call_obj_calls (st : search_state Obj Aux) :
  hook_calls (call_obj calc_objective st).2 = hook_calls st.
Proof. by destruct (call_obj_x calc_objective st) as (_ & -> & _). Qed.

Lemma revert_paired orig p1 p2 ls c :
  hook_calls (ls_state ls) = (p1, p2, true, true) :: c -> paired c ->
  calls_paired (revert_swap hook orig p1 p2 ls).
Proof.
  intros Hc Hp. unfold revert_swap.
  destruct (swap_items _ p1 p2); simpl.
  - unfold call_hook. simpl.
    destruct (hook p1 p2 false false _) as [ok s']; simpl.
    destruct ok; simpl; rewrite Hc; [|left]; by constructor.
  - right. by exists p1, p2, c.
Qed.

Lemma attempt_paired bi orig p1 p2 ls :
  paired (hook_calls (ls_state ls)) -> calls_paired (attempt' bi orig p1 p2 ls).
Proof.
  intros Hp. unfold attempt.
  destruct (swap_items _ p1 p2); simpl; [|by left].
  unfold call_hook. simpl.
  destruct (hook p1 p2 true false _) as [feasible s2]; simpl.
  destruct feasible; [|by constructor].
  set (st2 := mkSearch s2 _).
  pose proof (call_obj_calls st2) as H3.
  destruct (call_obj calc_objective st2) as [o st3]. simpl in H3.
  destruct (is_better_obj o _).
  - destruct bi; simpl.
    + pose proof (call_obj_calls st3) as H4.
      destruct (call_obj calc_objective st3) as [o' st4]. simpl in H4.
      apply (revert_paired _ _ _ _ (hook_calls (ls_state ls))); [|done].
      simpl. by rewrite H4, H3.
    + right. exists p1, p2, (hook_calls (ls_state ls)). by rewrite H3.
  - apply (revert_paired _ _ _ _ (hook_calls (ls_state ls))); [|done].
    simpl. by rewrite H3.
Qed.

Lemma inner_paired bi orig p1 seconds ls :
  paired (hook_calls (ls_state ls)) -> calls_paired (inner' bi orig p1 seconds ls).
Proof.
  revert ls. induction seconds as [|p2 rest IH]; intros ls Hp; simpl; [done|].
  pose proof (attempt_paired bi orig p1 p2 ls Hp) as Ha.
  destruct (attempt' bi orig p1 p2 ls); auto.
Qed.

Lemma outer_paired bi orig order idx firsts ls :
  paired (hook_calls (ls_state ls)) ->
  calls_paired (outer' bi orig order idx firsts ls).
Proof.
  revert idx ls. induction firsts as [|p1 rest IH]; intros idx ls Hp; simpl; [done|].
  pose proof (inner_paired bi orig p1 (drop (idx + 1) order) ls Hp) as Ha.
  destruct (inner' bi orig p1 _ ls); auto.
Qed.

(** X5: the discipline of the hook calls, for any hook and in either mode.
    Read from the first call on, every call with [update_obj_val=True] that
    is answered true is followed at once by the call with
    [update_obj_val=False] for the same two positions, before any other
    pair is tried; a call answered false has no such partner.  Only the
    last accepted call of a search that returns early or raises may stay
    without its partner, and a search that returns [False] leaves none
    open. *)
Theorem hook_calls_are_paired (best_improvement : bool) (r : rng) (s : Sol) :
  let run := search' best_improvement r s in
  (paired (hook_calls run.2)
   \/ exists p1 p2 c, hook_calls run.2 = (p1, p2, true, true) :: c /\ paired c)
  /\ (run.1 = Ok false -> paired (hook_calls run.2)).
Proof.
  unfold two_exchange_neighborhood_search, search_in_order.
  destruct (shuffle _ r) as [order r']. simpl.
  pose proof (call_obj_calls (mkSearch s [])) as H0.
  destruct (call_obj calc_objective (mkSearch s [])) as [orig st0]. simpl in H0.
  assert (Hp0 : paired (hook_calls st0)) by (rewrite H0; constructor).
  pose proof (outer_paired best_improvement orig order 0
                (take (inst_n s - 1) order) (mkLoop st0 orig None None) Hp0) as Ho.
  pose proof (outer_exits calc_objective is_better_obj hook best_improvement orig
                order 0 (take (inst_n s - 1) order) (mkLoop st0 orig None None)) as He.
  destruct (outer' _ _ _ _ _ _) as [ls|b st'|e st']; simpl in Ho, He.
  - assert (Hfin : paired (hook_calls (finish orig ls).2)).
    { unfold finish. destruct (truthy (best_p1 ls)); [|done].
      destruct (best_p1 ls), (best_p2 ls); try done.
      by destruct (swap_items _ _ _). }
    split; [by left|done].
  - simpl. split; [done|]. destruct He as [-> _]; [done|]. done.
  - simpl. split; [done|]. done.
Qed.
End Paired.

(** ** The search with a hook that leaves the vector alone *)

Lemma swap_items_in_range (l : list nat) p1 p2 :
  p1 < length l -> p2 < length l -> exists v, swap_items l p1 p2 = Some v.
Proof.
  intros H1 H2. unfold swap_items.
  destruct (lookup_lt_is_Some_2 l p2 H2) as [v2 ->].
  destruct (lookup_lt_is_Some_2 l p1 H1) as [v1 ->]. simpl. eauto.
Qed.

Lemma swap_items_length (l v : list nat) p1 p2 :
  swap_items l p1 p2 = Some v -> length v = length l.
Proof. intros H. apply swap_items_perm in H. by rewrite H. Qed.

Section AllPairs.
Lemma all_pairs_length (l : list nat) :
  2 * length (all_pairs l) = length l * (length l - 1).
Proof.
  induction l as [|a l IH]; [done|].
  cbn [all_pairs]. rewrite length_app, length_map. simpl length.
  destruct l as [|b l]; [done|]. simpl length in *. nia.
Qed.

Lemma both_calls_length (ps : list (nat * nat)) :
  length (flat_map both_calls ps) = 2 * length ps.
Proof. induction ps as [|p ps IH]; [done|]. simpl. lia. Qed.

Lemma all_pairs_elem (l : list nat) a b :
  (a, b) ∈ all_pairs l
  <-> exists i j, i < j /\ l !! i = Some a /\ l !! j = Some b.
Proof.
  induction l as [|c l IH]; cbn [all_pairs].
  - split; [by intros ?%elem_of_nil|]. by intros (i & j & _ & ? & _).
  - rewrite elem_of_app, list_elem_of_fmap, IH. split.
    + intros [(y & [= -> ->] & Hin)|(i & j & Hij & Hi & Hj)].
      * apply list_elem_of_lookup in Hin as [j Hj].
        exists 0, (S j). split; [lia|]. by split.
      * exists (S i), (S j). split; [lia|]. by split.
    + intros (i & j & Hij & Hi & Hj). destruct i as [|i].
      * destruct j as [|j]; [lia|]. simpl in Hi, Hj. injection Hi as ->.
        left. exists b. split; [done|]. by eapply list_elem_of_lookup_2.
      * destruct j as [|j]; [lia|]. simpl in Hi, Hj.
        right. exists i, j. split; [lia|]. by split.
Qed.

Lemma all_pairs_NoDup (l : list nat) : NoDup l -> NoDup (all_pairs l).
Proof.
  induction l as [|c l IH]; intros Hnd; cbn [all_pairs]; [constructor|].
  apply NoDup_cons in Hnd as [Hc Hnd]. apply NoDup_app. split; [|split].
  - apply NoDup_fmap_2; [|done]. by intros ?? [=].
  - intros [a b] (y & [= -> ->] & Hin)%list_elem_of_fmap
      (i & j & _ & Hi & _)%all_pairs_elem.
    apply Hc. by eapply list_elem_of_lookup_2.
  - by apply IH.
Qed.

Lemma all_pairs_once (l : list nat) a b :
  NoDup l -> a ∈ l -> b ∈ l -> a <> b ->
  ((a, b) ∈ all_pairs l /\ (b, a) ∉ all_pairs l)
  \/ ((b, a) ∈ all_pairs l /\ (a, b) ∉ all_pairs l).
Proof.
  intros Hnd [i Hi]%list_elem_of_lookup [j Hj]%list_elem_of_lookup Hab.
  assert (i <> j) as Hij by (intros ->; congruence).
  assert (forall a' b' i' j', l !! i' = Some a' -> l !! j' = Some b' -> i' < j' ->
            (a', b') ∈ all_pairs l /\ (b', a') ∉ all_pairs l) as Hone.
  { intros a' b' i' j' Hi' Hj' Hlt. split.
    - apply all_pairs_elem. by exists i', j'.
    - intros (i2 & j2 & Hlt2 & Hi2 & Hj2)%all_pairs_elem.
      pose proof (NoDup_lookup _ _ _ _ Hnd Hi2 Hj').
      pose proof (NoDup_lookup _ _ _ _ Hnd Hj2 Hi'). lia. }
  destruct (decide (i < j)).
  - left. by eapply Hone.
  - right. eapply Hone; [exact Hj|exact Hi|lia].
Qed.
End AllPairs.

Section SteadySearch.
Context {Obj Aux : Type}.
Local Abbreviation Sol := (Solution Obj Aux).
Variable calc_objective : Sol -> Obj.
Variable is_better_obj : Obj -> Obj -> bool.
Variable hook : nat -> nat -> bool -> bool -> Sol -> bool * Sol.
Hypothesis hook_steady : steady hook.

Local Abbreviation attempt' := (attempt calc_objective is_better_obj hook).
Local Abbreviation inner' := (inner_loop calc_objective is_better_obj hook).
Local Abbreviation outer' := (outer_loop calc_objective is_better_obj hook).
Local Abbreviation search' := (two_exchange_neighborhood_search calc_objective is_better_obj hook).

Lemma call_hook_steady p1 p2 u (st : search_state Obj Aux) :
  exists st', call_hook hook p1 p2 u st = (true, st')
    /\ x (sol st') = x (sol st)
    /\ hook_calls st' = (p1, p2, u, true) :: hook_calls st.
Proof using hook_steady.
  unfold call_hook. destruct (hook_steady p1 p2 u false (sol st)) as [Hb Hx].
  destruct (hook p1 p2 u false (sol st)) as [b s']. simpl in *. subst b.
  eexists. split; [done|]. by split.
Qed.

Lemma revert_steady orig p1 p2 ls x0 :
  swap_items (x (sol (ls_state ls))) p1 p2 = Some x0 ->
  exists st',
    revert_swap hook orig p1 p2 ls
    = Continue (mkLoop st' (best_obj ls) (best_p1 ls) (best_p2 ls))
    /\ x (sol st') = x0
    /\ hook_calls st' = (p1, p2, false, true) :: hook_calls (ls_state ls).
Proof using hook_steady.
  intros Hswap. unfold revert_swap. rewrite Hswap.
  match goal with |- context [call_hook hook p1 p2 false ?st] =>
    destruct (call_hook_steady p1 p2 false st) as (st' & -> & Hx & Hc) end.
  exists st'. by repeat split.
Qed.

Lemma attempt_steady bi orig p1 p2 ls x0 :
  x (sol (ls_state ls)) = x0 -> p1 < length x0 -> p2 < length x0 -> p1 <> p2 ->
  recorded_in_range (length x0) ls ->
  one_exchange_away x0 (attempt' bi orig p1 p2 ls)
  /\ (bi = true ->
      exists ls', attempt' bi orig p1 p2 ls = Continue ls'
        /\ hook_calls (ls_state ls')
           = (p1, p2, false, true) :: (p1, p2, true, true) :: hook_calls (ls_state ls)).
Proof using hook_steady.
  intros Hx H1 H2 Hne Hrec. unfold attempt.
  destruct (swap_items_in_range x0 p1 p2 H1 H2) as [v Hswap].
  rewrite Hx, Hswap.
  pose proof (swap_items_back _ _ _ _ Hswap) as Hback.
  match goal with |- context [call_hook hook p1 p2 true ?st] =>
    destruct (call_hook_steady p1 p2 true st) as (st2 & -> & Hx2 & Hc2) end.
  simpl in Hx2, Hc2.
  pose proof (call_obj_x calc_objective st2) as (Hx3 & Hc3 & _).
  destruct (call_obj calc_objective st2) as [o st3]. simpl in Hx3, Hc3.
  destruct (is_better_obj o (best_obj ls)).
  - destruct bi; simpl.
    + pose proof (call_obj_x calc_objective st3) as (Hx4 & Hc4 & _).
      destruct (call_obj calc_objective st3) as [o' st4]. simpl in Hx4, Hc4.
      destruct (revert_steady orig p1 p2 (mkLoop st4 o' (Some p1) (Some p2)) x0)
        as (st' & -> & Hx' & Hc').
      { simpl. by rewrite Hx4, Hx3, Hx2. }
      simpl in Hc'. split.
      * simpl. split; [done|]. unfold recorded_in_range. simpl. lia.
      * intros _. eexists. split; [done|]. simpl. by rewrite Hc', Hc4, Hc3, Hc2.
    + split; [|done]. split; [done|]. exists p1, p2. split; [done|].
      by rewrite Hx3, Hx2.
  - destruct (revert_steady orig p1 p2
                (mkLoop st3 (best_obj ls) (best_p1 ls) (best_p2 ls)) x0)
      as (st' & -> & Hx' & Hc').
    { simpl. by rewrite Hx3, Hx2. }
    simpl in Hc'. split.
    + simpl. split; [done|]. exact Hrec.
    + intros _. eexists. split; [done|]. simpl. by rewrite Hc', Hc3, Hc2.
Qed.

Lemma inner_steady bi orig p1 x0 seconds : forall ls,
  x (sol (ls_state ls)) = x0 -> p1 < length x0 ->
  Forall (fun p => p < length x0) seconds -> p1 ∉ seconds ->
  recorded_in_range (length x0) ls ->
  one_exchange_away x0 (inner' bi orig p1 seconds ls)
  /\ (bi = true ->
      exists ls', inner' bi orig p1 seconds ls = Continue ls'
        /\ hook_calls (ls_state ls')
           = rev (flat_map both_calls (map (pair p1) seconds))
             ++ hook_calls (ls_state ls)).
Proof using hook_steady.
  induction seconds as [|p2 rest IH]; intros ls Hx H1 Hall Hnin Hrec; simpl.
  - split; [done|]. intros _. by exists ls.
  - apply Forall_cons in Hall as [H2 Hall].
    apply not_elem_of_cons in Hnin as [Hne Hnin].
    destruct (attempt_steady bi orig p1 p2 ls x0 Hx H1 H2 Hne Hrec) as [Hshape Hlog].
    destruct (attempt' bi orig p1 p2 ls) as [ls1|b st|e st] eqn:Hatt; simpl in Hshape.
    + destruct Hshape as [Hx1 Hrec1].
      destruct (IH ls1 Hx1 H1 Hall Hnin Hrec1) as [Hshape' Hlog'].
      split; [done|]. intros Hbi.
      destruct (Hlog Hbi) as (ls1' & [= <-] & Hc1).
      destruct (Hlog' Hbi) as (ls' & Hrun & Hc').
      exists ls'. split; [done|]. rewrite Hc', Hc1.
      unfold both_calls at 2. simpl. rewrite <- !app_assoc. done.
    + split; [done|]. intros Hbi. by destruct (Hlog Hbi) as (? & ? & _).
    + done.
Qed.

Lemma outer_steady bi orig x0 rem : forall done ls,
  x (sol (ls_state ls)) = x0 ->
  Forall (fun p => p < length x0) rem -> NoDup rem ->
  recorded_in_range (length x0) ls ->
  one_exchange_away x0
    (outer' bi orig (done ++ rem) (length done) (take (length rem - 1) rem) ls)
  /\ (bi = true ->
      exists ls',
        outer' bi orig (done ++ rem) (length done) (take (length rem - 1) rem) ls
        = Continue ls'
        /\ hook_calls (ls_state ls')
           = rev (flat_map both_calls (all_pairs rem)) ++ hook_calls (ls_state ls)).
Proof using hook_steady.
  induction rem as [|p1 rem IH]; intros done ls Hx Hall Hnd Hrec.
  - simpl. split; [done|]. intros _. by exists ls.
  - apply Forall_cons in Hall as [H1 Hall].
    apply NoDup_cons in Hnd as [Hnin Hnd].
    destruct rem as [|p2 rem'].
    { simpl. split; [done|]. intros _. by exists ls. }
    replace (take (length (p1 :: p2 :: rem') - 1) (p1 :: p2 :: rem'))
      with (p1 :: take (length (p2 :: rem') - 1) (p2 :: rem'))
      by (simpl; by rewrite Nat.sub_0_r).
    cbn [outer_loop].
    replace (drop (length done + 1) (done ++ p1 :: p2 :: rem')) with (p2 :: rem').
    2:{ rewrite drop_app_ge by lia.
        by replace (length done + 1 - length done) with 1 by lia. }
    destruct (inner_steady bi orig p1 x0 (p2 :: rem') ls Hx H1 Hall Hnin Hrec)
      as [Hshape Hlog].
    destruct (inner' bi orig p1 (p2 :: rem') ls) as [ls1|b st|e st] eqn:Hin;
      simpl in Hshape.
    + destruct Hshape as [Hx1 Hrec1].
      specialize (IH (done ++ [p1]) ls1 Hx1 Hall Hnd Hrec1).
      rewrite <- app_assoc, length_app in IH. simpl in IH.
      replace (length done + 1) with (S (length done)) in IH by lia.
      destruct IH as [Hshape' Hlog'].
      split; [done|]. intros Hbi.
      destruct (Hlog Hbi) as (ls1' & [= <-] & Hc1).
      destruct (Hlog' Hbi) as (ls' & Hrun & Hc').
      exists ls'. split; [done|]. rewrite Hc', Hc1.
      cbn [all_pairs]. rewrite !flat_map_app, !rev_app_distr, <- !app_assoc. done.
    + split; [done|]. intros Hbi. by destruct (Hlog Hbi) as (? & ? & _).
    + done.
Qed.

Lemma finish_steady orig (ls : loop_state Obj Aux) x0 :
  x (sol (ls_state ls)) = x0 -> recorded_in_range (length x0) ls ->
  match (finish orig ls).1 with
  | Ok false => x (sol (finish orig ls).2) = x0
  | Ok true =>
      exists p1 p2,
        p1 <> p2 /\ swap_items x0 p1 p2 = Some (x (sol (finish orig ls).2))
  | Raise _ => False
  end.
Proof.
  intros Hx Hrec. unfold finish, recorded_in_range in *.
  destruct (best_p1 ls) as [[|b1]|], (best_p2 ls) as [b2|]; simpl; try done.
  destruct Hrec as (H1 & H2 & Hne).
  destruct (swap_items_in_range x0 (S b1) b2 H1 H2) as [v Hv].
  rewrite Hx, Hv. simpl. by exists (S b1), b2.
Qed.

Lemma order_NoDup (n : nat) (r : rng) : NoDup (shuffle (seq 0 n) r).1.
Proof. rewrite shuffle_perm. apply NoDup_seq. Qed.

Lemma swap_items_bounds (l v : list nat) p1 p2 :
  swap_items l p1 p2 = Some v -> p1 < length l /\ p2 < length l.
Proof.
  unfold swap_items. intros Hswap.
  destruct (l !! p2) as [v2|] eqn:H2; [|discriminate].
  destruct (l !! p1) as [v1|] eqn:H1; [|discriminate].
  split; by eapply lookup_lt_Some.
Qed.

Lemma swap_items_differs (l v : list nat) p1 p2 :
  NoDup l -> p1 <> p2 -> swap_items l p1 p2 = Some v -> v <> l.
Proof.
  unfold swap_items. intros Hnd Hne Hswap Heq.
  destruct (l !! p2) as [v2|] eqn:H2; [|discriminate].
  destruct (l !! p1) as [v1|] eqn:H1; [|discriminate].
  simpl in Hswap. injection Hswap as <-.
  assert (Hl : <[p2 := v1]> (<[p1 := v2]> l) !! p2 = Some v1).
  { apply list_lookup_insert_eq. rewrite length_insert.
    by eapply lookup_lt_Some. }
  rewrite Heq, H2 in Hl. injection Hl as ->.
  apply Hne. by apply (NoDup_lookup l p1 p2 v1).
Qed.

Lemma finish_hook_calls orig (ls : loop_state Obj Aux) :
  hook_calls (finish orig ls).2 = hook_calls (ls_state ls).
Proof.
  unfold finish. destruct (truthy (best_p1 ls)); [|done].
  destruct (best_p1 ls), (best_p2 ls); try done.
  by destruct (swap_items _ _ _).
Qed.

Lemma order_in_range (s : Sol) r :
  length (x s) = inst_n s ->
  Forall (fun p => p < length (x s)) (shuffle (seq 0 (inst_n s)) r).1
  /\ length (shuffle (seq 0 (inst_n s)) r).1 = inst_n s.
Proof.
  intros Hn. pose proof (shuffle_perm (seq 0 (inst_n s)) r) as Hp. split.
  - rewrite Hp, Hn. apply Forall_forall. intros p Hin.
    apply elem_of_seq in Hin. lia.
  - by rewrite Hp, length_seq.
Qed.

(** X6: with a hook that accepts every move and leaves the vector alone, as
    the hook of the class does, and a vector of [inst.n] cells, the search
    never raises.  When it returns [False] the vector is the one it started
    from; when it returns [True] the vector is the one it started from with
    two different positions exchanged, so that a vector which holds no
    value twice has changed. *)
Theorem steady_search_outcome (best_improvement : bool) (r : rng) (s : Sol) :
  length (x s) = inst_n s ->
  let run := search' best_improvement r s in
  match run.1 with
  | Ok false => x (sol run.2) = x s
  | Ok true =>
      (exists p1 p2,
         p1 <> p2 /\ p1 < length (x s) /\ p2 < length (x s)
         /\ swap_items (x s) p1 p2 = Some (x (sol run.2)))
      /\ (NoDup (x s) -> x (sol run.2) <> x s)
  | Raise _ => False
  end.
Proof using hook_steady.
  intros Hn. cbv zeta.
  assert (Hshape :
    match (search' best_improvement r s).1 with
    | Ok false => x (sol (search' best_improvement r s).2) = x s
    | Ok true =>
        exists p1 p2,
          p1 <> p2
          /\ swap_items (x s) p1 p2 = Some (x (sol (search' best_improvement r s).2))
    | Raise _ => False
    end).
  { unfold two_exchange_neighborhood_search, search_in_order.
    destruct (order_in_range s r Hn) as [Hall Hlen].
    pose proof (order_NoDup (inst_n s) r) as Hnd.
    destruct (shuffle _ r) as [order r']. simpl in Hall, Hlen, Hnd. simpl.
    pose proof (call_obj_x calc_objective (mkSearch s [])) as (Hx0 & _ & _).
    destruct (call_obj calc_objective _) as [orig st0]. simpl in Hx0.
    destruct (outer_steady best_improvement orig (x s) order []
                (mkLoop st0 orig None None)) as [Hshape _]; [done|done|done|done|].
    simpl in Hshape. rewrite Hlen in Hshape.
    destruct (outer_loop _ _ _ _ _ _ _ _ _) as [ls|b st'|e st']; simpl in Hshape.
    - destruct Hshape as [Hx Hrec]. by apply finish_steady.
    - destruct Hshape as [-> Hex]. done.
    - done. }
  destruct (search' best_improvement r s).1 as [[|]|e]; [|done|done].
  destruct Hshape as (p1 & p2 & Hne & Hswap). split.
  - exists p1, p2. split; [done|].
    destruct (swap_items_bounds _ _ _ _ Hswap) as [H1 H2]. by repeat split.
  - intros Hnd. by apply (swap_items_differs (x s) _ p1 p2).
Qed.

Lemma scan_log (r : rng) (s : Sol) :
  length (x s) = inst_n s ->
  let order := (shuffle (seq 0 (inst_n s)) r).1 in
  let run := search' true r s in
  hook_calls run.2 = rev (flat_map both_calls (all_pairs order))
  /\ length (hook_calls run.2) = inst_n s * (inst_n s - 1).
Proof using hook_steady.
  intros Hn. cbv zeta.
  assert (hook_calls (search' true r s).2
          = rev (flat_map both_calls (all_pairs (shuffle (seq 0 (inst_n s)) r).1)))
    as Hlog.
  { unfold two_exchange_neighborhood_search, search_in_order.
    destruct (order_in_range s r Hn) as [Hall Hlen].
    destruct (shuffle _ r) as [order r'] eqn:Hshuf. simpl in Hall, Hlen. simpl.
    pose proof (call_obj_x calc_objective (mkSearch s [])) as (Hx0 & Hc0 & _).
    destruct (call_obj calc_objective _) as [orig st0]. simpl in Hx0, Hc0.
    pose proof (order_NoDup (inst_n s) r) as Hnd. rewrite Hshuf in Hnd.
    destruct (outer_steady true orig (x s) order [] (mkLoop st0 orig None None))
      as [_ Hscan]; [done|done|done|done|].
    destruct (Hscan eq_refl) as (ls & Hrun & Hc).
    simpl in Hrun, Hc. rewrite Hlen in Hrun. rewrite Hrun.
    by rewrite finish_hook_calls, Hc, Hc0, app_nil_r. }
  split; [exact Hlog|].
  rewrite Hlog, length_rev, both_calls_length, all_pairs_length.
  destruct (order_in_range s r Hn) as [_ ->]. done.
Qed.

Lemma scan_order_once (r : rng) (s : Sol) (a b : nat) :
  a < inst_n s -> b < inst_n s -> a <> b ->
  let pairs := all_pairs (shuffle (seq 0 (inst_n s)) r).1 in
  NoDup pairs
  /\ (((a, b) ∈ pairs /\ (b, a) ∉ pairs) \/ ((b, a) ∈ pairs /\ (a, b) ∉ pairs)).
Proof.
  intros Ha Hb Hab. cbv zeta.
  pose proof (shuffle_perm (seq 0 (inst_n s)) r) as Hp.
  assert (NoDup (shuffle (seq 0 (inst_n s)) r).1) as Hnd
    by (rewrite Hp; apply NoDup_seq).
  split; [by apply all_pairs_NoDup|].
  apply all_pairs_once; [done| | |done]; rewrite Hp; apply elem_of_seq; lia.
Qed.

(** X7: with such a hook the best-improvement search tries every unordered
    pair of distinct positions exactly once, whatever the shuffle draws: the
    hook is called twice for each pair (the move, then its revert), n(n-1)
    times in all, and of the two orientations of a pair exactly one
    occurs. *)
Theorem best_improvement_scans_every_pair (r : rng) (s : Sol) :
  length (x s) = inst_n s ->
  let run := search' true r s in
  exists pairs,
    hook_calls run.2 = rev (flat_map both_calls pairs)
    /\ length (hook_calls run.2) = inst_n s * (inst_n s - 1)
    /\ NoDup pairs
    /\ forall a b, a < inst_n s -> b < inst_n s -> a <> b ->
         ((a, b) ∈ pairs /\ (b, a) ∉ pairs) \/ ((b, a) ∈ pairs /\ (a, b) ∉ pairs).
Proof using hook_steady.
  intros Hn. cbv zeta.
  exists (all_pairs (shuffle (seq 0 (inst_n s)) r).1).
  destruct (scan_log r s Hn) as [Hlog Hlen].
  split; [done|]. split; [done|]. split.
  - pose proof (shuffle_perm (seq 0 (inst_n s)) r) as Hp.
    apply all_pairs_NoDup. rewrite Hp. apply NoDup_seq.
  - intros a b Ha Hb Hab. by apply (scan_order_once r s a b).
Qed.
End SteadySearch.

Lemma steady_search_outcome_witness :
  match (two_exchange_neighborhood_search Examples.first_entry Nat.ltb
           default_delta_eval false (fun _ => 0) (Examples.solution_of [1; 0])).1 with
  | Ok false =>
      x (sol (two_exchange_neighborhood_search Examples.first_entry Nat.ltb
                default_delta_eval false (fun _ => 0)
                (Examples.solution_of [1; 0])).2) = [1; 0]
  | Ok true =>
      (exists p1 p2,
         p1 <> p2 /\ p1 < 2 /\ p2 < 2
         /\ swap_items [1; 0] p1 p2
            = Some (x (sol (two_exchange_neighborhood_search Examples.first_entry
                              Nat.ltb default_delta_eval false (fun _ => 0)
                              (Examples.solution_of [1; 0])).2)))
      /\ (NoDup [1; 0]
          -> x (sol (two_exchange_neighborhood_search Examples.first_entry Nat.ltb
                       default_delta_eval false (fun _ => 0)
                       (Examples.solution_of [1; 0])).2) <> [1; 0])
  | Raise _ => False
  end.
Proof.
  apply (steady_search_outcome Examples.first_entry Nat.ltb default_delta_eval
           default_delta_eval_steady false (fun _ => 0) (Examples.solution_of [1; 0])).
  reflexivity.
Defined.

Lemma best_improvement_scans_every_pair_witness :
  exists pairs,
    hook_calls (two_exchange_neighborhood_search Examples.first_entry Nat.ltb
                  default_delta_eval true (fun _ => 0)
                  (Examples.solution_of [0; 1; 2])).2
    = rev (flat_map both_calls pairs)
    /\ length (hook_calls (two_exchange_neighborhood_search Examples.first_entry
                             Nat.ltb default_delta_eval true (fun _ => 0)
                             (Examples.solution_of [0; 1; 2])).2) = 3 * (3 - 1)
    /\ NoDup pairs
    /\ forall a b, a < 3 -> b < 3 -> a <> b ->
         ((a, b) ∈ pairs /\ (b, a) ∉ pairs) \/ ((b, a) ∈ pairs /\ (a, b) ∉ pairs).
Proof.
  apply (best_improvement_scans_every_pair Examples.first_entry Nat.ltb
           default_delta_eval default_delta_eval_steady (fun _ => 0)
           (Examples.solution_of [0; 1; 2])).
  reflexivity.
Defined.

(** ** The search with the hook of the class *)

Section LoopInvariant.
Context {Obj Aux : Type}.
Local Abbreviation Sol := (Solution Obj Aux).
Variable calc_objective : Sol -> Obj.
Variable is_better_obj : Obj -> Obj -> bool.
Variable hook : nat -> nat -> bool -> bool -> Sol -> bool * Sol.
Variable P : loop_state Obj Aux -> Prop.
Variable Q : step Obj Aux -> Prop.
Variable dom : nat -> Prop.
Variables (bi : bool) (orig : Obj).

Hypothesis attempt_hands_on : forall p1 p2 ls,
  dom p1 -> dom p2 -> P ls ->
  hands_on P Q (attempt calc_objective is_better_obj hook bi orig p1 p2 ls).

Lemma inner_hands_on p1 seconds : forall ls,
  dom p1 -> Forall dom seconds -> P ls ->
  hands_on P Q (inner_loop calc_objective is_better_obj hook bi orig p1 seconds ls).
Proof using attempt_hands_on.
  induction seconds as [|p2 rest IH]; intros ls H1 Hall HP; simpl; [done|].
  apply Forall_cons in Hall as [H2 Hall].
  pose proof (attempt_hands_on p1 p2 ls H1 H2 HP) as Hatt.
  destruct (attempt _ _ _ _ _ _ _ _) as [ls1|b st|e st]; simpl in *; [|done|done].
  by apply IH.
Qed.

Lemma outer_hands_on order firsts : forall idx ls,
  Forall dom order -> Forall dom firsts -> P ls ->
  hands_on P Q (outer_loop calc_objective is_better_obj hook bi orig order idx firsts ls).
Proof using attempt_hands_on.
  induction firsts as [|p1 rest IH]; intros idx ls Hord Hall HP; simpl; [done|].
  apply Forall_cons in Hall as [H1 Hall].
  pose proof (inner_hands_on p1 (drop (idx + 1) order) ls H1) as Hin.
  specialize (Hin (Forall_drop _ _ _ Hord) HP).
  destruct (inner_loop _ _ _ _ _ _ _ _) as [ls1|b st|e st]; simpl in *; [|done|done].
  by apply IH.
Qed.
End LoopInvariant.

Section DefaultHook.
Context {Obj Aux : Type}.
Local Abbreviation Sol := (Solution Obj Aux).
Variable f : list nat -> Obj.
Variable calc_objective : Sol -> Obj.
Variable is_better_obj : Obj -> Obj -> bool.
Hypothesis calc_of_vector : forall s, calc_objective s = f (x s).

Local Abbreviation attempt' := (attempt calc_objective is_better_obj default_delta_eval).
Local Abbreviation inner' := (inner_loop calc_objective is_better_obj default_delta_eval).
Local Abbreviation outer' := (outer_loop calc_objective is_better_obj default_delta_eval).
Local Abbreviation search' :=
  (two_exchange_neighborhood_search calc_objective is_better_obj default_delta_eval).

Lemma attempt_default bi orig p1 p2 (ls : loop_state Obj Aux) v :
  swap_items (x (sol (ls_state ls))) p1 p2 = Some v ->
  let s := sol (ls_state ls) in
  let calls := hook_calls (ls_state ls) in
  let back := mkSearch (mkSolution (x s) orig true (inst_n s) (aux s))
                ((p1, p2, false, true) :: (p1, p2, true, true) :: calls) in
  attempt' bi orig p1 p2 ls
  = if is_better_obj (f v) (best_obj ls) then
      if bi then Continue (mkLoop back (f v) (Some p1) (Some p2))
      else Return true (mkSearch (mkSolution v (f v) true (inst_n s) (aux s))
                          ((p1, p2, true, true) :: calls))
    else Continue (mkLoop back (best_obj ls) (best_p1 ls) (best_p2 ls)).
Proof using calc_of_vector.
  intros Hswap. cbv zeta. unfold attempt. rewrite Hswap.
  pose proof (swap_items_back _ _ _ _ Hswap) as Hback.
  unfold call_hook, default_delta_eval, call_obj, obj. cbn.
  rewrite calc_of_vector. cbn.
  destruct (is_better_obj (f v) (best_obj ls)); [destruct bi|]; cbn;
    unfold revert_swap; cbn; rewrite ?Hback; reflexivity.
Qed.

(** *** The cache after a search with the hook of the class *)

Lemma attempt_cache bi orig x0 p1 p2 ls :
  p1 < length x0 -> p2 < length x0 -> best_recorded f x0 orig ls ->
  hands_on (best_recorded f x0 orig) (exits_cache_right f) (attempt' bi orig p1 p2 ls).
Proof using calc_of_vector.
  intros H1 H2 (Hx & Hvalid & Hrec).
  destruct (swap_items_in_range x0 p1 p2 H1 H2) as [v Hswap].
  rewrite <- Hx in Hswap. rewrite (attempt_default bi orig p1 p2 ls v Hswap).
  rewrite Hx in *.
  destruct (is_better_obj (f v) (best_obj ls)); [destruct bi|]; simpl.
  - split; [done|]. split; [done|]. simpl. by exists v.
  - by split.
  - by split.
Qed.

Lemma finish_cache orig x0 (ls : loop_state Obj Aux) :
  orig = f x0 -> best_recorded f x0 orig ls ->
  cache_right f (sol (finish orig ls).2) /\ exists b, (finish orig ls).1 = Ok b.
Proof.
  intros Horig (Hx & Hvalid & Hrec). unfold finish.
  destruct (best_p1 ls) as [[|b1]|], (best_p2 ls) as [b2|]; simpl; try done.
  - split; [|by eexists]. split; [done|]. simpl. congruence.
  - destruct Hrec as (v & Hv & Hbest). rewrite Hx, Hv. simpl.
    split; [|by eexists]. by split.
  - split; [|by eexists]. split; [done|]. simpl. congruence.
Qed.

(** X8: with the hook of the class and an objective that is a function of
    the vector, a search that starts from a cache that is invalid or right
    returns (it does not raise) and leaves a valid cache holding the
    objective of the vector it leaves, in either mode and for either
    answer. *)
Theorem search_leaves_cache_right (best_improvement : bool) (r : rng) (s : Sol) :
  length (x s) = inst_n s ->
  (obj_val_valid s = true -> obj_val s = f (x s)) ->
  let run := search' best_improvement r s in
  cache_right f (sol run.2) /\ exists b, run.1 = Ok b.
Proof using calc_of_vector.
  intros Hn Hcache. cbv zeta.
  unfold two_exchange_neighborhood_search, search_in_order.
  destruct (order_in_range s r Hn) as [Hall Hlen].
  destruct (shuffle _ r) as [order r']. simpl in Hall, Hlen. simpl.
  assert (Hstart : exists o st0,
    call_obj calc_objective (mkSearch s []) = (o, st0)
    /\ o = f (x s) /\ x (sol st0) = x s /\ obj_val_valid (sol st0) = true).
  { unfold call_obj, obj. simpl. destruct (obj_val_valid s) eqn:Hv; simpl.
    - eexists _, _. split; [done|]. simpl. split; [by apply Hcache|done].
    - eexists _, _. split; [done|]. simpl. split; [by apply calc_of_vector|done]. }
  destruct Hstart as (orig & st0 & -> & Horig & Hx0 & Hv0).
  pose proof (outer_hands_on calc_objective is_better_obj default_delta_eval
                (best_recorded f (x s) orig) (exits_cache_right f)
                (fun p => p < length (x s)) best_improvement orig
                (fun p1 p2 ls => attempt_cache best_improvement orig (x s) p1 p2 ls)
                order (take (inst_n s - 1) order) 0 (mkLoop st0 orig None None)
                Hall (Forall_take _ _ _ Hall) ltac:(by split)) as Hout.
  destruct (outer_loop _ _ _ _ _ _ _ _ _) as [ls|b st'|e st']; simpl in Hout.
  - by apply (finish_cache orig (x s)).
  - split; [done|by eexists].
  - done.
Qed.

(** *** The first improving pair *)

Lemma first_improving_app x0 orig (l1 l2 : list (nat * nat)) :
  first_improving f is_better_obj x0 orig (l1 ++ l2)
  = match first_improving f is_better_obj x0 orig l1 with
    | Some r => Some r
    | None => first_improving f is_better_obj x0 orig l2
    end.
Proof.
  induction l1 as [|[p1 p2] l1 IH]; simpl; [done|].
  destruct (swap_items x0 p1 p2) as [v|]; [|done].
  by destruct (is_better_obj (f v) orig).
Qed.

Lemma inner_first orig x0 p1 seconds : forall ls,
  p1 < length x0 -> Forall (fun p => p < length x0) seconds -> scanning x0 orig ls ->
  first_found f is_better_obj x0 orig (map (pair p1) seconds) (inner' false orig p1 seconds ls).
Proof using calc_of_vector.
  unfold first_found.
  induction seconds as [|p2 rest IH]; intros ls H1 Hall (Hx & Hbest & Hnone); simpl.
  - by exists ls.
  - apply Forall_cons in Hall as [H2 Hall].
    destruct (swap_items_in_range x0 p1 p2 H1 H2) as [v Hswap].
    rewrite Hswap. rewrite <- Hx in Hswap.
    rewrite (attempt_default false orig p1 p2 ls v Hswap), Hbest.
    destruct (is_better_obj (f v) orig).
    + eexists. split; [done|]. by split.
    + apply IH; [done|done|]. by split.
Qed.

Lemma outer_first orig x0 rem : forall done ls,
  Forall (fun p => p < length x0) rem -> scanning x0 orig ls ->
  first_found f is_better_obj x0 orig (all_pairs rem)
    (outer' false orig (done ++ rem) (length done) (take (length rem - 1) rem) ls).
Proof using calc_of_vector.
  unfold first_found.
  induction rem as [|p1 rem IH]; intros done ls Hall Hscan.
  - by exists ls.
  - apply Forall_cons in Hall as [H1 Hall].
    destruct rem as [|p2 rem'].
    { by exists ls. }
    replace (take (length (p1 :: p2 :: rem') - 1) (p1 :: p2 :: rem'))
      with (p1 :: take (length (p2 :: rem') - 1) (p2 :: rem'))
      by (simpl; by rewrite Nat.sub_0_r).
    cbn [outer_loop all_pairs].
    replace (drop (length done + 1) (done ++ p1 :: p2 :: rem')) with (p2 :: rem').
    2:{ rewrite drop_app_ge by lia.
        by replace (length done + 1 - length done) with 1 by lia. }
    rewrite first_improving_app.
    pose proof (inner_first orig x0 p1 (p2 :: rem') ls H1 Hall Hscan) as Hin.
    unfold first_found in Hin.
    destruct (first_improving f is_better_obj x0 orig (map (pair p1) (p2 :: rem')))
      as [[[a b] v]|].
    + destruct Hin as (st & -> & Hst). by exists st.
    + destruct Hin as (ls1 & -> & Hscan1).
      specialize (IH (done ++ [p1]) ls1 Hall Hscan1).
      rewrite <- app_assoc, length_app in IH. cbn [length app] in IH.
      replace (length done + 1) with (S (length done)) in IH by lia.
      exact IH.
Qed.

(** X9: with the hook of the class and an objective that is a function of
    the vector, the first-improvement search applies the first exchange, in
    the order of the scan, whose objective is better than the starting one,
    and returns [True] with that objective cached; when no exchange is
    better it returns [False] with the vector and the objective it started
    from. *)
Theorem first_improvement_takes_first (r : rng) (s : Sol) :
  length (x s) = inst_n s ->
  let order := (shuffle (seq 0 (inst_n s)) r).1 in
  let orig := (obj calc_objective s).1 in
  let run := search' false r s in
  match first_improving f is_better_obj (x s) orig (all_pairs order) with
  | Some (p1, p2, v) =>
      run.1 = Ok true /\ x (sol run.2) = v /\ cache_right f (sol run.2)
  | None =>
      run.1 = Ok false /\ x (sol run.2) = x s /\ obj_val (sol run.2) = orig
  end.
Proof using calc_of_vector.
  intros Hn. cbv zeta.
  unfold two_exchange_neighborhood_search, search_in_order.
  destruct (order_in_range s r Hn) as [Hall Hlen].
  destruct (shuffle _ r) as [order r']. simpl in Hall, Hlen. simpl.
  pose proof (call_obj_x calc_objective (mkSearch s [])) as (Hx0 & _ & _).
  assert (Ho : (call_obj calc_objective (mkSearch s [])).1 = (obj calc_objective s).1).
  { unfold call_obj. simpl. by destruct (obj calc_objective s). }
  destruct (call_obj calc_objective _) as [orig st0]. simpl in Hx0, Ho. subst orig.
  set (orig := (obj calc_objective s).1).
  pose proof (outer_first orig (x s) order [] (mkLoop st0 orig None None) Hall) as Hout.
  simpl in Hout. rewrite Hlen in Hout. specialize (Hout ltac:(by split)).
  unfold first_found in Hout.
  destruct (first_improving f is_better_obj (x s) orig (all_pairs order))
    as [[[a b] v]|].
  - destruct Hout as (st & -> & Hst). by split.
  - destruct Hout as (ls & -> & Hx & Hbest & Hnone).
    unfold finish. rewrite Hnone. simpl. by split.
Qed.
End DefaultHook.

Lemma search_leaves_cache_right_witness :
  cache_right (hd 0)
    (sol (two_exchange_neighborhood_search Examples.first_entry Nat.ltb
            default_delta_eval true (fun _ => 0) (Examples.solution_of [2; 0; 1])).2)
  /\ exists b,
       (two_exchange_neighborhood_search Examples.first_entry Nat.ltb
          default_delta_eval true (fun _ => 0) (Examples.solution_of [2; 0; 1])).1
       = Ok b.
Proof.
  apply (search_leaves_cache_right (hd 0) Examples.first_entry Nat.ltb
           (fun s => eq_refl) true (fun _ => 0) (Examples.solution_of [2; 0; 1])).
  - reflexivity.
  - discriminate.
Defined.

Lemma first_improvement_takes_first_witness :
  match first_improving (hd 0) Nat.ltb [2; 0; 1]
          (obj Examples.first_entry (Examples.solution_of [2; 0; 1])).1
          (all_pairs (shuffle (seq 0 3) (fun _ => 0)).1) with
  | Some (p1, p2, v) =>
      (two_exchange_neighborhood_search Examples.first_entry Nat.ltb
         default_delta_eval false (fun _ => 0) (Examples.solution_of [2; 0; 1])).1
      = Ok true
      /\ x (sol (two_exchange_neighborhood_search Examples.first_entry Nat.ltb
                   default_delta_eval false (fun _ => 0)
                   (Examples.solution_of [2; 0; 1])).2) = v
      /\ cache_right (hd 0)
           (sol (two_exchange_neighborhood_search Examples.first_entry Nat.ltb
                   default_delta_eval false (fun _ => 0)
                   (Examples.solution_of [2; 0; 1])).2)
  | None =>
      (two_exchange_neighborhood_search Examples.first_entry Nat.ltb
         default_delta_eval false (fun _ => 0) (Examples.solution_of [2; 0; 1])).1
      = Ok false
      /\ x (sol (two_exchange_neighborhood_search Examples.first_entry Nat.ltb
                   default_delta_eval false (fun _ => 0)
                   (Examples.solution_of [2; 0; 1])).2) = [2; 0; 1]
      /\ obj_val (sol (two_exchange_neighborhood_search Examples.first_entry Nat.ltb
                         default_delta_eval false (fun _ => 0)
                         (Examples.solution_of [2; 0; 1])).2)
         = (obj Examples.first_entry (Examples.solution_of [2; 0; 1])).1
  end.
Proof.
  apply (first_improvement_takes_first (hd 0) Examples.first_entry Nat.ltb
           (fun s => eq_refl) (fun _ => 0) (Examples.solution_of [2; 0; 1])).
  reflexivity.
Defined.

(** ** The children of the crossovers *)

Section CrossoverChildren.
Context {Obj Aux : Type}.
Local Abbreviation Sol := (Solution Obj Aux).
Local Abbreviation St := (M Obj Aux).
Implicit Types (w : world Obj Aux) (s o c : Sol).

(** One round exchanges the cells [i] and [j] of the child, where [j] is
    the cell holding the other parent's value at [i]. *)
Lemma pmx_step_exchange n child other c o i pos w :
  heap w !! child = Some c -> heap w !! other = Some o -> child <> other ->
  is_perm n (x o) -> pmx_inv n (x c) pos -> i < n ->
  exists pos' e e2 j,
    pmx_step child other i pos w
    = (Ok pos', mkWorld (<[child := set_x (<[j := e2]> (<[i := e]> (x c))) c]> (heap w))
                  (rand w))
    /\ pmx_inv n (<[j := e2]> (<[i := e]> (x c))) pos'
    /\ x o !! i = Some e /\ x c !! j = Some e /\ x c !! i = Some e2.
Proof.
  intros Hc Ho Hne Hpo Hinv Hi.
  destruct (pmx_step_run n child other c o i pos w Hc Ho Hne Hpo Hinv Hi)
    as (v & pos' & Hrun & Hinv').
  pose proof (pmx_inv_perm _ _ _ Hinv) as Hpc.
  destruct Hinv as (Hlen & Hlpos & Hlt & Hinv).
  destruct (lookup_lt_is_Some_2 (x o) i) as [e He].
  { rewrite (is_perm_length n (x o) Hpo). exact Hi. }
  assert (Hen : e < n) by exact (is_perm_lookup_lt n (x o) i e Hpo He).
  destruct (inverse_of_perm n pos (x c) e Hpc Hinv Hen) as (j & Hj & Hxj).
  assert (Hjn : j < n) by (apply lookup_lt_Some in Hxj; lia).
  destruct (lookup_lt_is_Some_2 (x c) i) as [e2 He2]; [lia|].
  assert (He2n : e2 < n) by (apply Hlt; by eapply list_elem_of_lookup_2).
  exists pos', e, e2, j.
  assert (v = <[j := e2]> (<[i := e]> (x c))) as <-; [|done].
  assert (Hv : x <$> heap (pmx_step child other i pos w).2 !! child = Some v).
  { rewrite Hrun. simpl. rewrite list_lookup_insert_eq by (by eapply lookup_lt_Some).
    done. }
  revert Hv. unfold pmx_step.
  rewrite (bind_run _ _ _ _ _ (read_x_run _ _ _ _ _ Ho He)).
  erewrite lift_bind_run by (unfold get_item; by rewrite Hj).
  destruct (decide (i = j)) as [->|Hij].
  - simpl. rewrite Hc. simpl. intros [= <-]. assert (e2 = e) as -> by congruence.
    by rewrite list_insert_insert_eq, (list_insert_id (x c)).
  - rewrite (bind_run _ _ _ _ _ (read_x_run _ _ _ _ _ Hc He2)).
    rewrite (bind_run _ _ _ _ _ (write_x_run _ _ i e _ Hc ltac:(lia))).
    set (c1 := set_x (<[i := e]> (x c)) c).
    set (w1 := mkWorld (<[child := c1]> (heap w)) (rand w)).
    assert (Hc1 : heap w1 !! child = Some c1).
    { simpl. apply list_lookup_insert_eq. by eapply lookup_lt_Some. }
    rewrite (bind_run _ _ _ _ _ (write_x_run _ _ j e2 _ Hc1
               ltac:(simpl; rewrite length_insert; lia))).
    erewrite lift_bind_run
      by (unfold set_item; rewrite decide_True by lia; reflexivity).
    unfold lift, set_item. rewrite decide_True by (rewrite length_insert; lia).
    simpl. rewrite list_lookup_insert_eq
      by (rewrite length_insert; by eapply lookup_lt_Some).
    simpl. by intros [= <-].
Qed.

(** What one exchange does to the cells: cell [i] takes the other parent's
    value, a cell that agreed with the other parent still does, and a cell
    other than [i] holding another value than [e] keeps it. *)
Lemma exchange_cells n (ox v : list nat) i j e e2 :
  is_perm n ox -> length v = n -> i < n ->
  ox !! i = Some e -> v !! j = Some e -> v !! i = Some e2 ->
  let v' := <[j := e2]> (<[i := e]> v) in
  v' !! i = Some e
  /\ (forall k, v !! k = ox !! k -> v' !! k = ox !! k)
  /\ (forall k e', k <> i -> e' <> e -> v !! k = Some e' -> v' !! k = Some e').
Proof.
  intros Hpo Hlen Hi He Hj He2 v'. unfold v'.
  assert (Hjn : j < n) by (apply lookup_lt_Some in Hj; lia).
  assert (Hvi : <[j := e2]> (<[i := e]> v) !! i = Some e).
  { destruct (decide (i = j)) as [->|Hij].
    - rewrite list_lookup_insert_eq by (rewrite length_insert; lia). congruence.
    - rewrite list_lookup_insert_ne by done. apply list_lookup_insert_eq. lia. }
  split; [done|]. split.
  - intros k Hk. destruct (decide (k = i)) as [->|Hki]; [congruence|].
    destruct (decide (k = j)) as [->|Hkj].
    + exfalso. apply Hki.
      apply (NoDup_lookup ox j i e); [by eapply is_perm_NoDup|congruence|done].
    + by rewrite !list_lookup_insert_ne.
  - intros k e' Hki Hee Hk.
    rewrite !list_lookup_insert_ne; [done|done|]. intros ->. congruence.
Qed.

Lemma pmx_loop_window n child other o k : forall i c pos w,
  heap w !! child = Some c -> heap w !! other = Some o -> child <> other ->
  is_perm n (x o) -> pmx_inv n (x c) pos -> i + k <= n ->
  exists v pos',
    for_each (seq i k) (pmx_step child other) pos w
    = (Ok pos', mkWorld (<[child := set_x v c]> (heap w)) (rand w))
    /\ pmx_inv n v pos'
    /\ (forall m, i <= m < i + k -> v !! m = x o !! m)
    /\ (forall m, x c !! m = x o !! m -> v !! m = x o !! m)
    /\ (forall m e, ~ (i <= m < i + k) ->
          (forall m', i <= m' < i + k -> x o !! m' <> Some e) ->
          x c !! m = Some e -> v !! m = Some e).
Proof.
  induction k as [|k IH]; intros i c pos w Hc Ho Hne Hpo Hinv Hik.
  - exists (x c), pos. simpl. rewrite set_x_id, list_insert_id by done.
    rewrite world_eta. split; [done|]. split; [done|].
    split; [intros; lia|]. by split.
  - destruct (pmx_step_exchange n child other c o i pos w)
      as (pos1 & e & e2 & j & Hstep & Hinv1 & He & Hj & He2); try done; [lia|].
    destruct (exchange_cells n (x o) (x c) i j e e2) as (Hvi & Hagree & Hkeep);
      try done; [by destruct Hinv|lia|].
    set (v1 := <[j := e2]> (<[i := e]> (x c))) in *.
    set (w1 := mkWorld (<[child := set_x v1 c]> (heap w)) (rand w)) in *.
    destruct (IH (S i) (set_x v1 c) pos1 w1)
      as (v & pos' & Hloop & Hinv' & Hwin & Hagree' & Hkeep'); try done.
    + simpl. apply list_lookup_insert_eq. by eapply lookup_lt_Some.
    + simpl. by rewrite list_lookup_insert_ne.
    + lia.
    + exists v, pos'. split; [|split; [done|split; [|split]]].
      * simpl. rewrite (bind_run _ _ _ _ _ Hstep). fold w1. rewrite Hloop.
        unfold w1. simpl. by rewrite list_insert_insert_eq.
      * intros m Hm. destruct (decide (m = i)) as [->|Hmi].
        -- apply Hagree'. simpl. congruence.
        -- apply Hwin. lia.
      * intros m Hm. apply Hagree'. simpl. by apply Hagree.
      * intros m e' Hm Hval Hx. apply Hkeep'; [lia|intros m' Hm'; apply Hval; lia|].
        simpl. apply Hkeep; [lia| |done].
        intros ->. apply (Hval i); [lia|done].
Qed.

Lemma pmx_window_run uninit self other s o n w :
  heap w !! self = Some s -> heap w !! other = Some o ->
  is_perm n (x s) -> is_perm n (x o) -> 2 <= n ->
  exists v,
    let cuts := order_cuts (rand w 0 `mod` n) (rand w 1 `mod` (n - 1)) in
    partially_mapped_crossover uninit self other w
    = (Ok (length (heap w)),
       mkWorld (heap w ++ [invalidate (set_x v s)]) (fun k => rand w (S (S k))))
    /\ is_perm n v
    /\ cuts.1 < cuts.2 <= n
    /\ (forall m, cuts.1 <= m < cuts.2 -> v !! m = x o !! m)
    /\ (forall m, x s !! m = x o !! m -> v !! m = x o !! m)
    /\ (forall m e, ~ (cuts.1 <= m < cuts.2) ->
          (forall m', cuts.1 <= m' < cuts.2 -> x o !! m' <> Some e) ->
          x s !! m = Some e -> v !! m = Some e).
Proof.
  intros Hs Ho Hps Hpo Hn.
  pose proof (is_perm_length _ _ Hps) as Hls.
  unfold partially_mapped_crossover.
  rewrite (bind_run _ _ _ _ _ (len_x_run _ _ _ Hs)). rewrite Hls.
  rewrite (bind_run _ _ _ _ _ (pmx_cut_points_run n w Hn)).
  set (d1 := rand w 0 `mod` n). set (d2 := rand w 1 `mod` (n - 1)).
  assert (Hd1 : d1 < n) by (apply Nat.mod_upper_bound; lia).
  assert (Hd2 : d2 < n - 1) by (apply Nat.mod_upper_bound; lia).
  pose proof (order_cuts_window n d1 d2 Hd1 Hd2) as Hwin.
  destruct (order_cuts d1 d2) as [begin_ end_]. simpl in Hwin.
  set (w0 := mkWorld (heap w) (fun k => rand w (S (S k)))).
  rewrite (bind_run _ _ _ _ _ (copy_run self s w0 Hs)).
  set (child := length (heap w0)).
  set (w1 := mkWorld (heap w0 ++ [s]) (rand w0)).
  assert (Hchild : heap w1 !! child = Some s).
  { unfold w1, child. simpl. rewrite lookup_app_r by lia. by rewrite Nat.sub_diag. }
  assert (Hother : heap w1 !! other = Some o).
  { unfold w1. simpl. by apply lookup_app_l_Some. }
  assert (Hne : child <> other).
  { unfold child. simpl. apply lookup_lt_Some in Ho. lia. }
  rewrite (bind_run _ _ _ _ _ (get_x_run _ _ _ Hchild)).
  destruct (build_pos_run n (x s) (np_empty uninit n)) as (pos & Hpos & Hlpos & Hinv).
  { by eapply is_perm_NoDup. }
  { intros e He. by apply (is_perm_elem n (x s)). }
  { unfold np_empty. by rewrite length_map, length_seq. }
  erewrite lift_bind_run by exact Hpos.
  destruct (pmx_loop_window n child other o (end_ - begin_) begin_ s pos w1)
    as (v & pos' & Hloop & Hinv' & Hw & Hagree & Hkeep); try done.
  { repeat split; try done. intros e He. by apply (is_perm_elem n (x s)). }
  { lia. }
  rewrite (bind_run _ _ _ _ _ Hloop).
  set (w2 := mkWorld (<[child := set_x v s]> (heap w1)) (rand w1)).
  assert (Hc2 : heap w2 !! child = Some (set_x v s)).
  { simpl. apply list_lookup_insert_eq. by eapply lookup_lt_Some. }
  rewrite (bind_run _ _ _ _ _ (invalidate_at_run _ _ _ Hc2)).
  exists v. cbn [fst snd].
  replace (begin_ + (end_ - begin_)) with end_ in * by lia.
  split; [|split; [by eapply pmx_inv_perm|split; [lia|by repeat split]]].
  unfold mret, M_ret. f_equal. unfold w2, w1, w0, child. simpl.
  rewrite list_insert_insert_eq. f_equal.
  replace (length (heap w)) with (length (heap w) + 0) at 1 by lia.
  by rewrite insert_app_r.
Qed.

(** X10: the child of the partially mapped crossover, for permutation
    parents of n >= 2 positions.  It is a new object with an invalid cache
    and a permutation; between the two cut points it carries the second
    parent's values; wherever the parents agree it agrees with them; and
    outside the window a value of the first parent that does not occur in
    the second parent's window stays where it was.  Two draws are taken from
    the generator. *)
Theorem pmx_child_window uninit self other s o n w :
  heap w !! self = Some s -> heap w !! other = Some o ->
  is_perm n (x s) -> is_perm n (x o) -> 2 <= n ->
  exists v,
    let cuts := order_cuts (rand w 0 `mod` n) (rand w 1 `mod` (n - 1)) in
    partially_mapped_crossover uninit self other w
    = (Ok (length (heap w)),
       mkWorld (heap w ++ [invalidate (set_x v s)]) (fun k => rand w (S (S k))))
    /\ is_perm n v
    /\ cuts.1 < cuts.2 <= n
    /\ (forall m, cuts.1 <= m < cuts.2 -> v !! m = x o !! m)
    /\ (forall m, x s !! m = x o !! m -> v !! m = x o !! m)
    /\ (forall m e, ~ (cuts.1 <= m < cuts.2) ->
          (forall m', cuts.1 <= m' < cuts.2 -> x o !! m' <> Some e) ->
          x s !! m = Some e -> v !! m = Some e).
Proof. apply pmx_window_run. Qed.

Lemma build_pos_uninit n v (u u' : nat -> nat) :
  is_perm n v -> build_pos v (np_empty u n) = build_pos v (np_empty u' n).
Proof.
  intros Hp.
  assert (Hb : forall u0, exists pos,
    build_pos v (np_empty u0 n) = Ok pos /\ length pos = n /\ inverse_of pos v).
  { intros u0. apply build_pos_run.
    - by eapply is_perm_NoDup.
    - intros e He. by apply (is_perm_elem n v).
    - unfold np_empty. by rewrite length_map, length_seq. }
  destruct (Hb u) as (pos & -> & Hl & Hinv).
  destruct (Hb u') as (pos' & -> & Hl' & Hinv').
  f_equal. apply list_eq. intros e.
  destruct (decide (e < n)) as [He|He].
  - destruct (inverse_of_perm n pos v e Hp Hinv He) as (k & -> & Hk).
    symmetry. by apply Hinv'.
  - rewrite !lookup_ge_None_2; [done|lia|lia].
Qed.

Lemma pmx_cut_points_heap size w :
  heap (pmx_cut_points (Obj := Obj) (Aux := Aux) size w).2 = heap w.
Proof.
  unfold pmx_cut_points, draw_begin, draw_end, mbind, M_bind, with_rng.
  destruct (randrange size (rand w)) as [[d1|e1] r1]; [|done]. cbn [heap rand].
  by destruct (randrange (size - 1) r1) as [[d2|e2] r2].
Qed.

Lemma bind_ext_run {A B} (m : St A) (f g : A -> St B) w :
  (forall a w', m w = (Ok a, w') -> f a w' = g a w') -> (m ≫= f) w = (m ≫= g) w.
Proof.
  intros Hfg. unfold mbind, M_bind.
  destruct (m w) as [[a|e] w']; [by apply Hfg|done].
Qed.

(** X12: the contents of the cells that [np.empty] hands out never reach
    the result of the partially mapped crossover: when the first parent is
    a permutation every cell of [pos] is written before it is read, so two
    runs that differ only in those contents agree in everything, whatever
    the second parent is. *)
Theorem pmx_ignores_fresh_cells (u u' : nat -> nat) self other s w :
  heap w !! self = Some s -> is_perm (length (x s)) (x s) ->
  partially_mapped_crossover u self other w
  = partially_mapped_crossover u' self other w.
Proof.
  intros Hs Hp. unfold partially_mapped_crossover.
  rewrite !(bind_run _ _ _ _ _ (len_x_run _ _ _ Hs)).
  apply bind_ext_run. intros [begin_ end_] w0 Hcut.
  pose proof (pmx_cut_points_heap (length (x s)) w) as Hh.
  rewrite Hcut in Hh. simpl in Hh.
  assert (Hs0 : heap w0 !! self = Some s) by (by rewrite Hh).
  rewrite !(bind_run _ _ _ _ _ (copy_run self s w0 Hs0)).
  assert (Hchild : heap (mkWorld (heap w0 ++ [s]) (rand w0)) !! length (heap w0)
                   = Some s).
  { simpl. rewrite lookup_app_r by lia. by rewrite Nat.sub_diag. }
  rewrite !(bind_run _ _ _ _ _ (get_x_run _ _ _ Hchild)).
  by rewrite (build_pos_uninit _ _ u u' Hp).
Qed.

(** X11: the partially mapped crossover of two parents with the same
    permutation returns a copy of it, with an invalid cache. *)
Theorem pmx_of_equal_parents uninit self other s o n w :
  heap w !! self = Some s -> heap w !! other = Some o ->
  is_perm n (x s) -> x o = x s -> 2 <= n ->
  partially_mapped_crossover uninit self other w
  = (Ok (length (heap w)),
     mkWorld (heap w ++ [invalidate s]) (fun k => rand w (S (S k)))).
Proof.
  intros Hs Ho Hps Heq Hn.
  destruct (pmx_window_run uninit self other s o n w Hs Ho Hps)
    as (v & Hrun & Hpv & _ & _ & Hagree & _); [by rewrite Heq|done|].
  rewrite Hrun. assert (v = x s) as ->; [|by rewrite set_x_id].
  apply list_eq. intros m. rewrite <- Heq. apply Hagree. by rewrite Heq.
Qed.

(** X13: for permutation parents the cycle crossover returns a new object
    that carries the second parent's vector and the first parent's other
    attributes, with an invalid cache; it draws nothing from the generator
    and its result does not depend on the contents of fresh cells. *)
Theorem cycle_crossover_returns_second_parent uninit self other s o n w :
  heap w !! self = Some s -> heap w !! other = Some o ->
  is_perm n (x s) -> is_perm n (x o) -> 1 <= n ->
  exists c,
    cycle_crossover uninit self other w
    = (Ok (length (heap w)), mkWorld (heap w ++ [c]) (rand w))
    /\ x c = x o
    /\ obj_val_valid c = false
    /\ inst_n c = inst_n s /\ aux c = aux s.
Proof.
  intros Hs Ho Hps Hpo Hn. exists (invalidate (set_x (x o) s)).
  by rewrite (cycle_crossover_copies_other uninit self other s o n w).
Qed.
End CrossoverChildren.

Lemma pmx_child_window_witness :
  exists v,
    let cuts := order_cuts (3 `mod` 7) (3 `mod` (7 - 1)) in
    partially_mapped_crossover (fun _ => 0) 0 1
      (Examples.store_of [1; 4; 6; 2; 0; 3; 5] [6; 1; 4; 2; 5; 0; 3] 3)
    = (Ok 2,
       mkWorld ([Examples.solution_of [1; 4; 6; 2; 0; 3; 5];
                 Examples.solution_of [6; 1; 4; 2; 5; 0; 3]]
                ++ [invalidate (set_x v (Examples.solution_of [1; 4; 6; 2; 0; 3; 5]))])
         (fun _ => 3))
    /\ is_perm 7 v
    /\ cuts.1 < cuts.2 <= 7
    /\ (forall m, cuts.1 <= m < cuts.2 -> v !! m = [6; 1; 4; 2; 5; 0; 3] !! m)
    /\ (forall m, [1; 4; 6; 2; 0; 3; 5] !! m = [6; 1; 4; 2; 5; 0; 3] !! m ->
          v !! m = [6; 1; 4; 2; 5; 0; 3] !! m)
    /\ (forall m e, ~ (cuts.1 <= m < cuts.2) ->
          (forall m', cuts.1 <= m' < cuts.2 -> [6; 1; 4; 2; 5; 0; 3] !! m' <> Some e) ->
          [1; 4; 6; 2; 0; 3; 5] !! m = Some e -> v !! m = Some e).
Proof.
  apply (pmx_child_window (fun _ => 0) 0 1
           (Examples.solution_of [1; 4; 6; 2; 0; 3; 5])
           (Examples.solution_of [6; 1; 4; 2; 5; 0; 3]) 7
           (Examples.store_of [1; 4; 6; 2; 0; 3; 5] [6; 1; 4; 2; 5; 0; 3] 3)).
  - reflexivity.
  - reflexivity.
  - unfold is_perm. apply (bool_decide_unpack _). vm_compute. exact I.
  - unfold is_perm. apply (bool_decide_unpack _). vm_compute. exact I.
  - lia.
Defined.

Lemma pmx_of_equal_parents_witness :
  partially_mapped_crossover (fun _ => 0) 0 1
    (Examples.store_of [1; 4; 6; 2; 0; 3; 5] [1; 4; 6; 2; 0; 3; 5] 3)
  = (Ok 2,
     mkWorld ([Examples.solution_of [1; 4; 6; 2; 0; 3; 5];
               Examples.solution_of [1; 4; 6; 2; 0; 3; 5]]
              ++ [invalidate (Examples.solution_of [1; 4; 6; 2; 0; 3; 5])])
       (fun _ => 3)).
Proof.
  apply (pmx_of_equal_parents (fun _ => 0) 0 1
           (Examples.solution_of [1; 4; 6; 2; 0; 3; 5])
           (Examples.solution_of [1; 4; 6; 2; 0; 3; 5]) 7
           (Examples.store_of [1; 4; 6; 2; 0; 3; 5] [1; 4; 6; 2; 0; 3; 5] 3)).
  - reflexivity.
  - reflexivity.
  - unfold is_perm. apply (bool_decide_unpack _). vm_compute. exact I.
  - reflexivity.
  - lia.
Defined.

Lemma pmx_ignores_fresh_cells_witness :
  partially_mapped_crossover (fun _ => 0) 0 1
    (Examples.store_of [1; 4; 6; 2; 0; 3; 5] [6; 1; 4; 2; 5; 0; 3] 3)
  = partially_mapped_crossover (fun k => 100 + k) 0 1
      (Examples.store_of [1; 4; 6; 2; 0; 3; 5] [6; 1; 4; 2; 5; 0; 3] 3).
Proof.
  apply (pmx_ignores_fresh_cells (fun _ => 0) (fun k => 100 + k) 0 1
           (Examples.solution_of [1; 4; 6; 2; 0; 3; 5])
           (Examples.store_of [1; 4; 6; 2; 0; 3; 5] [6; 1; 4; 2; 5; 0; 3] 3)).
  - reflexivity.
  - unfold is_perm. apply (bool_decide_unpack _). vm_compute. exact I.
Defined.

Lemma cycle_crossover_returns_second_parent_witness :
  exists c,
    cycle_crossover (fun _ => 0) 0 1
      (Examples.store_of [1; 4; 6; 2; 0; 3; 5] [6; 1; 4; 2; 5; 0; 3] 3)
    = (Ok 2,
       mkWorld ([Examples.solution_of [1; 4; 6; 2; 0; 3; 5];
                 Examples.solution_of [6; 1; 4; 2; 5; 0; 3]] ++ [c])
         (fun _ => 3))
    /\ x c = [6; 1; 4; 2; 5; 0; 3]
    /\ obj_val_valid c = false
    /\ inst_n c = 7 /\ aux c = tt.
Proof.
  apply (cycle_crossover_returns_second_parent (fun _ => 0) 0 1
           (Examples.solution_of [1; 4; 6; 2; 0; 3; 5])
           (Examples.solution_of [6; 1; 4; 2; 5; 0; 3]) 7
           (Examples.store_of [1; 4; 6; 2; 0; 3; 5] [6; 1; 4; 2; 5; 0; 3] 3)).
  - reflexivity.
  - reflexivity.
  - unfold is_perm. apply (bool_decide_unpack _). vm_compute. exact I.
  - unfold is_perm. apply (bool_decide_unpack _). vm_compute. exact I.
  - lia.
Defined.

Section ErEdges.
(** Along a run of the main loop every element is followed by one of its
    listed neighbours, unless none of them is unvisited any more. *)
Lemma er_path_edges orig unv elem vis unv' elem' :
  er_path orig unv elem vis unv' elem' -> NoDup unv ->
  forall i a b nbs,
    (vis ++ [elem']) !! i = Some a -> (vis ++ [elem']) !! S i = Some b ->
    orig !! a = Some nbs ->
    b ∈ nbs \/ forall u, u ∈ nbs -> u ∉ unv \/ u ∈ take i (vis ++ [elem']).
Proof.
  induction 1 as [|unv elem sel vis unv' elem' Hsel Hnb Hpath IH];
    intros Hnd i a b nbs Ha Hb Horig.
  - destruct i; simpl in *; done.
  - destruct i as [|i]; simpl in Ha, Hb.
    + injection Ha as ->.
      assert (b = sel) as ->.
      { destruct Hpath; simpl in Hb; congruence. }
      destruct (decide (filter (.∈ unv) nbs = [])) as [Hnil|Hne].
      * right. intros u Hu. left. intros Hin.
        assert (u ∈ filter (.∈ unv) nbs) as Hf by (by apply list_elem_of_filter).
        rewrite Hnil in Hf. by apply elem_of_nil in Hf.
      * left. specialize (Hnb nbs Horig Hne).
        by apply list_elem_of_filter in Hnb as [_ ?].
    + destruct (IH (NoDup_remove_first _ _ Hnd) i a b nbs Ha Hb Horig) as [Hin|Hall];
        [by left|right].
      intros u Hu. destruct (Hall u Hu) as [Hout|Hearlier].
      * destruct (decide (u = elem)) as [->|Hue].
        -- right. simpl. left.
        -- left. intros Hin. apply Hout. by apply elem_of_remove_first.
      * right. simpl. by right.
Qed.
End ErEdges.

Section ErChild.
Context {Obj Aux : Type}.
Local Abbreviation Sol := (Solution Obj Aux).
Implicit Types (w : world Obj Aux) (s o c : Sol).

(** X14: the edge recombination of two permutations of n >= 1 positions
    returns (it does not raise) a new object with an invalid cache whose
    vector is a permutation, and every element of the child is followed by
    one of its neighbours in a parent tour, unless all its neighbours in
    both tours occur earlier in the child. *)
Theorem edge_recombination_follows_edges self other s o n w :
  heap w !! self = Some s -> heap w !! other = Some o ->
  is_perm n (x s) -> is_perm n (x o) -> 1 <= n ->
  exists v r',
    edge_recombination self other w
    = (Ok (length (heap w)), mkWorld (heap w ++ [invalidate (set_x v s)]) r')
    /\ is_perm n v
    /\ forall i a b, v !! i = Some a -> v !! S i = Some b ->
         (cyc_nb (x s) a b \/ cyc_nb (x o) a b)
         \/ forall u, cyc_nb (x s) a u \/ cyc_nb (x o) a u -> u ∈ take i v.
Proof.
  intros Hs Ho Hps Hpo Hn.
  destruct (edge_recombination_run self other s o n w Hs Ho Hps Hpo Hn)
    as (orig & start & vis & unv' & elem' & r' & Hrun & Hfrom & Hstart & Hlen & Hpath).
  exists (vis ++ [elem']), r'. split; [done|].
  pose proof (er_child_perm n orig start vis unv' elem' Hpath Hstart Hlen Hn) as Hperm.
  split; [done|]. intros i a b Ha Hb.
  destruct Hfrom as [Hlorig Hnbs].
  assert (Han : a < n) by exact (is_perm_lookup_lt n _ i a Hperm Ha).
  destruct (lookup_lt_is_Some_2 orig a) as [nbs Horig].
  { rewrite Hlorig, (is_perm_length n (x s) Hps). exact Han. }
  destruct (Hnbs a nbs Horig) as [_ Hiff].
  destruct (er_path_edges orig (seq 0 n) start vis unv' elem' Hpath (NoDup_seq 0 n)
              i a b nbs Ha Hb Horig) as [Hin|Hall].
  - left. by apply Hiff.
  - right. intros u Hu. assert (Hun : u < n).
    { destruct Hu as [(k & _ & [Hk|Hk])|(k & _ & [Hk|Hk])];
        [exact (is_perm_lookup_lt n (x s) _ u Hps Hk)
        |exact (is_perm_lookup_lt n (x s) _ u Hps Hk)
        |exact (is_perm_lookup_lt n (x o) _ u Hpo Hk)
        |exact (is_perm_lookup_lt n (x o) _ u Hpo Hk)]. }
    destruct (Hall u) as [Hout|Hearlier]; [by apply Hiff| |done].
    exfalso. apply Hout. apply elem_of_seq. lia.
Qed.
End ErChild.

Lemma edge_recombination_follows_edges_witness :
  exists v r',
    edge_recombination 0 1
      (Examples.store_of [1; 4; 6; 2; 0; 3; 5] [6; 1; 4; 2; 5; 0; 3] 3)
    = (Ok 2,
       mkWorld ([Examples.solution_of [1; 4; 6; 2; 0; 3; 5];
                 Examples.solution_of [6; 1; 4; 2; 5; 0; 3]]
                ++ [invalidate (set_x v (Examples.solution_of [1; 4; 6; 2; 0; 3; 5]))])
         r')
    /\ is_perm 7 v
    /\ forall i a b, v !! i = Some a -> v !! S i = Some b ->
         (cyc_nb [1; 4; 6; 2; 0; 3; 5] a b \/ cyc_nb [6; 1; 4; 2; 5; 0; 3] a b)
         \/ forall u, cyc_nb [1; 4; 6; 2; 0; 3; 5] a u \/ cyc_nb [6; 1; 4; 2; 5; 0; 3] a u ->
              u ∈ take i v.
Proof.
  apply (edge_recombination_follows_edges 0 1
           (Examples.solution_of [1; 4; 6; 2; 0; 3; 5])
           (Examples.solution_of [6; 1; 4; 2; 5; 0; 3]) 7
           (Examples.store_of [1; 4; 6; 2; 0; 3; 5] [6; 1; 4; 2; 5; 0; 3] 3)).
  - reflexivity.
  - reflexivity.
  - unfold is_perm. apply (bool_decide_unpack _). vm_compute. exact I.
  - unfold is_perm. apply (bool_decide_unpack _). vm_compute. exact I.
  - lia.
Defined.

(** ** Construction and check *)

Section Lifecycle.
Context {Obj Aux : Type}.
Local Abbreviation Sol := (Solution Obj Aux).

(** X1: [check] passes on what the check of the base class raises and
    leaves the object as that check left it.  When the base check returns,
    [check] returns exactly for the rearrangements of 0,...,length-1 and
    raises [ValueError] exactly for the other vectors; the comparison of
    the two sets leaves no room for a value held twice. *)
Theorem check_accepts_permutations_only
    (base_check : Sol -> result unit * Sol) (s : Sol) :
  let after := (base_check s).2 in
  (check base_check s).2 = after
  /\ ((check base_check s).1 = Ok tt
      <-> (base_check s).1 = Ok tt /\ x after ≡ₚ seq 0 (length (x after)))
  /\ (forall e, (check base_check s).1 = Raise e
        <-> (base_check s).1 = Raise e
            \/ ((base_check s).1 = Ok tt /\ e = ValueError
                /\ ~ x after ≡ₚ seq 0 (length (x after))))
  /\ ((check base_check s).1 = Ok tt -> NoDup (x after)).
Proof.
  cbv zeta. unfold check.
  destruct (base_check s) as [[[]|e0] s'] eqn:Hb; simpl.
  - pose proof (same_sets_is_perm (x s')) as Hc. unfold is_perm in Hc.
    case_decide as Hd; simpl.
    + apply Hc in Hd. split; [done|]. split; [by split|]. split.
      * intros e. split; [done|]. by intros [?|(_ & _ & Hn)].
      * intros _. rewrite Hd. apply NoDup_seq.
    + split; [done|]. split.
      * split; [done|]. intros [_ Hp]. by apply Hc in Hp.
      * split; [|done]. intros e. split.
        -- intros [= <-]. right. split; [done|]. split; [done|].
           intros Hp. by apply Hc in Hp.
        -- intros [?|(_ & -> & _)]; done.
  - split; [done|]. split; [by split; [|intros [? _]]|]. split; [|done].
    intros e. split; [by left|]. by intros [?|[? _]].
Qed.

(** X2: a solution constructed with [init] set, over the [length] cells
    the base class allocates, holds 0,...,length-1, and the test of
    [check] on the vector never fails on it, nor after [initialize], which
    also invalidates the cache: with a base check that leaves the vector
    alone, [check] answers as the base check does. *)
Theorem constructed_solution_checks
    (base_check : Sol -> result unit * Sol) (length_ : nat) (base : Sol) (r : rng) :
  length (x base) = length_ ->
  (forall s', x (base_check s').2 = x s') ->
  exists s,
    __init__ length_ true base = Ok s
    /\ x s = seq 0 length_
    /\ (check base_check s).1 = (base_check s).1
    /\ (check base_check (initialize r s).1).1 = (base_check (initialize r s).1).1
    /\ obj_val_valid (initialize r s).1 = false.
Proof.
  intros Hlen Hkeep. exists (set_x (seq 0 length_) base).
  unfold __init__. rewrite decide_True by done.
  split; [done|]. split; [done|].
  assert (Hp : forall s' : Sol, x s' ≡ₚ seq 0 length_ ->
            (check base_check s').1 = (base_check s').1).
  { intros s' Hs'. specialize (Hkeep s'). unfold check.
    destruct (base_check s') as [[[]|e0] s2]; simpl in *; [|done].
    rewrite decide_True; [done|]. apply same_sets_is_perm. unfold is_perm.
    by rewrite Hkeep, Hs', length_seq. }
  split; [by apply Hp|]. split.
  - apply Hp. by rewrite initialize_perm.
  - unfold initialize. by destruct (shuffle _ r).
Qed.
End Lifecycle.

(** With a base check that recomputes the cache, [check] refuses a
    permutation whose valid cache is wrong, as the base check does, accepts
    it with the right cache, and refuses a vector that holds a value
    twice. *)
Example check_after_base_check :
  (check Examples.cache_check (mkSolution [1; 0] 5 true 2 tt)).1 = Raise ValueError
  /\ (check Examples.cache_check (mkSolution [1; 0] 1 true 2 tt)).1 = Ok tt
  /\ (check Examples.cache_check (mkSolution [1; 1] 1 true 2 tt)).1 = Raise ValueError.
Proof. by vm_compute. Qed.

Lemma constructed_solution_checks_witness :
  exists s,
    __init__ 3 true (Examples.solution_of [7; 7; 7]) = Ok s
    /\ x s = seq 0 3
    /\ (check Examples.cache_check s).1 = (Examples.cache_check s).1
    /\ (check Examples.cache_check (initialize (fun _ => 1) s).1).1
       = (Examples.cache_check (initialize (fun _ => 1) s).1).1
    /\ obj_val_valid (initialize (fun _ => 1) s).1 = false.
Proof.
  apply (constructed_solution_checks Examples.cache_check 3
           (Examples.solution_of [7; 7; 7]) (fun _ => 1)).
  - reflexivity.
  - intros s'. unfold Examples.cache_check. destruct (obj_val_valid s'); reflexivity.
Defined.

Lemma operators_keep_permutations_witness :
  is_perm 3 (x (initialize (fun _ => 1) (Examples.solution_of [2; 0; 1])).1).
Proof.
  destruct (operators_keep_permutations (Obj := nat) (Aux := unit) 3 ltac:(lia))
    as (Hinit & _).
  apply Hinit. unfold is_perm. apply (bool_decide_unpack _). vm_compute. exact I.
Defined.
